(** * INI-Parser: a shallow embedding of [INI-Parser.h] and its properties

    The header defines two classes.  [IniParser] keeps a two-level
    [std::unordered_map] from section names to key/value maps and a
    line-oriented reader and writer.  [IniParserX] derives from it and adds
    repeated-key arrays ([key[] = value]) and a table of nested sections.

    Strings are byte sequences ([list ascii]); [size_t] is [N] with its
    wrap-around at [2^64] written out; the hash maps are [gmap]s; C++
    exceptions are the [Throws] outcome of a method, which also carries the
    object as the exception leaves it.  A file is its content; the recorded
    [filePath] and the constructors, which only record it and load, are
    left out. *)

From Stdlib Require Import Ascii String NArith.
From stdpp Require Import base option list gmap strings.

Local Open Scope N_scope.
Local Open Scope nat_scope.
Local Open Scope list_scope.

(** ** Strings and [size_t] *)

Abbreviation str := (list ascii).

(** A string literal of the source. *)
Definition lit (s : string) : str := list_ascii_of_string s.

Definition size_max : N := (2 ^ 64)%N.

(** [std::string::npos], the largest [size_t]. *)
Definition npos : N := (size_max - 1)%N.

(** Subtraction and addition of [size_t] values wrap around. *)
Definition sz_sub (a b : N) : N := ((a + (size_max - b mod size_max)) mod size_max)%N.
Definition sz_add (a b : N) : N := ((a + b) mod size_max)%N.

(** The result of a [find]: [None] stands for [npos], [Some i] for the
    index [i].  [pos_of] is the [size_t] the source computes with. *)
Definition pos_of (r : option nat) : N :=
  match r with
  | Some i => N.of_nat i
  | None => npos
  end.

(** [s.find(c)] *)
Definition find_chr (s : str) (c : ascii) : option nat :=
  fst <$> list_find (λ a, a = c) s.

(** [s.find_first_not_of(c)] *)
Definition find_first_not_of (s : str) (c : ascii) : option nat :=
  fst <$> list_find (λ a, a ≠ c) s.

(** [s.find_last_not_of(c)] *)
Definition find_last_not_of (s : str) (c : ascii) : option nat :=
  (λ p, length s - 1 - fst p) <$> list_find (λ a, a ≠ c) (reverse s).

(** Does [pat] start [s]? *)
Fixpoint starts_with (pat s : str) : bool :=
  match pat, s with
  | [], _ => true
  | _ :: _, [] => false
  | p :: pat', a :: s' => bool_decide (p = a) && starts_with pat' s'
  end.

(** [s.find(pat)] for a string pattern: the least index at which [pat]
    occurs. *)
Fixpoint find_sub (s pat : str) : option nat :=
  if starts_with pat s then Some 0
  else match s with
       | [] => None
       | _ :: s' => S <$> find_sub s' pat
       end.

(** The exceptions of the header, and the two failures of the standard
    library it can run into. *)
Inductive exn : Type :=
  | KeyNotFound
  | KeyAlreadyExist
  | FileLoadedError
  | KeyNotArray
  | KeyIsArray
  | CanNotArray
  | std_out_of_range      (* thrown by [substr] and by [at] *)
  | undefined_behaviour.  (* [back()] of an empty vector: no exception, no defined result *)

Global Instance exn_eq_dec : EqDecision exn.
Proof. solve_decision. Defined.

(** [s.substr(pos, count)]: throws when [pos > s.size()], otherwise the
    characters from [pos], at most [count] of them. *)
Definition substr (s : str) (pos count : N) : exn + str :=
  let size := N.of_nat (length s) in
  if (size <? pos)%N then inl std_out_of_range
  else inr (take (N.to_nat (N.min count (size - pos))) (drop (N.to_nat pos) s)).

(** [substr] at the places where the source calls it with [pos <= size()]
    ([pos] is zero, or one past an index that [find] returned), so that it
    cannot throw. *)
Definition substr_in (s : str) (pos : nat) (count : N) : str :=
  take (N.to_nat (N.min count (N.of_nat (length s - pos)))) (drop pos s).

(** [s.substr(pos)], same places. *)
Definition substr_from (s : str) (pos : nat) : str := drop pos s.

(** The outcome of a method on an object of type [S]: it returns, or it
    throws, and in both cases the object is left in some state. *)
Inductive outcome (S A : Type) : Type :=
  | Returns (a : A) (s : S)
  | Throws (e : exn) (s : S).
Arguments Returns {S A} a s.
Arguments Throws {S A} e s.

Definition state_of {S A} (o : outcome S A) : S :=
  match o with
  | Returns _ s => s
  | Throws _ s => s
  end.

(** ** Files *)

Definition newline : ascii := "010"%char.

(** The lines that repeated [std::getline(file, buf)] yields for a file
    content: the terminator is dropped, and a last line need not have one. *)
Fixpoint getlines (text : str) : list str :=
  match text with
  | [] => []
  | c :: rest =>
      if decide (c = newline) then [] :: getlines rest
      else match getlines rest with
           | [] => [[c]]
           | l :: ls => (c :: l) :: ls
           end
  end.

(** ** The base class *)

Module IniParser.

(** [std::unordered_map<std::string, std::unordered_map<std::string, std::string>>] *)
Abbreviation Builder := (gmap str (gmap str str)).

(** [builder[section]] as a value: [operator[]] of a map yields an empty
    inner map for a section that is absent. *)
Definition section_of (builder : Builder) (section : str) : gmap str str :=
  default ∅ (builder !! section).

(** [builder[section][key] = value] *)
Definition put (section key value : str) (builder : Builder) : Builder :=
  <[section := <[key := value]> (section_of builder section)]> builder.

(** [builder[section].erase(key)]; the subscript creates the section when
    it is absent. *)
Definition erase_key (section key : str) (builder : Builder) : Builder :=
  <[section := delete key (section_of builder section)]> builder.

(** [if (builder[section].empty()) builder.erase(section)] *)
Definition erase_if_empty (section : str) (builder : Builder) : Builder :=
  if decide (section_of builder section = ∅) then delete section builder
  else <[section := section_of builder section]> builder.

(** [builder[section][key]] read as a reference: the entry is created with
    an empty string when it is absent. *)
Definition subscript (section key : str) (builder : Builder) : Builder * str :=
  match section_of builder section !! key with
  | Some v => (<[section := section_of builder section]> builder, v)
  | None => (put section key [] builder, [])
  end.

Definition include (builder : Builder) (key : str) : bool :=
  match find_chr key "/" with
  | None => bool_decide (is_Some (builder !! key))
  | Some x =>
      let section := substr_in key 0 (N.of_nat x) in
      let subsection := substr_from key (x + 1) in
      match builder !! section with
      | None => false
      | Some m => bool_decide (is_Some (m !! subsection))
      end
  end.

(** [value(key)] *)
Definition value (key : str) (builder : Builder) : outcome Builder str :=
  match find_chr key "/" with
  | None => Throws KeyNotFound builder
  | Some x =>
      if negb (include builder key) then Throws KeyNotFound builder
      else
        let section := substr_in key 0 (N.of_nat x) in
        let subsection := substr_from key (x + 1) in
        let '(b, v) := subscript section subsection builder in
        Returns v b
  end.

(** [value(section, key)] *)
Definition value2 (section key : str) (builder : Builder) : outcome Builder str :=
  if negb (include builder section) then Throws KeyNotFound builder
  else if negb (include builder (section ++ lit "/" ++ key)) then Throws KeyNotFound builder
  else let '(b, v) := subscript section key builder in Returns v b.

(** [operator[](key)] *)
Definition index (key : str) (builder : Builder) : outcome Builder str :=
  match find_chr key "/" with
  | None => Throws KeyNotFound builder
  | Some x =>
      if negb (include builder (substr_in key 0 (N.of_nat x))) then Throws KeyNotFound builder
      else
        let section := substr_in key 0 (N.of_nat x) in
        let subsection := substr_from key (x + 1) in
        let '(b, v) := subscript section subsection builder in
        Returns v b
  end.

(** The iteration order of an [unordered_map] is unspecified; the listing
    functions are given in the order of [map_to_list] and are only ever
    used through membership. *)
Definition all_sections (builder : Builder) : list str :=
  (map_to_list builder).*1.

Definition all_keys (section : str) (builder : Builder) : exn + list str :=
  if negb (include builder section) then inl KeyNotFound
  else match builder !! section with
       | Some m => inr (map_to_list m).*1
       | None => inl std_out_of_range   (* [builder.at(section)] *)
       end.

Definition add_key (section key value : str) (builder : Builder) : outcome Builder unit :=
  match find_sub key (lit "[]") with
  | Some _ => Throws CanNotArray builder
  | None =>
      if negb (include builder section) then Returns tt (put section key value builder)
      else if negb (include builder (section ++ lit "/" ++ key))
           then Returns tt (put section key value builder)
      else Throws KeyAlreadyExist builder
  end.

Definition remove_key (section key : str) (builder : Builder) : outcome Builder unit :=
  if include builder (section ++ lit "/" ++ key) then
    Returns tt (erase_if_empty section (erase_key section key builder))
  else Throws KeyNotFound builder.

(** [strip(s)]: both positions and the count are computed before
    [substr] is called. *)
Definition strip (s : str) : exn + str :=
  let st := pos_of (find_first_not_of s " ") in
  let ed := pos_of (find_last_not_of s " ") in
  substr s st (sz_add (sz_sub ed st) 1).

(** The text between [=] and the end of the value in [parse_inline]:
    [buffer.substr(sp + 1, sq - sp - 1)] when a [;] was found and
    [buffer.substr(sp + 1)] otherwise. *)
Definition raw_value (buffer : str) (sp : nat) (sq : option nat) : str :=
  match sq with
  | Some q => substr_in buffer (sp + 1) (sz_sub (sz_sub (N.of_nat q) (N.of_nat sp)) 1)
  | None => substr_from buffer (sp + 1)
  end.

(** [buffer.substr(st + 1, buffer.find(']') - st - 1)] *)
Definition header_name (buffer : str) (st : nat) : str :=
  substr_in buffer (st + 1)
    (sz_sub (sz_sub (pos_of (find_chr buffer "]")) (N.of_nat st)) 1).

(** [parse_inline(buffer)].  The function-local [static std::string
    section] lives as long as the process and is shared by all objects of
    the class: it is the first component of the state, the object's
    [builder] the second. *)
Definition parse_inline (buffer : str) (w : str * Builder) : outcome (str * Builder) bool :=
  let '(section, builder) := w in
  if decide (find_chr buffer ";" = Some 0) then Returns false w
  else
    let sp := find_chr buffer "=" in
    let sq := find_chr buffer ";" in
    match sp with
    | Some p =>
        let key := substr_in buffer 0 (N.of_nat p) in
        let value := raw_value buffer p sq in
        match strip key with
        | inl e => Throws e w
        | inr key =>
            match strip value with
            | inl e => Throws e w
            | inr value => Returns true (section, put section key value builder)
            end
        end
    | None =>
        match find_chr buffer "[" with
        | Some st => Returns true (header_name buffer st, builder)
        | None => Returns false w
        end
    end.

(** [while (std::getline(file, buf)) parse_inline(buf);] *)
Fixpoint parse_lines (lines : list str) (w : str * Builder) : outcome (str * Builder) unit :=
  match lines with
  | [] => Returns tt w
  | buf :: rest =>
      match parse_inline buf w with
      | Returns _ w' => parse_lines rest w'
      | Throws e w' => Throws e w'
      end
  end.

(** [load_ini_file(file_path)]; [file] is the content of the file at that
    path, [None] when [validate_file] cannot open it. *)
Definition load_ini_file (file : option str) (w : str * Builder) : outcome (str * Builder) bool :=
  match file with
  | None => Returns false w
  | Some text =>
      match parse_lines (getlines text) w with
      | Returns _ w' => Returns true w'
      | Throws e w' => Throws e w'
      end
  end.

(** What [save_ini_file] writes for one section. *)
Definition save_section (section : str) (kvs : list (str * str)) : str :=
  lit "[" ++ section ++ lit "]" ++ [newline]
  ++ concat (map (λ kv, kv.1 ++ lit " = " ++ kv.2 ++ [newline]) kvs)
  ++ [newline].

(** [save_ini_file]: the text written when the maps are iterated in the
    order [doc]. *)
Definition save_in_order (doc : list (str * list (str * str))) : str :=
  concat (map (λ skv, save_section skv.1 skv.2) doc).

Definition enumerate (builder : Builder) : list (str * list (str * str)) :=
  map (λ sm, (sm.1, map_to_list sm.2)) (map_to_list builder).

Definition save_ini_file (builder : Builder) : str :=
  save_in_order (enumerate builder).

End IniParser.

(** ** The extended class *)

Module IniParserX.

Import IniParser.

(** The object: the inherited [builder], and the two private tables. *)
Record parser : Type := Parser {
  builder : Builder;
  arrays : gmap str (list str);
  connection : gmap str (list str)
}.

(** A default-constructed object. *)
Definition empty : parser := Parser ∅ ∅ ∅.

Definition set_builder (f : Builder → Builder) (x : parser) : parser :=
  Parser (f (builder x)) (arrays x) (connection x).

Definition set_arrays (f : gmap str (list str) → gmap str (list str)) (x : parser) : parser :=
  Parser (builder x) (f (arrays x)) (connection x).

Definition set_connection (f : gmap str (list str) → gmap str (list str)) (x : parser) : parser :=
  Parser (builder x) (arrays x) (f (connection x)).

(** [table[k].push_back(v)] *)
Definition push_back (k v : str) (table : gmap str (list str)) : gmap str (list str) :=
  <[k := default [] (table !! k) ++ [v]]> table.

Definition get_array_name (old_name : str) : str :=
  match find_sub old_name (lit "[]") with
  | Some pos => substr_in old_name 0 (N.of_nat pos)
  | None => old_name
  end.

(** [is_array(key)] *)
Definition is_array (key : str) (x : parser) : bool :=
  let real_key := get_array_name key in
  bool_decide (is_Some (arrays x !! real_key)).

(** [is_array(section, key)] *)
Definition is_array2 (section key : str) (x : parser) : bool :=
  let real_key := get_array_name key in
  bool_decide (is_Some (arrays x !! (section ++ lit "/" ++ real_key))).

(** [arrays.at(k)]: throws [std::out_of_range] for a key that is absent. *)
Definition arrays_at (k : str) (x : parser) : exn + list str :=
  match arrays x !! k with
  | Some l => inr l
  | None => inl std_out_of_range
  end.

(** [v.at(index)] *)
Definition vector_at (l : list str) (index : nat) : exn + str :=
  match l !! index with
  | Some v => inr v
  | None => inl std_out_of_range
  end.

Definition bind_exn {A B} (r : exn + A) (f : A → exn + B) : exn + B :=
  match r with
  | inl e => inl e
  | inr a => f a
  end.

(** [size_of_array(key)] *)
Definition size_of_array (key : str) (x : parser) : exn + nat :=
  let real_key := get_array_name key in
  if is_array real_key x then bind_exn (arrays_at key x) (λ l, inr (length l))
  else inl KeyNotArray.

(** [size_of_array(section, key)] *)
Definition size_of_array2 (section key : str) (x : parser) : exn + nat :=
  let real_key := get_array_name key in
  let k := section ++ lit "/" ++ real_key in
  if is_array k x then bind_exn (arrays_at k x) (λ l, inr (length l))
  else inl KeyNotArray.

(** [value_of_array(section, key, index)] *)
Definition value_of_array2 (section key : str) (index : nat) (x : parser) : exn + str :=
  let real_key := get_array_name key in
  let k := section ++ lit "/" ++ real_key in
  if is_array k x then bind_exn (arrays_at k x) (λ l, vector_at l index)
  else inl KeyNotArray.

(** [value_of_array(key, index)] *)
Definition value_of_array (key : str) (index : nat) (x : parser) : exn + str :=
  let real_key := get_array_name key in
  if is_array real_key x then bind_exn (arrays_at real_key x) (λ l, vector_at l index)
  else inl KeyNotArray.

Definition add_array (section key : str) (array : list str) (x : parser) : outcome parser unit :=
  let real_key := get_array_name key in
  let k := section ++ lit "/" ++ real_key in
  if negb (include (builder x) (k ++ lit "[]")) && negb (include (builder x) k) then
    match last array with
    | None => Throws undefined_behaviour x
    | Some back =>
        Returns tt (set_arrays (insert k array)
                      (set_builder (put section (key ++ lit "[]") back) x))
    end
  else Throws KeyAlreadyExist x.

Definition remove_array (section key : str) (x : parser) : outcome parser unit :=
  let real_key := get_array_name key in
  if is_array2 section key x then
    let k := section ++ lit "/" ++ real_key in
    Returns tt
      (set_builder (erase_if_empty section)
         (set_builder (erase_key section (key ++ lit "[]"))
            (set_arrays (delete k) x)))
  else Throws KeyNotArray x.

Definition add_key (section key value : str) (x : parser) : outcome parser unit :=
  match find_sub key (lit "[]") with
  | Some _ => Throws CanNotArray x
  | None =>
      if negb (include (builder x) section)
      then Returns tt (set_builder (put section key value) x)
      else if negb (include (builder x) (section ++ lit "/" ++ key))
           then Returns tt (set_builder (put section key value) x)
      else Throws KeyAlreadyExist x
  end.

Definition remove_key (section key : str) (x : parser) : outcome parser unit :=
  if include (builder x) (section ++ lit "/" ++ key) then
    Returns tt (set_builder (erase_if_empty section)
                  (set_builder (erase_key section key) x))
  else Throws KeyNotFound x.

(** [value(key)] *)
Definition value (key : str) (x : parser) : outcome parser str :=
  match find_chr key "/" with
  | None => Throws KeyNotFound x
  | Some p =>
      if negb (include (builder x) key) then Throws KeyNotFound x
      else if is_array key x then Throws KeyIsArray x
      else
        let section := substr_in key 0 (N.of_nat p) in
        let subsection := substr_from key (p + 1) in
        let '(b, v) := subscript section subsection (builder x) in
        Returns v (set_builder (λ _, b) x)
  end.

(** [value(section, key)] *)
Definition value2 (section key : str) (x : parser) : outcome parser str :=
  if negb (include (builder x) section) then Throws KeyNotFound x
  else if negb (include (builder x) (section ++ lit "/" ++ key)) then Throws KeyNotFound x
  else if is_array (section ++ lit "/" ++ key) x then Throws KeyIsArray x
  else let '(b, v) := subscript section key (builder x) in
       Returns v (set_builder (λ _, b) x).

(** [operator[](key)] *)
Definition index (key : str) (x : parser) : outcome parser str :=
  match find_chr key "/" with
  | None => Throws KeyNotFound x
  | Some p =>
      if negb (include (builder x) (substr_in key 0 (N.of_nat p))) then Throws KeyNotFound x
      else if is_array key x then Throws KeyIsArray x
      else
        let section := substr_in key 0 (N.of_nat p) in
        let subsection := substr_from key (p + 1) in
        let '(b, v) := subscript section subsection (builder x) in
        Returns v (set_builder (λ _, b) x)
  end.

(** An assignment through the reference that [value] or [operator[]]
    returned for [section] and [key]. *)
Definition assign (section key v : str) (x : parser) : parser :=
  set_builder (put section key v) x.

(** The section that a header line opens, and the relation it records:
    the body of [if (st != npos)] in [parse_inline].  [tmp_section[0]] of
    an empty string is the terminating zero character. *)
Definition open_section (section tmp_section : str) (x : parser) : str * parser :=
  if decide (nth 0 tmp_section zero = "."%char) then
    (section ++ tmp_section,
     set_connection (push_back section (substr_from tmp_section 1)) x)
  else
    match find_chr tmp_section "." with
    | Some point =>
        (tmp_section,
         set_connection (push_back (substr_in tmp_section 0 (N.of_nat point))
                                   (substr_from tmp_section (point + 1))) x)
    | None => (tmp_section, x)
    end.

(** The body of [if (sp != npos)] after the two calls of [strip]. *)
Definition store (section key value : str) (x : parser) : parser :=
  let x1 :=
    match find_sub key (lit "[]") with
    | Some point =>
        set_arrays (push_back (section ++ lit "/" ++ substr_in key 0 (N.of_nat point)) value) x
    | None => x
    end in
  set_builder (put section key value) x1.

(** [parse_inline(buffer)], with its own [static std::string section] as
    the first component of the state. *)
Definition parse_inline (buffer : str) (w : str * parser) : outcome (str * parser) bool :=
  let '(section, x) := w in
  if decide (find_chr buffer ";" = Some 0) then Returns false w
  else
    let sp := find_chr buffer "=" in
    let sq := find_chr buffer ";" in
    match sp with
    | Some p =>
        let key := substr_in buffer 0 (N.of_nat p) in
        let value := raw_value buffer p sq in
        match strip key with
        | inl e => Throws e w
        | inr key =>
            match strip value with
            | inl e => Throws e w
            | inr value => Returns true (section, store section key value x)
            end
        end
    | None =>
        match find_chr buffer "[" with
        | Some st => Returns false (open_section section (header_name buffer st) x)
        | None => Returns false w
        end
    end.

Fixpoint parse_lines (lines : list str) (w : str * parser) : outcome (str * parser) unit :=
  match lines with
  | [] => Returns tt w
  | buf :: rest =>
      match parse_inline buf w with
      | Returns _ w' => parse_lines rest w'
      | Throws e w' => Throws e w'
      end
  end.

Definition load_ini_file (file : option str) (w : str * parser) : outcome (str * parser) bool :=
  match file with
  | None => Returns false w
  | Some text =>
      match parse_lines (getlines text) w with
      | Returns _ w' => Returns true w'
      | Throws e w' => Throws e w'
      end
  end.

(** The lines written for the elements [idx], [idx + 1], ... of an array:
    the body of the [for] loop over [idx]. *)
Fixpoint save_elements (section key : str) (indices : list nat) (x : parser) : exn + str :=
  match indices with
  | [] => inr []
  | idx :: rest =>
      bind_exn (value_of_array2 section key idx x) (λ v,
      bind_exn (save_elements section key rest x) (λ out,
      inr (key ++ lit " = " ++ v ++ [newline] ++ out)))
  end.

(** What is written for one entry [j] of a section.  The loop bound
    [size_of_array(i.first, j.first)] is evaluated again before every
    iteration; it reads the object only, so every evaluation agrees with the
    first. *)
Definition save_entry (section : str) (j : str * str) (x : parser) : exn + str :=
  match find_sub j.1 (lit "[]") with
  | Some p =>
      bind_exn (size_of_array2 section j.1 x) (λ n,
      save_elements section j.1 (seq 0 n) x)
  | None => inr (j.1 ++ lit " = " ++ j.2 ++ [newline])
  end.

Fixpoint save_entries (section : str) (kvs : list (str * str)) (x : parser) : exn + str :=
  match kvs with
  | [] => inr []
  | j :: rest =>
      bind_exn (save_entry section j x) (λ out,
      bind_exn (save_entries section rest x) (λ outs, inr (out ++ outs)))
  end.

(** [save_ini_file]: the text written when the maps are iterated in the
    order [doc]; an exception leaves the file with what was written before
    it, which is not kept here. *)
Fixpoint save_in_order (doc : list (str * list (str * str))) (x : parser) : exn + str :=
  match doc with
  | [] => inr []
  | i :: rest =>
      bind_exn (save_entries i.1 i.2 x) (λ body,
      bind_exn (save_in_order rest x) (λ outs,
      inr (lit "[" ++ i.1 ++ lit "]" ++ [newline] ++ body ++ [newline] ++ outs)))
  end.

Definition save_ini_file (x : parser) : exn + str :=
  save_in_order (enumerate (builder x)) x.

End IniParserX.

(** ** Notions used in the statements *)

Import IniParser.

Abbreviation space := (" "%char).

(** [pat] occurs in [s]. *)
Definition has_sub (pat s : str) : Prop := ∃ a b, s = a ++ pat ++ b.

(** The contract of [add_key]: the array suffix is refused, then an
    existing qualified key, and otherwise the entry is inserted, in a new
    section when [S] is absent. *)
Inductive add_key_contract (S K V : str) (b : Builder) : outcome Builder unit → Prop :=
  | contract_array :
      has_sub (lit "[]") K →
      add_key_contract S K V b (Throws CanNotArray b)
  | contract_exists :
      ¬ has_sub (lit "[]") K →
      include b (S ++ lit "/" ++ K) = true →
      add_key_contract S K V b (Throws KeyAlreadyExist b)
  | contract_insert :
      ¬ has_sub (lit "[]") K →
      include b (S ++ lit "/" ++ K) = false →
      add_key_contract S K V b
        (Returns tt (<[S := <[K := V]> (default ∅ (b !! S))]> b)).

(** What [operator[]] does once the section part is known to be present. *)
Definition index_result (S K : str) (b : Builder) (m : gmap str str) : Builder * str :=
  match m !! K with
  | Some v => (b, v)
  | None => (<[S := <[K := []]> m]> b, [])
  end.

(** [s] without its leading spaces. *)
Fixpoint drop_spaces (s : str) : str :=
  match s with
  | [] => []
  | c :: s' => if decide (c = space) then drop_spaces s' else s
  end.

(** [s] without its leading and trailing spaces. *)
Definition trim (s : str) : str := reverse (drop_spaces (reverse (drop_spaces s))).

(** [s] is empty or holds spaces only. *)
Definition blank (s : str) : Prop := Forall (λ c, c = space) s.

(** The text of [s] before the first [c]; all of [s] when it has none. *)
Fixpoint text_before (c : ascii) (s : str) : str :=
  match s with
  | [] => []
  | a :: s' => if decide (a = c) then [] else a :: text_before c s'
  end.

(** The text of [s] after the first [c]; nothing when it has none. *)
Fixpoint text_after (c : ascii) (s : str) : str :=
  match s with
  | [] => []
  | a :: s' => if decide (a = c) then s' else text_after c s'
  end.

(** The two parts of an assignment line: the text before the first [=],
    and the text after it, which ends at the first [;] of the line when
    that [;] comes after the [=]. *)
Definition key_part (buffer : str) : str := text_before "=" buffer.

Definition value_part (buffer : str) : str :=
  if bool_decide (";"%char ∈ key_part buffer) then text_after "=" buffer
  else text_before ";" (text_after "=" buffer).

(** The line is a section header for [parse_inline]: not a comment, no
    [=], and an opening bracket. *)
Definition opens_section (buffer : str) : bool :=
  negb (bool_decide (head buffer = Some ";"%char))
  && negb (bool_decide ("="%char ∈ buffer))
  && bool_decide ("["%char ∈ buffer).

(** What either [parse_inline] does with the two stripped parts. *)
Definition with_stripped {S} (buffer : str) (w : S) (k : str → str → S) : outcome S bool :=
  match strip (key_part buffer) with
  | inl e => Throws e w
  | inr key =>
      match strip (value_part buffer) with
      | inl e => Throws e w
      | inr value => Returns true (k key value)
      end
  end.

(** ** Histories of calls *)

(** The mutating calls on a base parser, and the documents they lead to
    from an empty one.  A parsed line comes with the value that the static
    [section] has when [parse_inline] is entered. *)
Inductive base_call : Type :=
  | base_add_key (section key value : str)
  | base_remove_key (section key : str)
  | base_parse_inline (static_section buffer : str).

Definition base_after (c : base_call) (b : Builder) : Builder :=
  match c with
  | base_add_key s k v => state_of (add_key s k v b)
  | base_remove_key s k => state_of (remove_key s k b)
  | base_parse_inline sec buffer => (state_of (parse_inline buffer (sec, b))).2
  end.

Inductive base_reachable : Builder → Prop :=
  | base_reachable_empty : base_reachable ∅
  | base_reachable_call c b : base_reachable b → base_reachable (base_after c b).

(** The same for the extended parser. *)
Inductive call : Type :=
  | call_add_key (section key value : str)
  | call_remove_key (section key : str)
  | call_add_array (section key : str) (array : list str)
  | call_remove_array (section key : str)
  | call_parse_inline (static_section buffer : str).

Definition after_call (c : call) (x : IniParserX.parser) : IniParserX.parser :=
  match c with
  | call_add_key s k v => state_of (IniParserX.add_key s k v x)
  | call_remove_key s k => state_of (IniParserX.remove_key s k x)
  | call_add_array s k a => state_of (IniParserX.add_array s k a x)
  | call_remove_array s k => state_of (IniParserX.remove_array s k x)
  | call_parse_inline sec buffer => (state_of (IniParserX.parse_inline buffer (sec, x))).2
  end.

Inductive reachable : IniParserX.parser → Prop :=
  | reachable_empty : reachable IniParserX.empty
  | reachable_call c x : reachable x → reachable (after_call c x).

(** No section of the document is empty. *)
Definition no_empty_section (b : Builder) : Prop :=
  ∀ S m, b !! S = Some m → m ≠ ∅.

(** Every path of the array table has its [key[]] entry in the document. *)
Definition arrays_have_entries (x : IniParserX.parser) : Prop :=
  ∀ path, is_Some (IniParserX.arrays x !! path) →
  ∃ S K, path = S ++ lit "/" ++ K
         ∧ is_Some (section_of (IniParserX.builder x) S !! (K ++ lit "[]")).

(** Every [key[]] entry of the document has its path in the array table. *)
Definition entries_have_arrays (x : IniParserX.parser) : Prop :=
  ∀ S K, is_Some (section_of (IniParserX.builder x) S !! (K ++ lit "[]")) →
  is_Some (IniParserX.arrays x !! (S ++ lit "/" ++ K)).

(** ** Notions for the round trip *)

(** A stored key or value: not empty, no space at either end, shorter
    than [npos], and on one line. *)
Definition stripped (s : str) : Prop :=
  s ≠ [] ∧ head s ≠ Some space ∧ last s ≠ Some space
  ∧ (N.of_nat (length s) < npos)%N ∧ newline ∉ s.

(** The value stored for a key of a section, if any. *)
Definition entry (b : Builder) (sec k : str) : option str := b !! sec ≫= (.!! k).

(** The key has the array suffix somewhere. *)
Definition array_key (k : str) : Prop := is_Some (find_sub k (lit "[]")).

(** The path under which [parse_inline] files the elements of an array. *)
Definition array_path (sec k : str) : str := sec ++ lit "/" ++ IniParserX.get_array_name k.

(** A section name that parsing can leave: from a line without [=]. *)
Definition section_ok (sec : str) : Prop :=
  ("="%char ∉ sec) ∧ (newline ∉ sec) ∧ (N.of_nat (length sec) < npos)%N.

(** A key that parsing can store: stripped text from before the first [=]. *)
Definition key_ok (k : str) : Prop := stripped k ∧ "="%char ∉ k.

(** A value that parsing can store for the key [k]: it ends at the first
    [;] of its line unless the key has one, and both come from one line. *)
Definition value_ok (k v : str) : Prop :=
  stripped v ∧ (";"%char ∉ k → ";"%char ∉ v)
  ∧ (N.of_nat (length k + length v + 1) < npos)%N.

(** What holds of every object that parsing has filled. *)
Record parsed (x : IniParserX.parser) : Prop := {
  parsed_sections :
    ∀ sec, is_Some (IniParserX.builder x !! sec) → section_ok sec;
  parsed_nonempty : no_empty_section (IniParserX.builder x);
  parsed_entries :
    ∀ sec k v, entry (IniParserX.builder x) sec k = Some v → key_ok k ∧ value_ok k v;
  parsed_registered :
    ∀ sec k, is_Some (entry (IniParserX.builder x) sec k) → array_key k →
    is_Some (IniParserX.arrays x !! array_path sec k);
  parsed_elements :
    ∀ p l e, IniParserX.arrays x !! p = Some l → e ∈ l →
    ∃ sec k, array_key k ∧ p = array_path sec k
           ∧ is_Some (entry (IniParserX.builder x) sec k) ∧ value_ok k e;
  parsed_last :
    ∀ p l, IniParserX.arrays x !! p = Some l →
    ∃ sec k v, array_key k ∧ p = array_path sec k
             ∧ entry (IniParserX.builder x) sec k = Some v ∧ last l = Some v
}.

(** The file content made of the given lines. *)
Definition text_of_lines (ls : list str) : str :=
  concat (map (λ l, l ++ [newline]) ls).

(** [doc] lists the sections of [b] in some order, each with its entries
    in some order: an iteration of the two levels of hash maps. *)
Definition enumerates (doc : list (str * list (str * str))) (b : Builder) : Prop :=
  doc.*1 ≡ₚ (map_to_list b).*1
  ∧ Forall (λ skv, ∃ m, b !! skv.1 = Some m ∧ skv.2 ≡ₚ map_to_list m) doc.

(** The values written for an entry: the elements of the array, or the
    value of the entry. *)
Definition elements_of (x : IniParserX.parser) (sec : str) (kv : str * str) : list str :=
  match find_sub kv.1 (lit "[]") with
  | Some _ => default [] (IniParserX.arrays x !! array_path sec kv.1)
  | None => [kv.2]
  end.

(** The lines that [save_ini_file] writes for an entry, for a section and
    for a document. *)
Definition entry_lines (x : IniParserX.parser) (sec : str) (kv : str * str) : list str :=
  map (λ e, kv.1 ++ lit " = " ++ e) (elements_of x sec kv).

Definition section_lines (x : IniParserX.parser) (skv : str * list (str * str)) : list str :=
  (lit "[" ++ skv.1 ++ lit "]") :: concat (map (entry_lines x skv.1) skv.2) ++ [[]].

Definition document_lines (x : IniParserX.parser) (doc : list (str * list (str * str))) : list str :=
  concat (map (section_lines x) doc).

(** The two tables that the round trip is about. *)
Definition tables (x : IniParserX.parser) : Builder * gmap str (list str) :=
  (IniParserX.builder x, IniParserX.arrays x).

(** The effect on the tables of parsing the lines of one entry. *)
Definition replay_entry (x : IniParserX.parser)
    (T : Builder * gmap str (list str)) (skv : str * (str * str))
    : Builder * gmap str (list str) :=
  let '(sec, (k, v)) := skv in
  (put sec k v T.1,
   match find_sub k (lit "[]") with
   | Some _ =>
       <[array_path sec k :=
           default [] (T.2 !! array_path sec k)
           ++ default [] (IniParserX.arrays x !! array_path sec k)]> T.2
   | None => T.2
   end).

(** The entries of a listing, each with its section. *)
Definition entries_of (doc : list (str * list (str * str))) : list (str * (str * str)) :=
  doc ≫= (λ skv, (λ kv, (skv.1, kv)) <$> skv.2).

(** A section name that a header line gives back. *)
Definition section_good (sec : str) : Prop :=
  section_ok sec ∧ ("]"%char ∉ sec) ∧ head sec ≠ Some "."%char.

(** An entry whose lines give it back. *)
Definition entry_good (x : IniParserX.parser) (sec : str) (kv : str * str) : Prop :=
  key_ok kv.1 ∧ head kv.1 ≠ Some ";"%char
  ∧ Forall (value_ok kv.1) (elements_of x sec kv)
  ∧ last (elements_of x sec kv) = Some kv.2
  ∧ (array_key kv.1 → is_Some (IniParserX.arrays x !! array_path sec kv.1)).

(** A listing whose lines give the document back. *)
Definition doc_good (x : IniParserX.parser) (doc : list (str * list (str * str))) : Prop :=
  Forall (λ skv, section_good skv.1 ∧ Forall (entry_good x skv.1) skv.2) doc.

(** The conditions of the round trip on an object. *)
Definition round_trip_ready (x : IniParserX.parser) : Prop :=
  (∀ sec, is_Some (IniParserX.builder x !! sec) →
     ("]"%char ∉ sec) ∧ head sec ≠ Some "."%char)
  ∧ (∀ sec k, is_Some (entry (IniParserX.builder x) sec k) → head k ≠ Some ";"%char)
  ∧ (∀ sec k sec' k',
       is_Some (entry (IniParserX.builder x) sec k) →
       is_Some (entry (IniParserX.builder x) sec' k') →
       array_key k → array_key k' →
       array_path sec k = array_path sec' k' → sec = sec' ∧ k = k').

(** The same conditions, as a computation on the entries in the order of
    [enumerate]. *)
Definition entry_path (e : str * (str * str)) : option str :=
  if decide (array_key e.2.1) then Some (array_path e.1 e.2.1) else None.

Definition round_trip_check (x : IniParserX.parser) : bool :=
  bool_decide (Forall (λ sec, ("]"%char ∉ sec) ∧ head sec ≠ Some "."%char)
                 (all_sections (IniParserX.builder x)))
  && bool_decide (Forall (λ e : str * (str * str), head e.2.1 ≠ Some ";"%char)
                    (entries_of (enumerate (IniParserX.builder x))))
  && bool_decide (NoDup (omap entry_path (entries_of (enumerate (IniParserX.builder x))))).
(** ** Notions for the further properties *)

(** The name that a header line gives: the text between the first [[]
    and the first []] after it, and all the text after the first [[] when
    the line has no []] or has one before the [[]. *)
Definition header_text (buffer : str) : str :=
  if bool_decide ("]"%char ∈ text_before "[" buffer) then text_after "[" buffer
  else text_before "]" (text_after "[" buffer).

(** A line that [parse_inline] takes: a comment, a line without [=], or
    an assignment whose two parts hold more than spaces. *)
Definition line_ok (buffer : str) : Prop :=
  head buffer = Some ";"%char
  ∨ ("="%char ∉ buffer)
  ∨ (¬ blank (key_part buffer) ∧ ¬ blank (value_part buffer)).

(** One object has at least what another has: the entries, and the lists
    of the two tables up to what was appended. *)
Definition extends (x x' : IniParserX.parser) : Prop :=
  (∀ S K, is_Some (entry (IniParserX.builder x) S K) →
          is_Some (entry (IniParserX.builder x') S K))
  ∧ (∀ p l, IniParserX.arrays x !! p = Some l →
            ∃ more, IniParserX.arrays x' !! p = Some (l ++ more))
  ∧ (∀ p l, IniParserX.connection x !! p = Some l →
            ∃ more, IniParserX.connection x' !! p = Some (l ++ more)).

(** A method of the base class and its override end alike: both return
    the same result or both throw the same exception, with the same static
    section and the same document. *)
Definition same_outcome {A} (o : outcome (str * Builder) A)
    (ox : outcome (str * IniParserX.parser) A) : Prop :=
  match o, ox with
  | Returns r w, Returns r' wx => r = r' ∧ w.1 = wx.1 ∧ w.2 = IniParserX.builder wx.2
  | Throws e w, Throws e' wx => e = e' ∧ w.1 = wx.1 ∧ w.2 = IniParserX.builder wx.2
  | _, _ => False
  end.

(** The header lines of a file name no section with a leading dot. *)
Definition no_relative_header (lines : list str) : Prop :=
  Forall (λ l, opens_section l = true → head (header_text l) ≠ Some "."%char) lines.

(** The lines that the base class writes for a section and for a
    document. *)
Definition base_section_lines (skv : str * list (str * str)) : list str :=
  (lit "[" ++ skv.1 ++ lit "]") :: map (λ kv, kv.1 ++ lit " = " ++ kv.2) skv.2 ++ [[]].

Definition base_document_lines (doc : list (str * list (str * str))) : list str :=
  concat (map base_section_lines doc).

(** A document that the base class can write and read back: no empty
    section, section names that a header line gives back, keys and values
    as parsing stores them, and no key that would start a comment. *)
Definition writable (b : Builder) : Prop :=
  map_Forall (λ S m,
    m ≠ ∅ ∧ section_ok S ∧ ("]"%char ∉ S)
    ∧ map_Forall (λ K V, key_ok K ∧ head K ≠ Some ";"%char ∧ value_ok K V) m) b.

(** Every key of the listing that has the array suffix has its array in
    the table. *)
Definition registered (x : IniParserX.parser) (doc : list (str * list (str * str))) : Prop :=
  Forall (λ skv, Forall (λ kv : str * str,
                           array_key kv.1 →
                           is_Some (IniParserX.arrays x !! array_path skv.1 kv.1))
                        skv.2) doc.

(** * Properties *)

(** Closes a decidable goal about concrete strings or maps by evaluation. *)
Ltac by_evaluation := apply (bool_decide_unpack _); vm_compute; exact I.

(** Closes the goal that a character is not in a string built with [++] and
    [::], from the hypotheses about its parts. *)
Ltac chars :=
  repeat (rewrite not_elem_of_app || rewrite not_elem_of_cons);
  repeat split; first [done | apply not_elem_of_nil].

(** ** Searching in strings *)

Lemma find_chr_None s c : find_chr s c = None ↔ c ∉ s.
Proof.
  unfold find_chr. rewrite fmap_None, list_find_None, Forall_forall.
  split.
  - intros H Hin. by apply (H c).
  - intros H x Hx ->. done.
Qed.

Lemma find_chr_Some s c i :
  find_chr s c = Some i ↔ s !! i = Some c ∧ c ∉ take i s.
Proof.
  unfold find_chr. rewrite fmap_Some. split.
  - intros [[j x] [Hf ->]]. apply list_find_Some in Hf as (Hl & -> & Hmin).
    split; [done |]. intros Hin. apply list_elem_of_lookup in Hin as [k Hk].
    apply lookup_take_Some in Hk as [Hk Hlt]. by apply (Hmin k c).
  - intros [Hl Hn]. exists (i, c). split; [| done].
    apply list_find_Some. split_and!; [done | done |].
    intros j y Hj Hlt ->. apply Hn. apply list_elem_of_lookup. exists j.
    by rewrite lookup_take_lt.
Qed.

Lemma find_chr_app s1 s2 c :
  c ∉ s1 → find_chr (s1 ++ c :: s2) c = Some (length s1).
Proof.
  intros H. apply find_chr_Some. split.
  - by rewrite list_lookup_middle.
  - by rewrite take_app_length.
Qed.

Lemma substr_in_0 s x : substr_in s 0 (N.of_nat x) = take x s.
Proof.
  unfold substr_in. rewrite drop_0, Nat.sub_0_r.
  rewrite <- Nat2N.inj_min, Nat2N.id.
  destruct (Nat.min_spec x (length s)) as [[? ->] | [? ->]]; [done |].
  by rewrite firstn_all, take_ge.
Qed.

(** ** Qualified keys *)

Lemma include_plain b S :
  "/"%char ∉ S → include b S = bool_decide (is_Some (b !! S)).
Proof. intros H. unfold include. apply find_chr_None in H. by rewrite H. Qed.

Lemma include_qualified b S K :
  "/"%char ∉ S →
  include b (S ++ lit "/" ++ K)
  = match b !! S with
    | None => false
    | Some m => bool_decide (is_Some (m !! K))
    end.
Proof.
  intros H. unfold include. change (lit "/" ++ K) with ("/"%char :: K).
  rewrite (find_chr_app _ _ _ H), substr_in_0, take_app_length.
  unfold substr_from. rewrite Nat.add_1_r.
  change ("/"%char :: K) with (["/"%char] ++ K).
  rewrite (app_assoc S), drop_app_length'; [done |].
  rewrite length_app. simpl. lia.
Qed.

Lemma section_of_put S K V b : section_of (put S K V b) S = <[K := V]> (section_of b S).
Proof. unfold section_of, put. by rewrite lookup_insert_eq. Qed.

Lemma put_lookup S K V b : put S K V b !! S = Some (<[K := V]> (section_of b S)).
Proof. unfold put. by rewrite lookup_insert_eq. Qed.

(** ** Occurrences of a pattern *)

Lemma starts_with_spec pat s : starts_with pat s = true ↔ ∃ b, s = pat ++ b.
Proof.
  revert s. induction pat as [| p pat IH]; intros s; simpl.
  - split; [by exists s | done].
  - destruct s as [| a s].
    + split; [done | by intros [b Hb]].
    + rewrite andb_true_iff, bool_decide_eq_true, IH. split.
      * intros [-> [b ->]]. by exists b.
      * intros [b Hb]. injection Hb as -> ->. eauto.
Qed.

Lemma find_sub_Some s pat i :
  find_sub s pat = Some i →
  ∃ b, s = take i s ++ pat ++ b ∧ i ≤ length s
       ∧ ∀ j, j < i → starts_with pat (drop j s) = false.
Proof.
  revert i. induction s as [| a s IH]; intros i; simpl.
  - destruct (starts_with pat []) eqn:E; [| done].
    intros [= <-]. apply starts_with_spec in E as [b Hb].
    exists b. split_and!; [done | done | lia].
  - destruct (starts_with pat (a :: s)) eqn:E.
    + intros [= <-]. apply starts_with_spec in E as [b Hb].
      exists b. split_and!; [done | lia | lia].
    + destruct (find_sub s pat) as [k |] eqn:F; [| done].
      intros [= <-]. destruct (IH k eq_refl) as (b & Hb & Hle & Hmin).
      exists b. simpl. split_and!.
      * by rewrite <- Hb.
      * lia.
      * intros [| j] Hj; [done |]. simpl. apply Hmin. lia.
Qed.

Lemma find_sub_None s pat : find_sub s pat = None ↔ ¬ has_sub pat s.
Proof.
  induction s as [| a s IH]; simpl.
  - destruct (starts_with pat []) eqn:E.
    + split; [done |]. intros H. exfalso. apply H.
      apply starts_with_spec in E as [b Hb]. by exists [], b.
    + split; [| done]. intros _ (x & y & H).
      destruct x; [| done]. simpl in H.
      assert (starts_with pat [] = true) by (apply starts_with_spec; eauto).
      congruence.
  - destruct (starts_with pat (a :: s)) eqn:E.
    + split; [done |]. intros H. exfalso. apply H.
      apply starts_with_spec in E as [b Hb]. by exists [], b.
    + rewrite fmap_None, IH. split.
      * intros H (x & y & Hxy). destruct x as [| c x]; simpl in Hxy.
        -- assert (starts_with pat (a :: s) = true) by (apply starts_with_spec; eauto).
           congruence.
        -- injection Hxy as -> ->. apply H. by exists x, y.
      * intros H (x & y & ->). apply H. by exists (a :: x), y.
Qed.

Lemma find_sub_is_Some s pat : is_Some (find_sub s pat) ↔ has_sub pat s.
Proof.
  rewrite <- not_eq_None_Some. rewrite find_sub_None.
  split; [| tauto]. intros H.
  destruct (find_sub s pat) as [i |] eqn:E.
  - apply find_sub_Some in E as (b & Hb & _). by exists (take i s), b.
  - apply find_sub_None in E. tauto.
Qed.

(** ** [add_key] *)

(** C2, for section names without [/].  [add_key] fails with [CanNotArray]
    when the key contains [[]], otherwise with [KeyAlreadyExist] when the
    qualified key [S/K] exists, and otherwise inserts the entry, creating the
    section when it is absent; after the insertion [include] finds [S/K]
    and [value(S, K)] returns [V]. *)
Theorem add_key_contract_holds (S K V : str) (b : Builder) :
  "/"%char ∉ S →
  add_key_contract S K V b (add_key S K V b)
  ∧ (let b' := <[S := <[K := V]> (default ∅ (b !! S))]> b in
     include b' (S ++ lit "/" ++ K) = true ∧ value2 S K b' = Returns V b').
Proof.
  intros HS. split.
  - unfold add_key. destruct (find_sub K (lit "[]")) as [i |] eqn:F.
    + apply contract_array, find_sub_is_Some. by rewrite F.
    + apply find_sub_None in F.
      rewrite include_plain, (include_qualified _ _ _ HS) by done.
      destruct (b !! S) as [m |] eqn:E; simpl.
      * destruct (bool_decide (is_Some (m !! K))) eqn:D; simpl.
        -- apply contract_exists; [done |].
           by rewrite (include_qualified _ _ _ HS), E.
        -- unfold put, section_of. rewrite E. simpl.
           pose proof (contract_insert S K V b F) as C. rewrite E in C.
           apply C. by rewrite (include_qualified _ _ _ HS), E.
      * unfold put, section_of. rewrite E. simpl.
        pose proof (contract_insert S K V b F) as C. rewrite E in C.
        apply C. by rewrite (include_qualified _ _ _ HS), E.
  - simpl. set (b' := <[S := _]> b).
    assert (Hb' : b' !! S = Some (<[K := V]> (default ∅ (b !! S))))
      by apply lookup_insert_eq.
    assert (Hi : include b' (S ++ lit "/" ++ K) = true).
    { rewrite (include_qualified _ _ _ HS), Hb'.
      apply bool_decide_eq_true_2. rewrite lookup_insert_eq. eauto. }
    split; [done |].
    unfold value2. rewrite Hi, include_plain, Hb' by done.
    rewrite bool_decide_eq_true_2 by eauto. simpl.
    unfold subscript, section_of. rewrite Hb'. simpl.
    rewrite lookup_insert_eq. by rewrite insert_id.
Qed.

Lemma add_key_contract_holds_witness :
  let b : Builder := ∅ in
  add_key_contract (lit "Config") (lit "Theme") (lit "Dark") b
    (add_key (lit "Config") (lit "Theme") (lit "Dark") b)
  ∧ (let b' := <[lit "Config" := <[lit "Theme" := lit "Dark"]> (default ∅ (b !! lit "Config"))]> b in
     include b' (lit "Config" ++ lit "/" ++ lit "Theme") = true
     ∧ value2 (lit "Config") (lit "Theme") b' = Returns (lit "Dark") b').
Proof. apply add_key_contract_holds. by_evaluation. Defined.

(** C2 fails for a section name with a [/]: the qualified key is split at
    its first [/], so the entry that [add_key] has just inserted under
    section [a/b] is looked for in a section [a]. *)
Lemma add_key_slash_in_section :
  let b' := {[ lit "a/b" := {[ lit "k" := lit "v" ]} ]} in
  add_key (lit "a/b") (lit "k") (lit "v") ∅ = Returns tt b'
  ∧ include b' (lit "a/b/k") = false
  ∧ value2 (lit "a/b") (lit "k") b' = Throws KeyNotFound b'.
Proof. vm_compute. done. Qed.

(** ** [operator[]] *)

Lemma find_chr_qualified S K :
  "/"%char ∉ S → find_chr (S ++ lit "/" ++ K) "/" = Some (length S).
Proof. intros H. change (lit "/" ++ K) with ("/"%char :: K). by apply find_chr_app. Qed.

Lemma qualified_section S K :
  substr_in (S ++ lit "/" ++ K) 0 (N.of_nat (length S)) = S.
Proof. by rewrite substr_in_0, take_app_length. Qed.

Lemma qualified_key S K : substr_from (S ++ lit "/" ++ K) (length S + 1) = K.
Proof.
  unfold substr_from. change (lit "/" ++ K) with (["/"%char] ++ K).
  rewrite (app_assoc S), drop_app_length'; [done |].
  rewrite length_app. simpl. lia.
Qed.

Lemma subscript_present S K b m v :
  b !! S = Some m → m !! K = Some v → subscript S K b = (b, v).
Proof.
  intros Hb Hm. unfold subscript, section_of. rewrite Hb. simpl. rewrite Hm.
  by rewrite insert_id.
Qed.

Lemma subscript_absent S K b m :
  b !! S = Some m → m !! K = None →
  subscript S K b = (<[S := <[K := []]> m]> b, []).
Proof.
  intros Hb Hm. unfold subscript, put, section_of. rewrite Hb. simpl. by rewrite Hm.
Qed.

Lemma subscript_index_result S K b m :
  b !! S = Some m → subscript S K b = index_result S K b m.
Proof.
  intros Hb. unfold index_result. destruct (m !! K) eqn:E.
  - by apply (subscript_present _ _ _ m).
  - by apply subscript_absent.
Qed.

(** C10, with the extended class's array check.  [operator[]] throws
    [KeyNotFound] for an argument without [/] and for a section part that
    is absent.  When the section is present, the base class returns the
    value of the key, after inserting the key with an empty value when it
    is absent; the extended class first throws [KeyIsArray] when the
    argument names a registered array. *)
Theorem index_contract (S K : str) (b : Builder) (x : IniParserX.parser) :
  "/"%char ∉ S →
  IniParser.index S b = Throws KeyNotFound b
  ∧ IniParserX.index S x = Throws KeyNotFound x
  ∧ IniParser.index (S ++ lit "/" ++ K) b
    = match b !! S with
      | None => Throws KeyNotFound b
      | Some m => Returns (index_result S K b m).2 (index_result S K b m).1
      end
  ∧ IniParserX.index (S ++ lit "/" ++ K) x
    = match IniParserX.builder x !! S with
      | None => Throws KeyNotFound x
      | Some m =>
          if IniParserX.is_array (S ++ lit "/" ++ K) x then Throws KeyIsArray x
          else Returns (index_result S K (IniParserX.builder x) m).2
                 (IniParserX.set_builder
                    (λ _, (index_result S K (IniParserX.builder x) m).1) x)
      end.
Proof.
  intros HS. split_and!.
  - unfold index. apply find_chr_None in HS. by rewrite HS.
  - unfold IniParserX.index. apply find_chr_None in HS. by rewrite HS.
  - unfold index. rewrite (find_chr_qualified _ _ HS), qualified_section, qualified_key.
    rewrite (include_plain _ _ HS).
    destruct (b !! S) as [m |] eqn:E; simpl; [| done].
    rewrite (subscript_index_result _ _ _ _ E). by destruct (index_result S K b m).
  - unfold IniParserX.index.
    rewrite (find_chr_qualified _ _ HS), qualified_section, qualified_key.
    rewrite (include_plain _ _ HS).
    destruct (IniParserX.builder x !! S) as [m |] eqn:E; simpl; [| done].
    destruct (IniParserX.is_array _ x); [done |].
    rewrite (subscript_index_result _ _ _ _ E).
    by destruct (index_result S K (IniParserX.builder x) m).
Qed.

Lemma index_contract_witness :
  let b : Builder := {[ lit "Config" := {[ lit "Theme" := lit "Dark" ]} ]} in
  IniParser.index (lit "Config/save_passwd") b
  = Returns [] (<[lit "Config" := {[ lit "Theme" := lit "Dark";
                                     lit "save_passwd" := [] ]}]> b).
Proof.
  intros b.
  assert (HS : "/"%char ∉ lit "Config") by by_evaluation.
  destruct (index_contract (lit "Config") (lit "save_passwd") b IniParserX.empty HS)
    as (_ & _ & H & _).
  etrans; [exact H |]. vm_compute. reflexivity.
Defined.

(** C10 fails in the extended class: the section exists, the key is
    absent from it, and [operator[]] throws [KeyIsArray] instead of
    inserting the key. *)
Lemma index_of_array_name_throws :
  let x := state_of (IniParserX.add_array (lit "s") (lit "items") [lit "a"] IniParserX.empty) in
  IniParserX.builder x !! lit "s" = Some {[ lit "items[]" := lit "a" ]}
  ∧ IniParserX.index (lit "s/items") x = Throws KeyIsArray x.
Proof. vm_compute. done. Qed.

(** ** [strip] *)

Lemma drop_spaces_split s :
  ∃ n, s = replicate n space ++ drop_spaces s.
Proof.
  induction s as [| c s [n IH]]; simpl.
  - by exists 0.
  - destruct (decide (c = space)) as [-> |].
    + exists (S n). simpl. by rewrite <- IH.
    + by exists 0.
Qed.

Lemma drop_spaces_head s : head (drop_spaces s) ≠ Some space.
Proof.
  induction s as [| c s IH]; simpl; [done |].
  destruct (decide (c = space)); [done |]. simpl. congruence.
Qed.

Lemma drop_spaces_nil s : drop_spaces s = [] ↔ blank s.
Proof.
  unfold blank. induction s as [| c s IH]; simpl.
  - split; [constructor | done].
  - destruct (decide (c = space)) as [-> |].
    + rewrite IH. split; [by constructor | by inversion 1].
    + split; [done | inversion 1; done].
Qed.

Lemma blank_reverse s : blank (reverse s) ↔ blank s.
Proof. unfold blank. by rewrite Forall_reverse. Qed.

Lemma blank_app s t : blank (s ++ t) ↔ blank s ∧ blank t.
Proof. apply Forall_app. Qed.

Lemma blank_replicate n : blank (replicate n space).
Proof. unfold blank. induction n; simpl; by constructor. Qed.

(** A string that is not blank is its trimmed text between two runs of
    spaces, and the trimmed text starts and ends with another character. *)
Lemma trim_split s :
  ¬ blank s →
  ∃ a b, s = replicate a space ++ trim s ++ replicate b space
         ∧ head (trim s) ≠ Some space ∧ last (trim s) ≠ Some space
         ∧ trim s ≠ [].
Proof.
  intros Hnb. destruct (drop_spaces_split s) as [a Ha].
  destruct (drop_spaces_split (reverse (drop_spaces s))) as [b Hb].
  exists a, b. unfold trim.
  assert (Hmid : drop_spaces s = reverse (drop_spaces (reverse (drop_spaces s)))
                               ++ replicate b space).
  { set (r := drop_spaces (reverse (drop_spaces s))) in *.
    apply (f_equal reverse) in Hb.
    by rewrite reverse_involutive, reverse_app, reverse_replicate in Hb. }
  assert (Hne : drop_spaces (reverse (drop_spaces s)) ≠ []).
  { intros E. apply (proj1 (drop_spaces_nil _)) in E.
    apply (proj1 (blank_reverse _)) in E.
    apply Hnb. rewrite Ha. apply blank_app. split; [apply blank_replicate | done]. }
  split_and!.
  - rewrite Ha at 1. by rewrite <- Hmid.
  - pose proof (drop_spaces_head s) as Hh. rewrite Hmid in Hh.
    destruct (reverse (drop_spaces (reverse (drop_spaces s)))) eqn:E; [| done].
    apply (f_equal reverse) in E. rewrite reverse_involutive in E. done.
  - rewrite last_reverse. apply drop_spaces_head.
  - intros E. apply (f_equal reverse) in E. rewrite reverse_involutive in E. done.
Qed.

Lemma sz_sub_small a b : (b ≤ a)%N → (a < size_max)%N → sz_sub a b = (a - b)%N.
Proof.
  intros Hle Hlt. unfold sz_sub.
  rewrite (N.mod_small b) by lia.
  replace (a + (size_max - b))%N with (a - b + 1 * size_max)%N by lia.
  rewrite N.Div0.mod_add. apply N.mod_small. lia.
Qed.

Lemma sz_add_small a b : (a + b < size_max)%N → sz_add a b = (a + b)%N.
Proof. intros H. unfold sz_add. by apply N.mod_small. Qed.

Lemma find_first_not_of_spaces n c rest :
  c ≠ space → find_first_not_of (replicate n space ++ c :: rest) space = Some n.
Proof.
  intros Hc. unfold find_first_not_of.
  rewrite list_find_app_r.
  - simpl. destruct (decide (c ≠ space)); [| done]. simpl.
    by rewrite length_replicate.
  - apply list_find_None, Forall_forall. intros x Hx.
    apply elem_of_replicate in Hx as [-> _]. tauto.
Qed.

Lemma find_first_not_of_blank s : blank s → find_first_not_of s space = None.
Proof.
  intros H. unfold find_first_not_of. apply fmap_None, list_find_None.
  eapply Forall_impl; [exact H |]. simpl. tauto.
Qed.

Lemma find_last_not_of_blank s : blank s → find_last_not_of s space = None.
Proof.
  intros H. unfold find_last_not_of. apply fmap_None, list_find_None.
  apply blank_reverse in H. eapply Forall_impl; [exact H |]. simpl. tauto.
Qed.

Lemma strip_blank s :
  blank s → (N.of_nat (length s) < npos)%N → strip s = inl std_out_of_range.
Proof.
  intros Hb Hlen. unfold strip.
  rewrite (find_first_not_of_blank _ Hb), (find_last_not_of_blank _ Hb). simpl.
  unfold substr. by rewrite (proj2 (N.ltb_lt _ _) Hlen).
Qed.

Lemma strip_trim s :
  ¬ blank s → (N.of_nat (length s) < size_max)%N → strip s = inr (trim s).
Proof.
  intros Hnb Hlen.
  destruct (trim_split s Hnb) as (a & b & Hs & Hh & Hl & Hne).
  set (mid := trim s) in *.
  destruct mid as [| c mid'] eqn:Emid; [done |].
  assert (Hc : c ≠ space) by (simpl in Hh; congruence).
  assert (Hfirst : find_first_not_of s space = Some a).
  { rewrite Hs. simpl. by apply find_first_not_of_spaces. }
  assert (Hlast : find_last_not_of s space = Some (length s - 1 - b)).
  { unfold find_last_not_of. rewrite Hs at 1.
    rewrite !reverse_app, reverse_replicate, <- app_assoc.
    destruct (reverse (c :: mid')) as [| d rmid] eqn:Er.
    { apply (f_equal reverse) in Er. by rewrite reverse_involutive in Er. }
    assert (Hd : d ≠ space).
    { intros ->. apply Hl. rewrite <- (reverse_involutive (c :: mid')), Er.
      by rewrite last_reverse. }
    rewrite list_find_app_r.
    - simpl. destruct (decide (d ≠ space)); [| done]. simpl.
      by rewrite length_replicate.
    - apply list_find_None, Forall_forall. intros x Hx.
      apply elem_of_replicate in Hx as [-> _]. tauto. }
  unfold strip. rewrite Hfirst, Hlast. simpl.
  assert (Hlen' : length s = a + S (length mid') + b).
  { rewrite Hs at 1. rewrite !length_app, !length_replicate. simpl. lia. }
  unfold size_max in *.
  rewrite sz_sub_small by (unfold size_max; lia).
  rewrite sz_add_small by (unfold size_max; lia).
  unfold substr.
  rewrite (proj2 (N.ltb_ge _ _)) by lia.
  f_equal. rewrite Nat2N.id.
  replace (N.to_nat _) with (S (length mid')) by lia.
  rewrite Hs at 1. rewrite drop_app_length'; [| by rewrite length_replicate].
  by rewrite (take_app_length' (c :: mid')).
Qed.

(** ** The two parts of an assignment line *)

Lemma find_chr_cons a s c :
  find_chr (a :: s) c = if decide (a = c) then Some 0 else S <$> find_chr s c.
Proof.
  unfold find_chr. simpl. destruct (decide (a = c)); [done |].
  by destruct (list_find _ s) as [[? ?] |].
Qed.

Lemma find_chr_before s c p : find_chr s c = Some p → text_before c s = take p s.
Proof.
  revert p. induction s as [| a s IH]; intros p; [done |].
  rewrite find_chr_cons. simpl. destruct (decide (a = c)).
  - by intros [= <-].
  - destruct (find_chr s c) as [k |]; [| done]. intros [= <-]. simpl.
    by rewrite (IH k).
Qed.

Lemma find_chr_after s c p : find_chr s c = Some p → text_after c s = drop (p + 1) s.
Proof.
  revert p. induction s as [| a s IH]; intros p; [done |].
  rewrite find_chr_cons. simpl. destruct (decide (a = c)).
  - intros [= <-]. simpl. by rewrite drop_0.
  - destruct (find_chr s c) as [k |]; [| done]. intros [= <-]. simpl.
    by rewrite (IH k).
Qed.

Lemma before_no_occurrence s c : c ∉ s → text_before c s = s.
Proof.
  induction s as [| a s IH]; [done |]. intros H. simpl.
  apply not_elem_of_cons in H as [? ?].
  destruct (decide (a = c)); [congruence |]. by rewrite IH.
Qed.

Lemma find_chr_lt s c p : find_chr s c = Some p → p < length s.
Proof. intros H. apply find_chr_Some in H as [H _]. by apply lookup_lt_Some in H. Qed.

Lemma find_chr_drop s c q n :
  find_chr s c = Some q → n ≤ q → find_chr (drop n s) c = Some (q - n).
Proof.
  intros H Hn. apply find_chr_Some in H as [Hl Hnot]. apply find_chr_Some. split.
  - rewrite lookup_drop. by replace (n + (q - n)) with q by lia.
  - intros Hin. apply Hnot. apply list_elem_of_lookup in Hin as [k Hk].
    apply lookup_take_Some in Hk as [Hk Hlt]. rewrite lookup_drop in Hk.
    apply list_elem_of_lookup. exists (n + k). rewrite lookup_take_lt by lia. done.
Qed.

Lemma sz_sub_wrap a b :
  (a < b)%N → (b < size_max)%N → sz_sub a b = (size_max - (b - a))%N.
Proof.
  intros Hlt Hb. unfold sz_sub. rewrite (N.mod_small b) by lia.
  replace (a + (size_max - b))%N with (size_max - (b - a))%N by lia.
  apply N.mod_small. unfold size_max in *. lia.
Qed.

Lemma raw_value_spec buffer p :
  find_chr buffer "=" = Some p →
  (N.of_nat (length buffer) < size_max)%N →
  raw_value buffer p (find_chr buffer ";") = value_part buffer.
Proof.
  intros Hp Hlen. pose proof (find_chr_lt _ _ _ Hp) as Hplt.
  unfold value_part, key_part, raw_value, substr_from.
  rewrite (find_chr_before _ _ _ Hp), (find_chr_after _ _ _ Hp).
  destruct (find_chr buffer ";") as [q |] eqn:Hq.
  - pose proof (find_chr_lt _ _ _ Hq) as Hqlt.
    assert (q ≠ p).
    { intros ->. apply find_chr_Some in Hp as [Hp _].
      apply find_chr_Some in Hq as [Hq _]. congruence. }
    destruct (decide (p < q)) as [Hpq | Hpq].
    + rewrite bool_decide_eq_false_2.
      2:{ intros Hin. apply find_chr_Some in Hq as [_ Hq]. apply Hq.
          apply list_elem_of_lookup in Hin as [k Hk].
          apply lookup_take_Some in Hk as [Hk Hlt].
          apply list_elem_of_lookup. exists k. by rewrite lookup_take_lt by lia. }
      rewrite (find_chr_before _ _ (q - (p + 1))) by (apply find_chr_drop; [done | lia]).
      unfold substr_in. f_equal.
      rewrite (sz_sub_small (N.of_nat q) (N.of_nat p)) by (unfold size_max in *; lia).
      rewrite sz_sub_small by (unfold size_max in *; lia). lia.
    + rewrite bool_decide_eq_true_2.
      2:{ apply find_chr_Some in Hq as [Hq _]. apply list_elem_of_lookup.
          exists q. by rewrite lookup_take_lt by lia. }
      unfold substr_in.
      rewrite (sz_sub_wrap (N.of_nat q) (N.of_nat p)) by (unfold size_max in *; lia).
      rewrite sz_sub_small by (unfold size_max in *; lia).
      rewrite take_ge; [done |]. rewrite length_drop. unfold size_max in *. lia.
  - rewrite bool_decide_eq_false_2.
    2:{ intros Hin. apply find_chr_None in Hq. apply Hq.
        by apply (subseteq_take p). }
    rewrite before_no_occurrence; [done |].
    intros Hin. apply find_chr_None in Hq. apply Hq. by apply (subseteq_drop (p + 1)).
Qed.

Lemma find_chr_0 s c : find_chr s c = Some 0 ↔ head s = Some c.
Proof.
  destruct s as [| a s]; [done |]. rewrite find_chr_cons. simpl.
  destruct (decide (a = c)) as [-> | Hne]; [done |].
  split; [| congruence]. by destruct (find_chr s c).
Qed.

Lemma find_chr_elem_of s c : c ∈ s → ∃ p, find_chr s c = Some p.
Proof.
  intros H. destruct (find_chr s c) as [p |] eqn:E; [eauto |].
  by apply find_chr_None in E.
Qed.

Lemma key_part_length buffer : length (key_part buffer) ≤ length buffer.
Proof.
  unfold key_part. induction buffer as [| a s IH]; simpl; [done |].
  destruct (decide (a = "="%char)); simpl; lia.
Qed.

Lemma after_length c s : length (text_after c s) ≤ length s.
Proof.
  induction s as [| a s IH]; simpl; [done |]. destruct (decide (a = c)); lia.
Qed.

Lemma before_length c s : length (text_before c s) ≤ length s.
Proof.
  induction s as [| a s IH]; simpl; [done |]. destruct (decide (a = c)); simpl; lia.
Qed.

Lemma value_part_length buffer : length (value_part buffer) ≤ length buffer.
Proof.
  unfold value_part. pose proof (after_length "=" buffer).
  pose proof (before_length ";" (text_after "=" buffer)).
  destruct (bool_decide _); lia.
Qed.

Lemma parse_inline_assignment buffer sec b :
  (N.of_nat (length buffer) < size_max)%N →
  head buffer ≠ Some ";"%char → "="%char ∈ buffer →
  parse_inline buffer (sec, b)
  = with_stripped buffer (sec, b) (λ key value, (sec, put sec key value b)).
Proof.
  intros Hlen Hc He. destruct (find_chr_elem_of _ _ He) as [p Hp].
  unfold parse_inline, with_stripped.
  destruct (decide (find_chr buffer ";" = Some 0)) as [E |].
  { by apply find_chr_0 in E. }
  rewrite Hp, substr_in_0, raw_value_spec by done.
  by rewrite <- (find_chr_before _ _ _ Hp).
Qed.

Lemma parseX_inline_assignment buffer sec x :
  (N.of_nat (length buffer) < size_max)%N →
  head buffer ≠ Some ";"%char → "="%char ∈ buffer →
  IniParserX.parse_inline buffer (sec, x)
  = with_stripped buffer (sec, x) (λ key value, (sec, IniParserX.store sec key value x)).
Proof.
  intros Hlen Hc He. destruct (find_chr_elem_of _ _ He) as [p Hp].
  unfold IniParserX.parse_inline, with_stripped.
  destruct (decide (find_chr buffer ";" = Some 0)) as [E |].
  { by apply find_chr_0 in E. }
  rewrite Hp, substr_in_0, raw_value_spec by done.
  by rewrite <- (find_chr_before _ _ _ Hp).
Qed.

(** ** Lines that throw *)

Lemma strip_throws s e : strip s = inl e → e = std_out_of_range.
Proof. unfold strip, substr. destruct (_ <? _)%N; congruence. Qed.

Lemma parse_inline_throws buffer w e w' :
  parse_inline buffer w = Throws e w' → e = std_out_of_range ∧ w' = w.
Proof.
  unfold parse_inline. destruct w as [sec b].
  destruct (decide _); [done |].
  destruct (find_chr buffer "=").
  - destruct (strip _) eqn:E1.
    + intros [= <- <-]. apply strip_throws in E1. by subst.
    + destruct (strip (raw_value _ _ _)) eqn:E2; [| done].
      intros [= <- <-]. apply strip_throws in E2. by subst.
  - by destruct (find_chr buffer "[").
Qed.

Lemma parse_lines_throws lines w e w' :
  parse_lines lines w = Throws e w' → e = std_out_of_range.
Proof.
  revert w. induction lines as [| l lines IH]; intros w; simpl; [done |].
  destruct (parse_inline l w) eqn:E.
  - apply IH.
  - intros [= <- <-]. by apply parse_inline_throws in E as [-> _].
Qed.

Lemma with_stripped_blank {S} buffer (w : S) k :
  (N.of_nat (length buffer) < npos)%N →
  blank (key_part buffer) ∨ blank (value_part buffer) →
  with_stripped buffer w k = Throws std_out_of_range w.
Proof.
  intros Hlen Hb. unfold with_stripped.
  pose proof (key_part_length buffer). pose proof (value_part_length buffer).
  destruct (strip (key_part buffer)) as [e | key] eqn:Ek.
  { by apply strip_throws in Ek as ->. }
  destruct Hb as [Hb | Hb].
  { rewrite strip_blank in Ek; [done | done | lia]. }
  rewrite strip_blank; [done | done | lia].
Qed.





(** ** Lines that are stored *)




(** ** The static section *)

Lemma parse_inline_keeps_section buffer sec b :
  opens_section buffer = false → (state_of (parse_inline buffer (sec, b))).1 = sec.
Proof.
  intros Hno. unfold parse_inline.
  destruct (decide _) as [| Hc]; [done |].
  rewrite find_chr_0 in Hc.
  destruct (find_chr buffer "=") as [p |] eqn:Ep.
  - destruct (strip _); [done |]. by destruct (strip _).
  - destruct (find_chr buffer "[") as [st |] eqn:Est; [| done].
    exfalso. unfold opens_section in Hno.
    apply find_chr_None in Ep.
    apply find_chr_Some in Est as [Est _]. apply list_elem_of_lookup_2 in Est.
    repeat case_bool_decide; done.
Qed.

Lemma parse_lines_keeps_section lines sec b w :
  Forall (λ l, opens_section l = false) lines →
  parse_lines lines (sec, b) = Returns tt w → w.1 = sec.
Proof.
  intros Hall. revert b.
  induction Hall as [| l lines Hl Hall IH]; intros b; cbn [parse_lines].
  - by intros [= <-].
  - pose proof (parse_inline_keeps_section l sec b Hl) as Hs.
    destruct (parse_inline l (sec, b)) as [r [sec' b'] | e w']; [| done].
    simpl in Hs. subst sec'. apply IH.
Qed.

(** C6 fails: after a first load that ended in section [A], a second load
    into a fresh object stores a leading assignment under [A], not under
    the empty section name. *)
Lemma second_load_starts_in_old_section :
  let first := IniParser.load_ini_file
                 (Some (lit "[A]" ++ [newline] ++ lit "x = 1" ++ [newline])) ([], ∅) in
  let static_section := (state_of first).1 in
  IniParser.load_ini_file (Some (lit "k = v" ++ [newline])) (static_section, ∅)
  = Returns true (lit "A", {[ lit "A" := {[ lit "k" := lit "v" ]} ]}).
Proof. vm_compute. reflexivity. Qed.

(** ** Empty sections *)

Lemma no_empty_section_empty : no_empty_section ∅.
Proof. intros S m. by rewrite lookup_empty. Qed.

Lemma no_empty_section_put S K V b :
  no_empty_section b → no_empty_section (put S K V b).
Proof.
  intros H S' m. unfold put. rewrite lookup_insert.
  case_decide as E.
  - intros [= <-]. apply insert_non_empty.
  - apply H.
Qed.

Lemma no_empty_section_erase S K b :
  no_empty_section b → no_empty_section (erase_if_empty S (erase_key S K b)).
Proof.
  intros H S' m. unfold erase_if_empty, erase_key, section_of.
  rewrite lookup_insert_eq. simpl.
  destruct (decide (delete K (default ∅ (b !! S)) = ∅)) as [E | E].
  - rewrite delete_insert_eq. rewrite lookup_delete. case_decide; [done | apply H].
  - rewrite insert_insert_eq, lookup_insert. case_decide; [| apply H].
    by intros [= <-].
Qed.

Lemma all_sections_spec b S : S ∈ all_sections b ↔ is_Some (b !! S).
Proof.
  unfold all_sections. rewrite list_elem_of_fmap. split.
  - intros [[S' m] [-> H]]. apply elem_of_map_to_list in H. eauto.
  - intros [m H]. exists (S, m). split; [done |]. by apply elem_of_map_to_list.
Qed.

Lemma section_of_erase_key S K b :
  section_of (erase_key S K b) S = delete K (section_of b S).
Proof. unfold erase_key. unfold section_of at 1. by rewrite lookup_insert_eq. Qed.

Lemma erase_last_key S K b :
  (∀ K', K' ≠ K → section_of b S !! K' = None) →
  S ∉ all_sections (erase_if_empty S (erase_key S K b)).
Proof.
  intros Hlast. rewrite all_sections_spec.
  assert (E : delete K (section_of b S) = ∅).
  { apply map_eq. intros K'. rewrite lookup_empty, lookup_delete.
    case_decide; [done |]. by apply Hlast. }
  unfold erase_if_empty. rewrite section_of_erase_key, decide_True by done.
  rewrite lookup_delete_eq. by intros [? ?].
Qed.

Lemma base_after_no_empty c b : no_empty_section b → no_empty_section (base_after c b).
Proof.
  intros H. destruct c as [s k v | s k | sec buffer]; simpl.
  - unfold add_key. destruct (find_sub k (lit "[]")); [done |].
    destruct (negb (include b s)); [by apply no_empty_section_put |].
    destruct (negb (include b _)); [by apply no_empty_section_put | done].
  - unfold remove_key. destruct (include b _); [| done].
    by apply no_empty_section_erase.
  - unfold parse_inline. destruct (decide _); [done |].
    destruct (find_chr buffer "=").
    + destruct (strip _); [done |].
      destruct (strip _); [done |]. by apply no_empty_section_put.
    + by destruct (find_chr buffer "[").
Qed.

Lemma open_section_builder sec tmp x :
  IniParserX.builder (IniParserX.open_section sec tmp x).2 = IniParserX.builder x.
Proof.
  unfold IniParserX.open_section. destruct (decide _); [done |].
  by destruct (find_chr tmp ".").
Qed.

Lemma store_builder sec k v x :
  IniParserX.builder (IniParserX.store sec k v x) = put sec k v (IniParserX.builder x).
Proof. unfold IniParserX.store. by destruct (find_sub k (lit "[]")). Qed.

Lemma after_call_no_empty c x :
  no_empty_section (IniParserX.builder x) →
  no_empty_section (IniParserX.builder (after_call c x)).
Proof.
  intros H. destruct c as [s k v | s k | s k a | s k | sec buffer]; simpl.
  - unfold IniParserX.add_key. destruct (find_sub k (lit "[]")); [done |].
    destruct (negb (include _ s)); [by apply no_empty_section_put |].
    destruct (negb (include _ _)); [by apply no_empty_section_put | done].
  - unfold IniParserX.remove_key. destruct (include _ _); [| done].
    by apply no_empty_section_erase.
  - unfold IniParserX.add_array. destruct (_ && _); [| done].
    destruct (last a); [| done]. by apply no_empty_section_put.
  - unfold IniParserX.remove_array. destruct (IniParserX.is_array2 _ _ _); [| done].
    by apply no_empty_section_erase.
  - unfold IniParserX.parse_inline. destruct (decide _); [done |].
    destruct (find_chr buffer "=").
    + destruct (strip _); [done |].
      destruct (strip _); [done |]. cbn [state_of snd]. rewrite store_builder.
      by apply no_empty_section_put.
    + destruct (find_chr buffer "["); [| done]. cbn [state_of snd].
      by rewrite open_section_builder.
Qed.

Lemma base_reachable_no_empty b : base_reachable b → no_empty_section b.
Proof.
  induction 1 as [| c b _ IH]; [apply no_empty_section_empty |].
  by apply base_after_no_empty.
Qed.

Lemma reachable_no_empty x : reachable x → no_empty_section (IniParserX.builder x).
Proof.
  induction 1 as [| c x _ IH]; [apply no_empty_section_empty |].
  by apply after_call_no_empty.
Qed.

(** C7, with section names without [/] for [remove_key].  No reachable
    document has an empty section.  [remove_key] throws [KeyNotFound] and
    leaves the object as it is when the section has no such key; otherwise
    it returns and leaves no empty section, and when [K] was the only key of
    section [S] the section is gone from [all_sections]. *)
Theorem no_empty_sections_persist
    (b : Builder) (x : IniParserX.parser) (S K : str) :
  base_reachable b →
  reachable x →
  "/"%char ∉ S →
  (no_empty_section b ∧ no_empty_section (IniParserX.builder x))
  ∧ (section_of b S !! K = None →
     IniParser.remove_key S K b = Throws KeyNotFound b)
  ∧ (section_of (IniParserX.builder x) S !! K = None →
     IniParserX.remove_key S K x = Throws KeyNotFound x)
  ∧ (is_Some (section_of b S !! K) →
     ∃ b', IniParser.remove_key S K b = Returns tt b'
           ∧ no_empty_section b'
           ∧ ((∀ K', K' ≠ K → section_of b S !! K' = None) →
              S ∉ all_sections b'))
  ∧ (is_Some (section_of (IniParserX.builder x) S !! K) →
     ∃ x', IniParserX.remove_key S K x = Returns tt x'
           ∧ no_empty_section (IniParserX.builder x')
           ∧ ((∀ K', K' ≠ K → section_of (IniParserX.builder x) S !! K' = None) →
              S ∉ all_sections (IniParserX.builder x'))).
Proof.
  intros Hb Hx HS.
  pose proof (base_reachable_no_empty b Hb) as Nb.
  pose proof (reachable_no_empty x Hx) as Nx.
  assert (Hinc : ∀ b0 : Builder,
            include b0 (S ++ lit "/" ++ K) = bool_decide (is_Some (section_of b0 S !! K))).
  { intros b0. rewrite include_qualified by done. unfold section_of.
    destruct (b0 !! S); [done |]. simpl. rewrite lookup_empty.
    symmetry. apply bool_decide_eq_false_2. by intros [? ?]. }
  split_and!; try done.
  - intros E. unfold remove_key. rewrite Hinc, E.
    rewrite bool_decide_eq_false_2; [done | by intros [? ?]].
  - intros E. unfold IniParserX.remove_key. rewrite Hinc, E.
    rewrite bool_decide_eq_false_2; [done | by intros [? ?]].
  - intros E. unfold remove_key. rewrite Hinc, bool_decide_eq_true_2 by done.
    eexists. split_and!; [done | |].
    + by apply no_empty_section_erase.
    + apply erase_last_key.
  - intros E. unfold IniParserX.remove_key. rewrite Hinc, bool_decide_eq_true_2 by done.
    eexists. split_and!; [done | |]; simpl.
    + by apply no_empty_section_erase.
    + apply erase_last_key.
Qed.

Lemma no_empty_sections_persist_witness :
  let b := base_after (base_add_key (lit "Config") (lit "Theme") (lit "Dark")) ∅ in
  let x := after_call (call_add_array (lit "Hobby") (lit "items") [lit "Running"])
             IniParserX.empty in
  (base_reachable b ∧ reachable x)
  ∧ (∃ b', IniParser.remove_key (lit "Config") (lit "Theme") b = Returns tt b'
           ∧ lit "Config" ∉ all_sections b')
  ∧ IniParserX.remove_key (lit "Hobby") (lit "items") x = Throws KeyNotFound x.
Proof.
  intros b x.
  assert (Hb : base_reachable b) by (apply base_reachable_call, base_reachable_empty).
  assert (Hx : reachable x) by (apply reachable_call, reachable_empty).
  assert (H1 : "/"%char ∉ lit "Config") by by_evaluation.
  assert (H2 : "/"%char ∉ lit "Hobby") by by_evaluation.
  split; [done |].
  destruct (no_empty_sections_persist b x (lit "Config") (lit "Theme") Hb Hx H1)
    as (_ & _ & _ & HC & _).
  destruct (no_empty_sections_persist b x (lit "Hobby") (lit "items") Hb Hx H2)
    as (_ & _ & HH & _).
  split.
  - destruct HC as (b' & E & _ & Hlast); [vm_compute; eauto |].
    exists b'. split; [done |]. apply Hlast. intros K' HK'.
    change (section_of b (lit "Config")) with (<[lit "Theme" := lit "Dark"]> (∅ : gmap str str)).
    by rewrite lookup_insert_ne.
  - apply HH. vm_compute. reflexivity.
Defined.

(** C7 fails for a section name with a [/]: [remove_key("a/b", "k")] finds
    the qualified key [a/b/k] in section [a], erases [k] from a section
    [a/b] that it creates and drops again, and returns with the document as
    it was: no [KeyNotFound] for the key that section [a/b] does not have,
    and the only key of section [a] is still there. *)
Lemma remove_key_slash_in_section :
  let b := base_after (base_add_key (lit "a") (lit "b/k") (lit "v")) ∅ in
  base_reachable b
  ∧ b = {[ lit "a" := {[ lit "b/k" := lit "v" ]} ]}
  ∧ IniParser.remove_key (lit "a/b") (lit "k") b = Returns tt b
  ∧ lit "a" ∈ all_sections b.
Proof.
  intros b. split_and!.
  - apply base_reachable_call, base_reachable_empty.
  - vm_compute. reflexivity.
  - vm_compute. reflexivity.
  - by_evaluation.
Qed.

(** ** The round trip *)

(** *** Stored strings *)

Lemma drop_spaces_replicate n s : drop_spaces (replicate n space ++ s) = drop_spaces s.
Proof. induction n as [| n IH]; [done |]. by simpl. Qed.

Lemma drop_spaces_id s : head s ≠ Some space → drop_spaces s = s.
Proof.
  destruct s as [| c s]; [done |]. simpl. intros H.
  destruct (decide (c = space)) as [-> |]; done.
Qed.

Lemma trim_padded s a b :
  s ≠ [] → head s ≠ Some space → last s ≠ Some space →
  trim (replicate a space ++ s ++ replicate b space) = s.
Proof.
  intros Hne Hh Hl. unfold trim.
  rewrite drop_spaces_replicate.
  rewrite (drop_spaces_id (s ++ _)).
  2:{ destruct s; [done |]. done. }
  rewrite reverse_app, reverse_replicate, drop_spaces_replicate.
  rewrite drop_spaces_id; [apply reverse_involutive |].
  destruct (reverse s) as [| c r] eqn:E.
  - apply (f_equal reverse) in E. by rewrite reverse_involutive in E.
  - simpl. intros [= ->]. apply Hl.
    rewrite <- (reverse_involutive s), E. by rewrite last_reverse.
Qed.

Lemma not_blank_padded s a b :
  s ≠ [] → head s ≠ Some space →
  ¬ blank (replicate a space ++ s ++ replicate b space).
Proof.
  intros Hne Hh Hb. apply blank_app in Hb as [_ Hb]. apply blank_app in Hb as [Hb _].
  destruct s as [| c s]; [done |]. inversion Hb as [| ? ? Hc]; subst. done.
Qed.

Lemma strip_padded s a b :
  s ≠ [] → head s ≠ Some space → last s ≠ Some space →
  (N.of_nat (a + length s + b) < size_max)%N →
  strip (replicate a space ++ s ++ replicate b space) = inr s.
Proof.
  intros Hne Hh Hl Hlen.
  rewrite strip_trim.
  - by rewrite trim_padded.
  - by apply not_blank_padded.
  - rewrite !length_app, !length_replicate. lia.
Qed.

(** [strip] returns the trimmed text, and throws on a blank string. *)
Lemma strip_returns s t :
  (N.of_nat (length s) < npos)%N → strip s = inr t → ¬ blank s ∧ t = trim s.
Proof.
  intros Hlen E. destruct (decide (blank s)) as [Hb | Hb].
  - rewrite strip_blank in E by done. done.
  - split; [done |]. rewrite strip_trim in E; [congruence | done |].
    unfold npos in Hlen. lia.
Qed.

Lemma trim_subseteq s : trim s ⊆ s.
Proof.
  destruct (decide (blank s)) as [Hb | Hb].
  - unfold trim. apply drop_spaces_nil in Hb. rewrite Hb. simpl.
    intros c Hc. by apply elem_of_nil in Hc.
  - destruct (trim_split s Hb) as (a & b & Hs & _).
    intros c Hc. rewrite Hs. set_solver.
Qed.

Lemma trim_length s : length (trim s) ≤ length s.
Proof.
  destruct (decide (blank s)) as [Hb | Hb].
  - unfold trim. apply drop_spaces_nil in Hb. rewrite Hb. simpl. lia.
  - destruct (trim_split s Hb) as (a & b & Hs & _).
    rewrite Hs at 2. rewrite !length_app. lia.
Qed.

Lemma trim_keeps s c : c ≠ space → c ∈ s → c ∈ trim s.
Proof.
  intros Hc Hin. destruct (decide (blank s)) as [Hb | Hb].
  - exfalso. unfold blank in Hb. rewrite Forall_forall in Hb. by apply Hc, Hb.
  - destruct (trim_split s Hb) as (a & b & Hs & _).
    rewrite Hs in Hin. rewrite !elem_of_app in Hin.
    destruct Hin as [Hin | [Hin | Hin]]; [| done |];
      apply elem_of_replicate in Hin as [-> _]; done.
Qed.

Lemma stripped_trim s :
  (N.of_nat (length s) < npos)%N → newline ∉ s → ¬ blank s → stripped (trim s).
Proof.
  intros Hlen Hnl Hb. destruct (trim_split s Hb) as (a & b & Hs & Hh & Hl & Hne).
  split_and!; try done.
  - pose proof (trim_length s). lia.
  - intros H. by apply Hnl, trim_subseteq.
Qed.

(** *** The lines of a written file, parsed *)

(** What [open_section] and [store] leave alone. *)
Lemma open_section_arrays sec tmp x :
  IniParserX.arrays (IniParserX.open_section sec tmp x).2 = IniParserX.arrays x.
Proof.
  unfold IniParserX.open_section. destruct (decide _); [done |].
  by destruct (find_chr tmp ".").
Qed.

Lemma find_chr_not_in s c : c ∉ s → find_chr s c = None.
Proof. apply find_chr_None. Qed.

Lemma find_chr_app_l s1 s2 c q :
  find_chr s1 c = Some q → find_chr (s1 ++ s2) c = Some q.
Proof.
  unfold find_chr. intros H. apply fmap_Some in H as ([i a] & H & ->).
  by rewrite (list_find_app_l _ _ _ _ _ H).
Qed.

(** The text after the [=] of a written line, as [parse_inline] cuts it:
    all of it, also when the key has a [;] and the count wraps around. *)
Lemma raw_value_generated k e :
  stripped k → head k ≠ Some ";"%char → value_ok k e →
  raw_value ((k ++ [space]) ++ "="%char :: space :: e) (length (k ++ [space]))
    (find_chr ((k ++ [space]) ++ "="%char :: space :: e) ";")
  = space :: e
  ∧ find_chr ((k ++ [space]) ++ "="%char :: space :: e) ";" ≠ Some 0.
Proof.
  intros (Hk1 & Hk2 & Hk3 & Hk4 & _) Hsemi ((He1 & _) & Hse & Hlen).
  assert (Hdrop : drop (length (k ++ [space]) + 1)
                    ((k ++ [space]) ++ "="%char :: space :: e) = space :: e).
  { rewrite Nat.add_1_r.
    change ("="%char :: space :: e) with (["="%char] ++ space :: e).
    rewrite (app_assoc _ ["="%char]). rewrite drop_app_length'; [done |].
    rewrite !length_app. simpl. lia. }
  destruct (find_chr k ";") as [q |] eqn:Eq.
  - rewrite <- app_assoc. rewrite (find_chr_app_l _ _ _ _ Eq). rewrite app_assoc.
    pose proof (find_chr_lt _ _ _ Eq) as Hq.
    split; [| intros [= ->]; by apply find_chr_0 in Eq].
    unfold raw_value, substr_in. rewrite Hdrop.
    rewrite length_app in *. cbn [length] in *.
    assert (A1 : (N.of_nat q < N.of_nat (length k + 1))%N) by lia.
    assert (A2 : (N.of_nat (length k + 1) < size_max)%N) by (unfold npos in Hk4; lia).
    rewrite (sz_sub_wrap (N.of_nat q)) by done.
    rewrite sz_sub_small by (unfold npos, size_max in *; lia).
    rewrite take_ge; [done |].
    rewrite !length_app. cbn [length].
    rewrite N.min_r by (unfold npos, size_max in *; lia). lia.
  - apply find_chr_None in Eq. specialize (Hse Eq).
    rewrite (find_chr_not_in _ ";") by chars.
    split; [| done]. unfold raw_value, substr_from. exact Hdrop.
Qed.

Lemma parse_generated_assignment S k e x :
  key_ok k → head k ≠ Some ";"%char → value_ok k e →
  IniParserX.parse_inline (k ++ lit " = " ++ e) (S, x)
  = Returns true (S, IniParserX.store S k e x).
Proof.
  intros [Hk Heq] Hsemi Hv.
  pose proof Hk as (Hk1 & Hk2 & Hk3 & Hk4 & _).
  pose proof Hv as ((He1 & He2 & He3 & He4 & _) & _ & _).
  change (lit " = " ++ e) with ([space] ++ "="%char :: space :: e).
  rewrite app_assoc.
  destruct (raw_value_generated k e Hk Hsemi Hv) as [Hraw Hsq].
  assert (Hsp : find_chr ((k ++ [space]) ++ "="%char :: space :: e) "="
                = Some (length (k ++ [space]))).
  { apply find_chr_app. chars. }
  unfold IniParserX.parse_inline. rewrite Hsp.
  rewrite decide_False by done.
  rewrite substr_in_0, take_app_length, Hraw.
  pose proof (strip_padded k 0 1 Hk1 Hk2 Hk3) as Sk. simpl in Sk. rewrite Sk.
  2:{ unfold npos in Hk4. lia. }
  pose proof (strip_padded e 1 0 He1 He2 He3) as Se. simpl in Se.
  rewrite app_nil_r in Se. rewrite Se; [done |].
  unfold npos in He4. lia.
Qed.

Lemma parse_generated_header S sec x :
  "="%char ∉ S → "]"%char ∉ S → (N.of_nat (length S) < npos)%N →
  IniParserX.parse_inline (lit "[" ++ S ++ lit "]") (sec, x)
  = Returns false (IniParserX.open_section sec S x).
Proof.
  intros Heq Hbr Hlen.
  change (lit "[" ++ S ++ lit "]") with ("["%char :: S ++ ["]"%char]).
  unfold IniParserX.parse_inline.
  rewrite decide_False by (rewrite find_chr_0; done).
  rewrite (find_chr_not_in _ "=") by chars.
  rewrite find_chr_cons, decide_True by done.
  unfold header_name.
  assert (Hf : find_chr ("["%char :: S ++ ["]"%char]) "]" = Some (length S + 1)).
  { change ("["%char :: S ++ ["]"%char]) with (("["%char :: S) ++ "]"%char :: []).
    rewrite find_chr_app; [simpl; f_equal; lia | chars]. }
  rewrite Hf. simpl pos_of.
  rewrite (sz_sub_small _ (N.of_nat 0)) by (unfold npos in Hlen; lia).
  rewrite sz_sub_small by (unfold npos in Hlen; lia).
  unfold substr_in. simpl drop. rewrite drop_0.
  replace (N.to_nat _) with (length S).
  2:{ simpl length. rewrite length_app. simpl. lia. }
  by rewrite take_app_length.
Qed.

Lemma open_section_plain sec S x :
  head S ≠ Some "."%char → (IniParserX.open_section sec S x).1 = S.
Proof.
  intros H. unfold IniParserX.open_section.
  rewrite decide_False.
  - by destruct (find_chr S ".").
  - destruct S as [| c S]; [done |]. simpl in *. congruence.
Qed.

Lemma parse_blank_line w : IniParserX.parse_inline [] w = Returns false w.
Proof. by destruct w. Qed.

(** *** What parsing keeps true *)

Lemma entry_put sec k v b sec' k' :
  entry (put sec k v b) sec' k'
  = if decide (sec' = sec ∧ k' = k) then Some v else entry b sec' k'.
Proof.
  unfold entry, put, section_of. destruct (decide (sec' = sec)) as [-> | Hs].
  - rewrite lookup_insert_eq. simpl. destruct (decide (k' = k)) as [-> | Hk].
    + rewrite lookup_insert_eq. by rewrite decide_True.
    + rewrite lookup_insert_ne by done. rewrite decide_False by tauto.
      by destruct (b !! sec).
  - rewrite lookup_insert_ne by done. by rewrite decide_False by tauto.
Qed.

Lemma entry_put_is_Some sec k v b sec' k' :
  is_Some (entry b sec' k') → is_Some (entry (put sec k v b) sec' k').
Proof. rewrite entry_put. case_decide; eauto. Qed.

Lemma entry_section b sec k : is_Some (entry b sec k) → is_Some (b !! sec).
Proof. unfold entry. destruct (b !! sec); [eauto | by intros [? ?]]. Qed.

Lemma store_arrays sec k v x :
  IniParserX.arrays (IniParserX.store sec k v x)
  = match find_sub k (lit "[]") with
    | Some _ => IniParserX.push_back (array_path sec k) v (IniParserX.arrays x)
    | None => IniParserX.arrays x
    end.
Proof.
  unfold IniParserX.store, array_path, IniParserX.get_array_name.
  by destruct (find_sub k (lit "[]")).
Qed.

Lemma parsed_empty : parsed IniParserX.empty.
Proof.
  split; simpl.
  - intros sec [? H]. by rewrite lookup_empty in H.
  - apply no_empty_section_empty.
  - intros sec k v. unfold entry. by rewrite lookup_empty.
  - intros sec k [? H]. unfold entry in H. by rewrite lookup_empty in H.
  - intros p l e H. by rewrite lookup_empty in H.
  - intros p l H. by rewrite lookup_empty in H.
Qed.

Lemma parsed_store sec k v x :
  parsed x → section_ok sec → key_ok k → value_ok k v →
  parsed (IniParserX.store sec k v x).
Proof.
  intros [P1 P2 P3 P4 P5 P6] Hsec Hk Hv.
  split; rewrite ?store_builder, ?store_arrays.
  - intros sec'. unfold put. rewrite lookup_insert. case_decide; [by subst | apply P1].
  - by apply no_empty_section_put.
  - intros sec' k' v'. rewrite entry_put. case_decide as E.
    + destruct E as [-> ->]. by intros [= <-].
    + apply P3.
  - intros sec' k' Hin Hak. rewrite entry_put in Hin.
    destruct (find_sub k (lit "[]")) as [pt |] eqn:F.
    + unfold IniParserX.push_back. rewrite lookup_insert.
      destruct (decide (array_path sec k = array_path sec' k')) as [E1 | E1]; [eauto |].
      destruct (decide (sec' = sec ∧ k' = k)) as [[-> ->] | E2]; [done |]. by apply P4.
    + destruct (decide (sec' = sec ∧ k' = k)) as [[-> ->] | E2].
      * destruct Hak as [? Hak]. congruence.
      * by apply P4.
  - intros p l e. destruct (find_sub k (lit "[]")) as [pt |] eqn:F.
    + unfold IniParserX.push_back. rewrite lookup_insert. case_decide as E.
      * subst p. intros [= <-] He. apply elem_of_app in He as [He | He].
        -- destruct (IniParserX.arrays x !! array_path sec k) as [l0 |] eqn:A;
             [| by apply elem_of_nil in He].
           destruct (P5 _ _ _ A He) as (s0 & k0 & ? & ? & ? & ?).
           exists s0, k0. split_and!; try done. by apply entry_put_is_Some.
        -- apply list_elem_of_singleton in He as ->.
           exists sec, k. split_and!; try done.
           ++ unfold array_key. rewrite F. eauto.
           ++ rewrite entry_put, decide_True by done. eauto.
      * intros A He. destruct (P5 _ _ _ A He) as (s0 & k0 & ? & ? & ? & ?).
        exists s0, k0. split_and!; try done. by apply entry_put_is_Some.
    + intros A He. destruct (P5 _ _ _ A He) as (s0 & k0 & ? & ? & ? & ?).
      exists s0, k0. split_and!; try done. by apply entry_put_is_Some.
  - intros p l. destruct (find_sub k (lit "[]")) as [pt |] eqn:F.
    + unfold IniParserX.push_back. rewrite lookup_insert. case_decide as E.
      * subst p. intros [= <-]. exists sec, k, v. split_and!; try done.
        -- unfold array_key. rewrite F. eauto.
        -- by rewrite entry_put, decide_True.
        -- by rewrite last_snoc.
      * intros A. destruct (P6 _ _ A) as (s0 & k0 & v0 & ? & -> & ? & ?).
        exists s0, k0, v0. split_and!; try done.
        rewrite entry_put, decide_False; [done |].
        intros [-> ->]. done.
    + intros A. destruct (P6 _ _ A) as (s0 & k0 & v0 & Hak & -> & ? & ?).
      exists s0, k0, v0. split_and!; try done.
      rewrite entry_put, decide_False; [done |].
      intros [-> ->]. destruct Hak as [? Hak]. congruence.
Qed.

Lemma parsed_same_tables x y :
  IniParserX.builder y = IniParserX.builder x →
  IniParserX.arrays y = IniParserX.arrays x →
  parsed x → parsed y.
Proof. intros Eb Ea [P1 P2 P3 P4 P5 P6]. split; rewrite ?Eb, ?Ea; done. Qed.

Lemma text_before_subseteq c s : text_before c s ⊆ s.
Proof.
  induction s as [| a s IH]; simpl; [done |].
  destruct (decide (a = c)).
  - intros y Hy. by apply elem_of_nil in Hy.
  - intros y Hy. apply elem_of_cons in Hy as [-> | Hy]; [left | right; by apply IH].
Qed.

Lemma text_after_subseteq c s : text_after c s ⊆ s.
Proof.
  induction s as [| a s IH]; simpl; [done |].
  destruct (decide (a = c)); intros y Hy; right; [done | by apply IH].
Qed.

Lemma text_before_not_in c s : c ∉ text_before c s.
Proof.
  induction s as [| a s IH]; simpl; [apply not_elem_of_nil |].
  destruct (decide (a = c)); [apply not_elem_of_nil |].
  apply not_elem_of_cons. split; [congruence | done].
Qed.

Lemma key_part_subseteq buffer : key_part buffer ⊆ buffer.
Proof. apply text_before_subseteq. Qed.

Lemma value_part_subseteq buffer : value_part buffer ⊆ buffer.
Proof.
  unfold value_part. destruct (bool_decide _).
  - apply text_after_subseteq.
  - etrans; [apply text_before_subseteq | apply text_after_subseteq].
Qed.

Lemma text_parts_length c s :
  c ∈ s → length (text_before c s) + length (text_after c s) + 1 = length s.
Proof.
  induction s as [| a s IH]; intros Hin; [by apply elem_of_nil in Hin |].
  simpl. destruct (decide (a = c)); [simpl; lia |].
  apply elem_of_cons in Hin as [-> | Hin]; [done |]. simpl. rewrite <- IH by done. lia.
Qed.

Lemma parts_length buffer :
  "="%char ∈ buffer →
  length (key_part buffer) + length (value_part buffer) + 1 ≤ length buffer.
Proof.
  intros Hin. pose proof (text_parts_length _ _ Hin) as H.
  unfold key_part, value_part.
  pose proof (before_length ";" (text_after "=" buffer)).
  destruct (bool_decide _); lia.
Qed.

Lemma assignment_results buffer k v :
  (N.of_nat (length buffer) < npos)%N → newline ∉ buffer → "="%char ∈ buffer →
  strip (key_part buffer) = inr k → strip (value_part buffer) = inr v →
  key_ok k ∧ value_ok k v.
Proof.
  intros Hlen Hnl Heq Ek Ev.
  pose proof (key_part_length buffer). pose proof (value_part_length buffer).
  pose proof (parts_length buffer Heq).
  apply strip_returns in Ek as [Hkb ->]; [| lia].
  apply strip_returns in Ev as [Hvb ->]; [| lia].
  split; [split | split_and!].
  - apply stripped_trim; [lia | | done].
    intros Hin. by apply Hnl, key_part_subseteq.
  - intros Hin. apply trim_subseteq in Hin. by apply (text_before_not_in "=" buffer).
  - apply stripped_trim; [lia | | done].
    intros Hin. by apply Hnl, value_part_subseteq.
  - intros Hk Hin. apply trim_subseteq in Hin.
    unfold value_part in Hin. rewrite bool_decide_eq_false_2 in Hin.
    + by apply text_before_not_in in Hin.
    + intros Hs. apply Hk. by apply trim_keeps.
  - pose proof (trim_length (key_part buffer)).
    pose proof (trim_length (value_part buffer)). lia.
Qed.

Lemma substr_in_subseteq s pos count : substr_in s pos count ⊆ s.
Proof. unfold substr_in. etrans; [apply subseteq_take | apply subseteq_drop]. Qed.

Lemma substr_in_length s pos count : length (substr_in s pos count) ≤ length s.
Proof. unfold substr_in. rewrite length_take, length_drop. lia. Qed.

Lemma open_section_static sec tmp x :
  (IniParserX.open_section sec tmp x).1 = sec ++ tmp
  ∨ (IniParserX.open_section sec tmp x).1 = tmp.
Proof.
  unfold IniParserX.open_section. destruct (decide _); [by left |].
  right. by destruct (find_chr tmp ".").
Qed.

Lemma parse_step buffer sec x r sec' x' :
  parsed x → section_ok sec → newline ∉ buffer →
  (N.of_nat (length sec + length buffer) < npos)%N →
  IniParserX.parse_inline buffer (sec, x) = Returns r (sec', x') →
  parsed x' ∧ ("="%char ∉ sec') ∧ (newline ∉ sec')
  ∧ length sec' ≤ length sec + length buffer.
Proof.
  intros Px Hsec Hnl Hlen. pose proof Hsec as (Hs1 & Hs2 & Hs3).
  destruct (decide (head buffer = Some ";"%char)) as [Hc | Hc].
  { unfold IniParserX.parse_inline. rewrite decide_True by (by apply find_chr_0).
    intros [= <- <- <-]. split_and!; try done. lia. }
  destruct (find_chr buffer "=") as [p |] eqn:Ep.
  - rewrite parseX_inline_assignment; [| unfold npos in Hlen; lia | done |].
    2:{ apply find_chr_Some in Ep as [Ep _]. by apply list_elem_of_lookup_2 in Ep. }
    unfold with_stripped.
    destruct (strip (key_part buffer)) as [| k] eqn:Ek; [done |].
    destruct (strip (value_part buffer)) as [| v] eqn:Ev; [done |].
    intros [= <- <- <-].
    destruct (assignment_results buffer k v) as [Hk Hv]; try done; [lia | |].
    { apply find_chr_Some in Ep as [Ep _]. by apply list_elem_of_lookup_2 in Ep. }
    split_and!; try done; [| lia]. by apply parsed_store.
  - unfold IniParserX.parse_inline.
    rewrite decide_False by (by rewrite find_chr_0). rewrite Ep.
    destruct (find_chr buffer "[") as [st |] eqn:Est.
    2:{ intros [= <- <- <-]. split_and!; try done. lia. }
    intros [= <- E]. 
    pose proof (substr_in_subseteq buffer (st + 1)
      (sz_sub (sz_sub (pos_of (find_chr buffer "]")) (N.of_nat st)) 1)) as Hsub.
    pose proof (substr_in_length buffer (st + 1)
      (sz_sub (sz_sub (pos_of (find_chr buffer "]")) (N.of_nat st)) 1)) as Hle.
    fold (header_name buffer st) in Hsub, Hle.
    apply find_chr_None in Ep.
    assert (He : "="%char ∉ header_name buffer st) by (intros Hin; by apply Ep, Hsub).
    assert (Hn : newline ∉ header_name buffer st) by (intros Hin; by apply Hnl, Hsub).
    assert (Ex : x' = (IniParserX.open_section sec (header_name buffer st) x).2)
      by (by rewrite E).
    assert (Es : sec' = (IniParserX.open_section sec (header_name buffer st) x).1)
      by (by rewrite E).
    split.
    { subst x'. eapply parsed_same_tables; [| | exact Px].
      - apply open_section_builder.
      - apply open_section_arrays. }
    destruct (open_section_static sec (header_name buffer st) x) as [E1 | E1];
      rewrite E1 in Es; subst sec'.
    + rewrite !not_elem_of_app, length_app. split_and!; try done. lia.
    + split_and!; try done. lia.
Qed.

Lemma parse_lines_parsed lines sec x sec' x' :
  parsed x → "="%char ∉ sec → newline ∉ sec →
  Forall (λ l, newline ∉ l) lines →
  (N.of_nat (length sec + sum_list (length <$> lines)) < npos)%N →
  IniParserX.parse_lines lines (sec, x) = Returns tt (sec', x') →
  parsed x'.
Proof.
  intros Px He Hn Hall. revert sec x Px He Hn.
  induction Hall as [| l lines Hl Hall IH]; intros sec x Px He Hn Hlen;
    cbn [IniParserX.parse_lines].
  - by intros [= <- <-].
  - change (sum_list (length <$> l :: lines))
      with (length l + sum_list (length <$> lines)) in Hlen.
    destruct (IniParserX.parse_inline l (sec, x)) as [r [sec1 x1] | e w1] eqn:E; [| done].
    apply parse_step in E as (P1 & He1 & Hn1 & Hle1); try done.
    + apply IH; try done. lia.
    + split_and!; try done. lia.
    + lia.
Qed.

(** *** Lines and files *)

Lemma getlines_no_newline text : Forall (λ l, newline ∉ l) (getlines text).
Proof.
  induction text as [| c text IH]; simpl; [constructor |].
  destruct (decide (c = newline)).
  - constructor; [apply not_elem_of_nil | done].
  - destruct (getlines text) as [| l ls].
    + constructor; [| done]. apply not_elem_of_cons. split; [congruence | apply not_elem_of_nil].
    + inversion IH as [| ? ? Hl Hls]; subst. constructor; [| done].
      apply not_elem_of_cons. split; [congruence | done].
Qed.

Lemma getlines_total text : sum_list (length <$> getlines text) ≤ length text.
Proof.
  induction text as [| c text IH]; simpl; [done |].
  destruct (decide (c = newline)).
  - change (sum_list (length <$> [] :: getlines text))
      with (0 + sum_list (length <$> getlines text)). lia.
  - destruct (getlines text) as [| l ls].
    + simpl. lia.
    + change (sum_list (length <$> (c :: l) :: ls))
        with (S (length l) + sum_list (length <$> ls)).
      change (sum_list (length <$> l :: ls))
        with (length l + sum_list (length <$> ls)) in IH. lia.
Qed.

Lemma getlines_line l rest :
  newline ∉ l → getlines (l ++ newline :: rest) = l :: getlines rest.
Proof.
  induction l as [| c l IH]; intros Hn; simpl.
  - done.
  - apply not_elem_of_cons in Hn as [Hc Hn].
    rewrite decide_False by congruence. by rewrite IH.
Qed.

Lemma getlines_text_of_lines ls :
  Forall (λ l, newline ∉ l) ls → getlines (text_of_lines ls) = ls.
Proof.
  induction 1 as [| l ls Hl Hls IH]; [done |].
  unfold text_of_lines. simpl. rewrite <- app_assoc. simpl.
  rewrite getlines_line by done. by f_equal.
Qed.

Lemma text_of_lines_app l1 l2 :
  text_of_lines (l1 ++ l2) = text_of_lines l1 ++ text_of_lines l2.
Proof. unfold text_of_lines. by rewrite map_app, concat_app. Qed.

Lemma text_of_lines_cons l ls :
  text_of_lines (l :: ls) = l ++ newline :: text_of_lines ls.
Proof. unfold text_of_lines. simpl. by rewrite <- app_assoc. Qed.

(** *** Paths of the array table *)

(** [find] of the suffix in the paths of the array table. *)
Lemma starts_with_suffix c s :
  starts_with (lit "[]") (c :: s) = true → head s = Some "]"%char.
Proof.
  simpl. destruct s as [| d s]; simpl.
  - by rewrite andb_false_r.
  - intros H. apply andb_true_iff in H as [_ H]. apply andb_true_iff in H as [H _].
    apply bool_decide_eq_true in H. by subst.
Qed.

Lemma find_sub_after_slash name :
  find_sub name (lit "[]") = None → find_sub ("/"%char :: name) (lit "[]") = None.
Proof.
  intros H. cbn [find_sub].
  change (starts_with (lit "[]") ("/"%char :: name)) with false.
  by rewrite H.
Qed.

Lemma find_sub_path_aux sec name :
  "]"%char ∉ sec → find_sub name (lit "[]") = None →
  find_sub (sec ++ "/"%char :: name) (lit "[]") = None.
Proof.
  intros Hs Hn. induction sec as [| c sec IH]; [by apply find_sub_after_slash |].
  apply not_elem_of_cons in Hs as [Hc Hs].
  change ((c :: sec) ++ "/"%char :: name) with (c :: (sec ++ "/"%char :: name)).
  cbn [find_sub].
  destruct (starts_with (lit "[]") (c :: sec ++ "/"%char :: name)) eqn:E.
  - apply starts_with_suffix in E. destruct sec as [| d sec]; simpl in E; [done |].
    injection E as ->. exfalso. apply Hs. left.
  - by rewrite IH.
Qed.

Lemma find_sub_take k p :
  find_sub k (lit "[]") = Some p → find_sub (take p k) (lit "[]") = None.
Proof.
  intros H. apply find_sub_Some in H as (b & Hk & Hle & Hmin).
  apply find_sub_None. intros (u & w & Huw).
  assert (Hlen : length u + 2 + length w = p).
  { apply (f_equal length) in Huw. rewrite length_take, !length_app in Huw.
    simpl in Huw. lia. }
  assert (Hs : starts_with (lit "[]") (drop (length u) k) = true).
  { apply starts_with_spec. exists (w ++ drop p k).
    rewrite <- (take_drop p k) at 1. rewrite Huw.
    rewrite <- !app_assoc. by rewrite drop_app_length. }
  rewrite Hmin in Hs; [done | lia].
Qed.

Lemma get_array_name_no_suffix k :
  find_sub (IniParserX.get_array_name k) (lit "[]") = None.
Proof.
  unfold IniParserX.get_array_name.
  destruct (find_sub k (lit "[]")) as [p |] eqn:E; [| done].
  rewrite substr_in_0. by apply find_sub_take.
Qed.

Lemma array_path_no_suffix sec k :
  "]"%char ∉ sec → IniParserX.get_array_name (array_path sec k) = array_path sec k.
Proof.
  intros Hs. unfold IniParserX.get_array_name at 1.
  unfold array_path. change (lit "/" ++ ?t) with ("/"%char :: t).
  rewrite find_sub_path_aux; [done | done | apply get_array_name_no_suffix].
Qed.

Lemma is_array_path sec k x l :
  "]"%char ∉ sec → IniParserX.arrays x !! array_path sec k = Some l →
  IniParserX.is_array (array_path sec k) x = true.
Proof.
  intros Hs Hl. unfold IniParserX.is_array.
  rewrite array_path_no_suffix by done. apply bool_decide_eq_true_2. eauto.
Qed.

(** *** What [save_ini_file] writes *)

Lemma save_elements_text sec k x l i :
  "]"%char ∉ sec →
  IniParserX.arrays x !! array_path sec k = Some l →
  IniParserX.save_elements sec k (seq i (length l - i)) x
  = inr (text_of_lines (map (λ e, k ++ lit " = " ++ e) (drop i l))).
Proof.
  intros Hs Hl. remember (length l - i) as m eqn:Hm. revert i Hm.
  induction m as [| m IH]; intros i Hm.
  - rewrite drop_ge by lia. done.
  - destruct (l !! i) as [e |] eqn:Ei.
    2:{ apply lookup_ge_None in Ei. lia. }
    rewrite (drop_S _ _ _ Ei). cbn [seq IniParserX.save_elements].
    unfold IniParserX.value_of_array2.
    fold (array_path sec k). rewrite (is_array_path _ _ _ _ Hs Hl).
    unfold IniParserX.arrays_at. rewrite Hl. cbn [IniParserX.bind_exn].
    unfold IniParserX.vector_at. rewrite Ei. cbn [IniParserX.bind_exn].
    rewrite (IH (S i)) by lia. cbn [IniParserX.bind_exn map].
    rewrite (text_of_lines_cons (k ++ lit " = " ++ e)).
    by rewrite <- !app_assoc.
Qed.

Lemma save_entry_text x sec kv :
  "]"%char ∉ sec → entry_good x sec kv →
  IniParserX.save_entry sec kv x = inr (text_of_lines (entry_lines x sec kv)).
Proof.
  intros Hs (_ & _ & _ & _ & Hreg). unfold IniParserX.save_entry, entry_lines, elements_of.
  destruct (find_sub kv.1 (lit "[]")) as [p |] eqn:F.
  - destruct Hreg as [l Hl]; [unfold array_key; rewrite F; eauto |].
    unfold IniParserX.size_of_array2. fold (array_path sec kv.1).
    rewrite (is_array_path _ _ _ _ Hs Hl).
    unfold IniParserX.arrays_at. rewrite Hl. cbn [IniParserX.bind_exn default].
    pose proof (save_elements_text sec kv.1 x l 0 Hs Hl) as H.
    rewrite Nat.sub_0_r, drop_0 in H. exact H.
  - cbn [map]. rewrite (text_of_lines_cons (kv.1 ++ lit " = " ++ kv.2) []).
    change (text_of_lines []) with (@nil ascii). by rewrite <- !app_assoc.
Qed.

Lemma save_entries_text x sec kvs :
  "]"%char ∉ sec → Forall (entry_good x sec) kvs →
  IniParserX.save_entries sec kvs x
  = inr (text_of_lines (concat (map (entry_lines x sec) kvs))).
Proof.
  intros Hs. induction 1 as [| kv kvs Hkv Hkvs IH]; [done |].
  cbn [IniParserX.save_entries]. rewrite save_entry_text by done.
  cbn [IniParserX.bind_exn]. rewrite IH. cbn [IniParserX.bind_exn].
  cbn [map concat]. by rewrite text_of_lines_app.
Qed.

Lemma save_in_order_text x doc :
  doc_good x doc →
  IniParserX.save_in_order doc x = inr (text_of_lines (document_lines x doc)).
Proof.
  induction 1 as [| [sec kvs] doc [(_ & Hs & _) Hkvs] Hdoc IH]; [done |].
  cbn [IniParserX.save_in_order fst snd] in *.
  rewrite save_entries_text by done. cbn [IniParserX.bind_exn].
  rewrite IH. cbn [IniParserX.bind_exn].
  unfold document_lines. cbn [map concat]. rewrite text_of_lines_app.
  fold (document_lines x doc). unfold section_lines. cbn [fst snd].
  rewrite text_of_lines_cons, text_of_lines_app.
  rewrite (text_of_lines_cons [] []).
  change (text_of_lines []) with (@nil ascii). f_equal.
  rewrite <- !app_assoc. cbn [app]. by rewrite <- !app_assoc.
Qed.

(** *** Parsing what was written *)

Lemma parseX_lines_app l1 l2 w :
  IniParserX.parse_lines (l1 ++ l2) w
  = match IniParserX.parse_lines l1 w with
    | Returns _ w' => IniParserX.parse_lines l2 w'
    | Throws e w' => Throws e w'
    end.
Proof.
  revert w. induction l1 as [| l l1 IH]; intros w; [done |].
  cbn [app IniParserX.parse_lines].
  destruct (IniParserX.parse_inline l w); [apply IH | done].
Qed.

Lemma parse_elements sec k es y :
  key_ok k → head k ≠ Some ";"%char → Forall (value_ok k) es →
  IniParserX.parse_lines (map (λ e, k ++ lit " = " ++ e) es) (sec, y)
  = Returns tt (sec, foldl (λ y e, IniParserX.store sec k e y) y es).
Proof.
  intros Hk Hs Hes. revert y.
  induction Hes as [| e es He Hes IH]; intros y; [done |].
  cbn [map IniParserX.parse_lines foldl].
  rewrite parse_generated_assignment by done. apply IH.
Qed.

Lemma put_put sec k v1 v2 b : put sec k v2 (put sec k v1 b) = put sec k v2 b.
Proof.
  unfold put at 1. rewrite section_of_put. unfold put.
  by rewrite insert_insert_eq, insert_insert_eq.
Qed.

Lemma tables_store_elements sec k es y :
  es ≠ [] →
  tables (foldl (λ y e, IniParserX.store sec k e y) y es)
  = (put sec k (default [] (last es)) (IniParserX.builder y),
     match find_sub k (lit "[]") with
     | Some _ =>
         <[array_path sec k :=
             default [] (IniParserX.arrays y !! array_path sec k) ++ es]>
           (IniParserX.arrays y)
     | None => IniParserX.arrays y
     end).
Proof.
  revert y. induction es as [| e es IH]; intros y Hne; [done |].
  destruct es as [| e' es].
  - cbn [foldl last default]. unfold tables.
    rewrite store_builder, store_arrays. by destruct (find_sub k (lit "[]")).
  - cbn [foldl] in *. rewrite IH by done.
    rewrite store_builder, store_arrays, put_put.
    change (last (e :: e' :: es)) with (last (e' :: es)). f_equal.
    destruct (find_sub k (lit "[]")); [| done].
    unfold IniParserX.push_back. rewrite lookup_insert_eq, insert_insert_eq.
    cbn [default]. unfold id. by rewrite <- app_assoc.
Qed.

Lemma parse_entry_lines x sec kv y :
  entry_good x sec kv →
  ∃ y', IniParserX.parse_lines (entry_lines x sec kv) (sec, y) = Returns tt (sec, y')
        ∧ tables y' = replay_entry x (tables y) (sec, kv).
Proof.
  intros (Hk & Hs & Hes & Hlast & Hreg). destruct kv as [k v]. cbn [fst snd] in *.
  eexists. split.
  - unfold entry_lines. cbn [fst]. by apply parse_elements.
  - rewrite tables_store_elements.
    2:{ intros E. by rewrite E in Hlast. }
    rewrite Hlast. cbn [default replay_entry tables fst snd].
    unfold elements_of. cbn [fst snd].
    by destruct (find_sub k (lit "[]")).
Qed.

Lemma parse_entries_lines x sec kvs y :
  Forall (entry_good x sec) kvs →
  ∃ y', IniParserX.parse_lines (concat (map (entry_lines x sec) kvs)) (sec, y)
        = Returns tt (sec, y')
        ∧ tables y' = foldl (λ T kv, replay_entry x T (sec, kv)) (tables y) kvs.
Proof.
  intros H. revert y. induction H as [| kv kvs Hkv Hkvs IH]; intros y.
  - by exists y.
  - cbn [map concat foldl]. rewrite parseX_lines_app.
    destruct (parse_entry_lines x sec kv y Hkv) as (y1 & -> & T1).
    destruct (IH y1) as (y2 & E2 & T2). exists y2. by rewrite <- T1.
Qed.

Lemma parse_section_lines x sec kvs s0 y :
  section_good sec → Forall (entry_good x sec) kvs →
  ∃ y', IniParserX.parse_lines (section_lines x (sec, kvs)) (s0, y)
        = Returns tt (sec, y')
        ∧ tables y' = foldl (λ T kv, replay_entry x T (sec, kv)) (tables y) kvs.
Proof.
  intros ((He & Hn & Hlen) & Hbr & Hdot) Hkvs.
  unfold section_lines. cbn [fst snd IniParserX.parse_lines].
  rewrite parse_generated_header by done.
  destruct (IniParserX.open_section s0 sec y) as [s1 y1] eqn:E.
  assert (s1 = sec) as ->.
  { pose proof (open_section_plain s0 sec y Hdot) as H. by rewrite E in H. }
  assert (T1 : tables y1 = tables y).
  { unfold tables. pose proof (open_section_builder s0 sec y) as H1.
    pose proof (open_section_arrays s0 sec y) as H2. rewrite E in H1, H2.
    simpl in H1, H2. by rewrite H1, H2. }
  rewrite parseX_lines_app.
  destruct (parse_entries_lines x sec kvs y1 Hkvs) as (y2 & -> & T2).
  exists y2. split; [done |]. by rewrite <- T1.
Qed.

Lemma foldl_entries_of {A} (f : A → str * (str * str) → A) a doc :
  foldl f a (entries_of doc)
  = foldl (λ a skv, foldl (λ a kv, f a (skv.1, kv)) a skv.2) a doc.
Proof.
  revert a. induction doc as [| [sec kvs] doc IH]; intros a; [done |].
  unfold entries_of. rewrite bind_cons, foldl_app. fold (entries_of doc).
  rewrite IH. cbn [foldl fst snd]. f_equal.
  generalize a. induction kvs as [| kv kvs IHk]; intros a'; [done |].
  cbn [fmap list_fmap foldl]. apply IHk.
Qed.

Lemma parse_document_lines x doc s0 y :
  doc_good x doc →
  ∃ s' y', IniParserX.parse_lines (document_lines x doc) (s0, y) = Returns tt (s', y')
           ∧ tables y' = foldl (replay_entry x) (tables y) (entries_of doc).
Proof.
  intros H. rewrite foldl_entries_of. revert s0 y.
  induction H as [| [sec kvs] doc [Hs Hkvs] Hdoc IH]; intros s0 y.
  - by exists s0, y.
  - unfold document_lines. cbn [map concat]. fold (document_lines x doc).
    rewrite parseX_lines_app. cbn [fst snd] in *.
    destruct (parse_section_lines x sec kvs s0 y Hs Hkvs) as (y1 & -> & T1).
    destruct (IH sec y1) as (s2 & y2 & E2 & T2).
    exists s2, y2. split; [done |]. cbn [foldl fst snd]. by rewrite <- T1.
Qed.

(** *** The tables that the written lines rebuild *)

Lemma builder_ext (b1 b2 : Builder) :
  no_empty_section b1 → no_empty_section b2 →
  (∀ sec k, entry b1 sec k = entry b2 sec k) → b1 = b2.
Proof.
  intros N1 N2 H. apply map_eq. intros sec.
  destruct (b1 !! sec) as [m1 |] eqn:E1, (b2 !! sec) as [m2 |] eqn:E2.
  - f_equal. apply map_eq. intros k. specialize (H sec k).
    unfold entry in H. by rewrite E1, E2 in H.
  - exfalso. apply (N1 _ _ E1). apply map_eq. intros k. specialize (H sec k).
    unfold entry in H. rewrite E1, E2 in H. simpl in H. by rewrite H, lookup_empty.
  - exfalso. apply (N2 _ _ E2). apply map_eq. intros k. specialize (H sec k).
    unfold entry in H. rewrite E1, E2 in H. simpl in H. by rewrite <- H, lookup_empty.
  - done.
Qed.

Section replay.
Context (x : IniParserX.parser).

Lemma replay_builder E T :
  (foldl (replay_entry x) T E).1
  = foldl (λ b skv, put skv.1 skv.2.1 skv.2.2 b) T.1 E.
Proof.
  revert T. induction E as [| [sec [k v]] E IH]; intros T; [done |].
  cbn [foldl]. by rewrite IH.
Qed.

Lemma replay_no_empty E T :
  no_empty_section T.1 → no_empty_section (foldl (replay_entry x) T E).1.
Proof.
  rewrite replay_builder. generalize T.1. clear T.
  induction E as [| [sec [k v]] E IH]; intros b Hb; [done |].
  cbn [foldl]. apply IH. by apply no_empty_section_put.
Qed.

Lemma replay_entries E :
  NoDup E →
  (∀ sec k v v', (sec, (k, v)) ∈ E → (sec, (k, v')) ∈ E → v = v') →
  ∀ T sec k,
    (∀ v, (sec, (k, v)) ∈ E → entry (foldl (replay_entry x) T E).1 sec k = Some v)
    ∧ ((∀ v, (sec, (k, v)) ∉ E) →
       entry (foldl (replay_entry x) T E).1 sec k = entry T.1 sec k).
Proof.
  induction E as [| [s0 [k0 v0]] E IH]; intros Hnd Hfun T sec k.
  { split; [| done]. intros v Hin. by apply elem_of_nil in Hin. }
  apply NoDup_cons in Hnd as [Hnotin Hnd].
  assert (Hfun' : ∀ sec k v v', (sec, (k, v)) ∈ E → (sec, (k, v')) ∈ E → v = v').
  { intros ???? H1 H2. eapply Hfun; by right. }
  specialize (IH Hnd Hfun').
  cbn [foldl]. split.
  - intros v Hin. apply elem_of_cons in Hin as [[= -> -> ->] | Hin].
    + destruct (IH (replay_entry x T (s0, (k0, v0))) s0 k0) as [_ Hb].
      rewrite Hb.
      * cbn [replay_entry fst]. by rewrite entry_put, decide_True.
      * intros v' Hin'. assert (v0 = v') as <-; [| done].
        eapply Hfun; [left | by right].
    + by apply IH.
  - intros Hno. destruct (IH (replay_entry x T (s0, (k0, v0))) sec k) as [_ Hb].
    rewrite Hb.
    + cbn [replay_entry fst]. rewrite entry_put, decide_False; [done |].
      intros [-> ->]. apply (Hno v0). left.
    + intros v Hin. apply (Hno v). by right.
Qed.

Lemma replay_arrays E :
  NoDup E →
  (∀ sec k v sec' k' v',
     (sec, (k, v)) ∈ E → (sec', (k', v')) ∈ E → array_key k → array_key k' →
     array_path sec k = array_path sec' k' → sec = sec' ∧ k = k') →
  (∀ sec k v v', (sec, (k, v)) ∈ E → (sec, (k, v')) ∈ E → v = v') →
  ∀ T p,
    (∀ sec k v, (sec, (k, v)) ∈ E → array_key k → p = array_path sec k →
       (foldl (replay_entry x) T E).2 !! p
       = Some (default [] (T.2 !! p) ++ default [] (IniParserX.arrays x !! p)))
    ∧ ((∀ sec k v, (sec, (k, v)) ∈ E → array_key k → p ≠ array_path sec k) →
       (foldl (replay_entry x) T E).2 !! p = T.2 !! p).
Proof.
  induction E as [| [s0 [k0 v0]] E IH]; intros Hnd Hinj Hfun T p.
  { split; [| done]. intros sec k v Hin. by apply elem_of_nil in Hin. }
  apply NoDup_cons in Hnd as [Hnotin Hnd].
  assert (Hinj' : ∀ sec k v sec' k' v',
     (sec, (k, v)) ∈ E → (sec', (k', v')) ∈ E → array_key k → array_key k' →
     array_path sec k = array_path sec' k' → sec = sec' ∧ k = k').
  { intros ?????? H1 H2. eapply Hinj; by right. }
  assert (Hfun' : ∀ sec k v v', (sec, (k, v)) ∈ E → (sec, (k, v')) ∈ E → v = v').
  { intros ???? H1 H2. eapply Hfun; by right. }
  specialize (IH Hnd Hinj' Hfun').
  cbn [foldl]. split.
  - intros sec k v Hin Hak ->. apply elem_of_cons in Hin as [[= -> -> ->] | Hin].
    + destruct (IH (replay_entry x T (s0, (k0, v0))) (array_path s0 k0)) as [_ Hb].
      rewrite Hb.
      * cbn [replay_entry snd]. destruct Hak as [pt Hpt]. rewrite Hpt.
        by rewrite lookup_insert_eq.
      * intros sec' k' v' Hin' Hak' Heq.
        destruct (Hinj s0 k0 v0 sec' k' v') as [-> ->]; try done; [left | by right |].
        assert (v0 = v') as <-; [eapply Hfun; [left | by right] |]. done.
    + destruct (IH (replay_entry x T (s0, (k0, v0))) (array_path sec k)) as [Ha _].
      rewrite (Ha sec k v) by done. do 2 f_equal.
      cbn [replay_entry snd].
      destruct (find_sub k0 (lit "[]")) as [pt |] eqn:F; [| done].
      rewrite lookup_insert_ne; [done |].
      intros Heq.
      destruct (Hinj s0 k0 v0 sec k v) as [-> ->]; try done;
        [left | by right | unfold array_key; rewrite F; eauto |].
      assert (v0 = v) as <-; [eapply Hfun; [left | by right] |]. done.
  - intros Hno. destruct (IH (replay_entry x T (s0, (k0, v0))) p) as [_ Hb].
    rewrite Hb.
    + cbn [replay_entry snd].
      destruct (find_sub k0 (lit "[]")) as [pt |] eqn:F; [| done].
      rewrite lookup_insert_ne; [done |].
      intros Heq. apply (Hno s0 k0 v0); [left | unfold array_key; rewrite F; eauto | done].
    + intros sec k v Hin. apply (Hno sec k v). by right.
Qed.
End replay.

(** *** Listings of a document *)

Lemma enumerates_sections doc b sec :
  enumerates doc b → (sec ∈ doc.*1 ↔ is_Some (b !! sec)).
Proof.
  intros [Hp _]. rewrite Hp. apply all_sections_spec.
Qed.

Lemma enumerates_entry doc b sec k v :
  enumerates doc b → ((sec, (k, v)) ∈ entries_of doc ↔ entry b sec k = Some v).
Proof.
  intros Hen. pose proof Hen as [Hp Hall]. rewrite Forall_forall in Hall.
  unfold entries_of. rewrite list_elem_of_bind. split.
  - intros ([s kvs] & Hin & Hd). apply list_elem_of_fmap in Hin as ([k' v'] & [= -> -> ->] & Hin).
    destruct (Hall _ Hd) as (m & Hm & Hperm). cbn [fst snd] in *.
    rewrite Hperm in Hin. apply elem_of_map_to_list in Hin.
    unfold entry. by rewrite Hm.
  - intros He. unfold entry in He.
    destruct (b !! sec) as [m |] eqn:Hm; [| done]. simpl in He.
    assert (Hs : sec ∈ doc.*1) by (apply (enumerates_sections _ b); eauto).
    apply list_elem_of_fmap in Hs as ([s kvs] & -> & Hd).
    exists (s, kvs). split; [| done].
    destruct (Hall _ Hd) as (m' & Hm' & Hperm). cbn [fst snd] in *.
    assert (m' = m) as -> by congruence.
    apply list_elem_of_fmap. exists (k, v). split; [done |].
    rewrite Hperm. by apply elem_of_map_to_list.
Qed.

Lemma NoDup_fst_functional {A B} (l : list (A * B)) a b1 b2 :
  NoDup l.*1 → (a, b1) ∈ l → (a, b2) ∈ l → b1 = b2.
Proof.
  induction l as [| [a' b'] l IH]; intros Hnd H1 H2.
  { by apply elem_of_nil in H1. }
  rewrite fmap_cons in Hnd. apply NoDup_cons in Hnd as [Hnotin Hnd].
  assert (Hfst : ∀ b, (a', b) ∈ l → False).
  { intros b Hb. apply Hnotin. apply list_elem_of_fmap. by exists (a', b). }
  apply elem_of_cons in H1 as [[= -> ->] | H1], H2 as [[= <-] | H2].
  - done.
  - by destruct (Hfst b2).
  - subst. by destruct (Hfst b1).
  - by apply IH.
Qed.

Lemma enumerates_NoDup doc b : enumerates doc b → NoDup (entries_of doc).
Proof.
  intros Hen. pose proof Hen as [Hp Hall]. rewrite Forall_forall in Hall.
  assert (Hnd : NoDup doc.*1).
  { rewrite Hp. apply NoDup_fst_map_to_list. }
  unfold entries_of. apply NoDup_bind.
  - intros [s1 kvs1] [s2 kvs2] [s kv] H1 H2 Hy1 Hy2.
    apply list_elem_of_fmap in Hy1 as (kv1 & [= -> ->] & _).
    apply list_elem_of_fmap in Hy2 as (kv2 & [= <- _] & _).
    cbn [fst snd] in *. f_equal.
    eapply NoDup_fst_functional; [exact Hnd | exact H1 | exact H2].
  - intros [s kvs] Hd. cbn [fst snd].
    destruct (Hall _ Hd) as (m & Hm & Hperm). cbn [fst snd] in *.
    apply NoDup_fmap_2; [intros ?? [= ->]; done |].
    rewrite Hperm. apply NoDup_map_to_list.
  - by apply NoDup_fmap_1 in Hnd.
Qed.

Lemma enumerate_enumerates b : enumerates (enumerate b) b.
Proof.
  unfold enumerates, enumerate. split.
  - rewrite <- list_fmap_compose. done.
  - apply Forall_forall. intros skv Hin.
    apply list_elem_of_fmap in Hin as ([s m] & -> & Hin).
    apply elem_of_map_to_list in Hin. exists m. done.
Qed.

Lemma doc_good_of_parsed x doc :
  parsed x → round_trip_ready x → enumerates doc (IniParserX.builder x) →
  doc_good x doc.
Proof.
  intros [P1 P2 P3 P4 P5 P6] (R1 & R2 & R3) Hen.
  pose proof Hen as [Hp Hall]. rewrite Forall_forall in Hall.
  apply Forall_forall. intros [sec kvs] Hd. cbn [fst snd].
  assert (Hsec : is_Some (IniParserX.builder x !! sec)).
  { apply (enumerates_sections doc); [done |]. apply list_elem_of_fmap. by exists (sec, kvs). }
  split.
  - destruct (R1 _ Hsec). split_and!; try done. by apply P1.
  - apply Forall_forall. intros [k v] Hkv.
    assert (He : entry (IniParserX.builder x) sec k = Some v).
    { apply (enumerates_entry doc); [done |]. unfold entries_of.
      apply list_elem_of_bind. exists (sec, kvs). split; [| done].
      apply list_elem_of_fmap. by exists (k, v). }
    destruct (P3 _ _ _ He) as [Hk Hv].
    assert (Hs : head k ≠ Some ";"%char) by (apply (R2 sec); eauto).
    unfold entry_good, elements_of. cbn [fst snd].
    split_and!; try done.
    + destruct (find_sub k (lit "[]")) as [pt |] eqn:F.
      * assert (Hak : array_key k) by (unfold array_key; rewrite F; eauto).
        destruct (P4 sec k) as [l Hl]; [eauto | done |]. rewrite Hl. cbn [default].
        apply Forall_forall. intros e Hin.
        destruct (P5 _ _ _ Hl Hin) as (s' & k' & Hak' & Hpath & Hin' & Hve).
        destruct (R3 sec k s' k') as [-> ->]; eauto.
      * by constructor.
    + destruct (find_sub k (lit "[]")) as [pt |] eqn:F; [| done].
      assert (Hak : array_key k) by (unfold array_key; rewrite F; eauto).
      destruct (P4 sec k) as [l Hl]; [eauto | done |]. rewrite Hl. cbn [default].
      destruct (P6 _ _ Hl) as (s' & k' & v' & Hak' & Hpath & He' & Hlast).
      destruct (R3 sec k s' k') as [-> ->]; eauto. unfold id. congruence.
    + intros Hak. apply P4; eauto.
Qed.

Lemma stripped_no_newline s : stripped s → newline ∉ s.
Proof. by intros (_ & _ & _ & _ & H). Qed.

Lemma document_lines_no_newline x doc :
  doc_good x doc → Forall (λ l, newline ∉ l) (document_lines x doc).
Proof.
  induction 1 as [| [sec kvs] doc [((_ & Hn & _) & _) Hkvs] Hdoc IH]; [constructor |].
  unfold document_lines. cbn [map concat]. apply Forall_app. split; [| done].
  unfold section_lines. cbn [fst snd] in *. constructor.
  { change (lit "[" ++ sec ++ lit "]") with ("["%char :: sec ++ ["]"%char]). chars. }
  apply Forall_app. split; [| repeat constructor; apply not_elem_of_nil].
  apply Forall_concat, Forall_fmap, Forall_forall. intros [k v] Hkv. cbn.
  rewrite Forall_forall in Hkvs. destruct (Hkvs _ Hkv) as ([Hk _] & _ & Hes & _).
  unfold entry_lines. cbn [fst snd] in *. apply Forall_fmap.
  eapply Forall_impl; [exact Hes |]. intros e [He _]. cbn.
  apply stripped_no_newline in Hk, He.
  change (lit " = " ++ e) with (space :: "="%char :: space :: e). chars.
Qed.

(** *** The theorem *)

Lemma NoDup_omap_inj {A B} (f : A → option B) (l : list A) a b y :
  NoDup (omap f l) → a ∈ l → b ∈ l → f a = Some y → f b = Some y → a = b.
Proof.
  induction l as [| c l IH]; intros Hnd Ha Hb Hfa Hfb.
  { by apply elem_of_nil in Ha. }
  assert (Hin : ∀ d, d ∈ l → f d = Some y → y ∈ omap f l).
  { intros d Hd Hfd. apply list_elem_of_omap. eauto. }
  cbn [omap list_omap] in Hnd.
  apply elem_of_cons in Ha as [-> | Ha], Hb as [-> | Hb]; [done | | |].
  - rewrite Hfa in Hnd. apply NoDup_cons in Hnd as [Hn _]. destruct Hn. eauto.
  - rewrite Hfb in Hnd. apply NoDup_cons in Hnd as [Hn _]. destruct Hn. eauto.
  - apply IH; try done. destruct (f c); [by apply NoDup_cons in Hnd as [_ ?] | done].
Qed.

Lemma round_trip_check_ready x : round_trip_check x = true → round_trip_ready x.
Proof.
  unfold round_trip_check. rewrite !andb_true_iff, !bool_decide_eq_true.
  intros [[H1 H2] H3].
  pose proof (enumerate_enumerates (IniParserX.builder x)) as Hen.
  rewrite Forall_forall in H1. rewrite Forall_forall in H2. split_and!.
  - intros sec Hs. apply H1. by apply all_sections_spec.
  - intros sec k [v Hv]. apply (H2 (sec, (k, v))). by apply (enumerates_entry _ _ _ _ _ Hen).
  - intros sec k sec' k' [v Hv] [v' Hv'] Hak Hak' Hp.
    apply (enumerates_entry _ _ _ _ _ Hen) in Hv, Hv'.
    assert (E : (sec, (k, v)) = (sec', (k', v'))).
    { eapply (NoDup_omap_inj entry_path); [exact H3 | done | done | |].
      - unfold entry_path. cbn [fst snd]. by rewrite decide_True.
      - unfold entry_path. cbn [fst snd]. rewrite decide_True by done. by rewrite Hp. }
    by injection E as -> -> _.
Qed.

Lemma replayed_tables x doc :
  parsed x → round_trip_ready x → enumerates doc (IniParserX.builder x) →
  foldl (replay_entry x) (tables IniParserX.empty) (entries_of doc) = tables x.
Proof.
  intros Px (R1 & R2 & R3) Hen.
  pose proof (enumerates_NoDup _ _ Hen) as Hnd.
  assert (Hfun : ∀ sec k v v',
            (sec, (k, v)) ∈ entries_of doc → (sec, (k, v')) ∈ entries_of doc → v = v').
  { intros sec k v v' H1 H2. apply (enumerates_entry _ _ _ _ _ Hen) in H1, H2. congruence. }
  assert (Hinj : ∀ sec k v sec' k' v',
            (sec, (k, v)) ∈ entries_of doc → (sec', (k', v')) ∈ entries_of doc →
            array_key k → array_key k' →
            array_path sec k = array_path sec' k' → sec = sec' ∧ k = k').
  { intros sec k v sec' k' v' H1 H2. apply (enumerates_entry _ _ _ _ _ Hen) in H1, H2.
    apply R3; eauto. }
  set (T := foldl (replay_entry x) (tables IniParserX.empty) (entries_of doc)).
  rewrite (surjective_pairing T). unfold tables. subst T. f_equal.
  - apply builder_ext.
    + apply replay_no_empty, no_empty_section_empty.
    + apply Px.
    + intros sec k.
      destruct (replay_entries x (entries_of doc) Hnd Hfun (tables IniParserX.empty) sec k)
        as [Ha Hb].
      destruct (entry (IniParserX.builder x) sec k) as [v |] eqn:E.
      * apply Ha. by apply (enumerates_entry _ _ _ _ _ Hen).
      * rewrite Hb.
        -- unfold entry. simpl. by rewrite lookup_empty.
        -- intros v Hin. apply (enumerates_entry _ _ _ _ _ Hen) in Hin. congruence.
  - apply map_eq. intros p.
    destruct (replay_arrays x (entries_of doc) Hnd Hinj Hfun (tables IniParserX.empty) p)
      as [Ha Hb].
    destruct (IniParserX.arrays x !! p) as [l |] eqn:E.
    + destruct (parsed_last x Px _ _ E) as (sec & k & v & Hak & -> & He & _).
      rewrite (Ha sec k v); [| by apply (enumerates_entry _ _ _ _ _ Hen) | done | done].
      simpl. by rewrite lookup_empty.
    + rewrite Hb; [simpl; by rewrite lookup_empty |].
      intros sec k v Hin Hak ->. apply (enumerates_entry _ _ _ _ _ Hen) in Hin.
      destruct (parsed_registered x Px sec k) as [l Hl]; [eauto | done |]. congruence.
Qed.

(** C1, for the documents that the format can carry.  An object that a
    load has filled, whose section names have no closing bracket and no
    leading [.], whose keys have no leading [;], and whose array keys all
    have their own path in the array table, is written by [save_ini_file]
    without an exception, whatever the order in which the hash maps are
    iterated, and a load of the written text into a fresh object gives the
    same document and the same array table. *)
Theorem round_trip
    (text sec0 sec : str) (x : IniParserX.parser)
    (doc : list (str * list (str * str))) (sec1 : str) :
  (N.of_nat (length sec0 + length text) < npos)%N →
  "="%char ∉ sec0 →
  newline ∉ sec0 →
  IniParserX.load_ini_file (Some text) (sec0, IniParserX.empty) = Returns true (sec, x) →
  round_trip_ready x →
  enumerates doc (IniParserX.builder x) →
  ∃ saved,
    IniParserX.save_in_order doc x = inr saved
    ∧ ∃ sec' x',
        IniParserX.load_ini_file (Some saved) (sec1, IniParserX.empty)
        = Returns true (sec', x')
        ∧ IniParserX.builder x' = IniParserX.builder x
        ∧ IniParserX.arrays x' = IniParserX.arrays x.
Proof.
  intros Hlen He Hn Hload Hready Hen.
  assert (Px : parsed x).
  { unfold IniParserX.load_ini_file in Hload.
    destruct (IniParserX.parse_lines (getlines text) (sec0, IniParserX.empty))
      as [[] [s y] | e w] eqn:E; [| done].
    injection Hload as -> ->.
    eapply parse_lines_parsed; [apply parsed_empty | exact He | exact Hn | | | exact E].
    - apply getlines_no_newline.
    - pose proof (getlines_total text). lia. }
  pose proof (doc_good_of_parsed x doc Px Hready Hen) as Hgood.
  exists (text_of_lines (document_lines x doc)). split.
  { by apply save_in_order_text. }
  unfold IniParserX.load_ini_file.
  rewrite getlines_text_of_lines by (by apply document_lines_no_newline).
  destruct (parse_document_lines x doc sec1 IniParserX.empty Hgood) as (s' & y' & -> & T).
  exists s', y'. split; [done |].
  rewrite (replayed_tables x doc Px Hready Hen) in T.
  unfold tables in T. by injection T as -> ->.
Qed.

Lemma round_trip_witness :
  let text := lit "[General]" ++ [newline] ++ lit "version = 1.0 ; current" ++ [newline]
              ++ lit "items[] = a" ++ [newline] ++ lit "items[] = b" ++ [newline]
              ++ lit "a;b = c;d" ++ [newline] in
  let loaded := IniParserX.load_ini_file (Some text) ([], IniParserX.empty) in
  let x := (state_of loaded).2 in
  IniParserX.arrays x = {[ lit "General/items" := [lit "a"; lit "b"] ]}
  ∧ ∃ saved,
      IniParserX.save_ini_file x = inr saved
      ∧ ∃ sec' x',
          IniParserX.load_ini_file (Some saved) (lit "General", IniParserX.empty)
          = Returns true (sec', x')
          ∧ IniParserX.builder x' = IniParserX.builder x
          ∧ IniParserX.arrays x' = IniParserX.arrays x.
Proof.
  intros text loaded x. split; [vm_compute; reflexivity |].
  apply (round_trip text [] (lit "General") x).
  - vm_compute. reflexivity.
  - apply not_elem_of_nil.
  - apply not_elem_of_nil.
  - vm_compute. reflexivity.
  - apply round_trip_check_ready. vm_compute. reflexivity.
  - apply enumerate_enumerates.
Defined.

(** C1 fails on an indented comment with an [=]: the line is an
    assignment whose key starts with [;], the written line is a comment,
    and the second load finds nothing. *)
Lemma indented_comment_is_lost :
  let text := lit "[General]" ++ [newline] ++ lit " ; timeout = 30" ++ [newline] in
  let loaded := IniParserX.load_ini_file (Some text) ([], IniParserX.empty) in
  let x := (state_of loaded).2 in
  let saved := lit "[General]" ++ [newline] ++ lit "; timeout = 30" ++ [newline]
               ++ [newline] in
  loaded = Returns true (lit "General", x)
  ∧ IniParserX.builder x = {[ lit "General" := {[ lit "; timeout" := lit "30" ]} ]}
  ∧ IniParserX.save_ini_file x = inr saved
  ∧ ∃ x', IniParserX.load_ini_file (Some saved) (lit "General", IniParserX.empty)
          = Returns true (lit "General", x')
          ∧ IniParserX.builder x' = ∅
          ∧ IniParserX.builder x' ≠ IniParserX.builder x.
Proof.
  intros text loaded x saved. split_and!; try (vm_compute; reflexivity).
  eexists. split_and!; [vm_compute; reflexivity | vm_compute; reflexivity |].
  vm_compute. discriminate.
Qed.

(** ** The array table *)

Lemma get_array_name_plain K :
  ¬ has_sub (lit "[]") K → IniParserX.get_array_name K = K.
Proof.
  intros H. apply find_sub_None in H. unfold IniParserX.get_array_name. by rewrite H.
Qed.

(** An entry put under [K ++ "[]"] is not found under [K]. *)
Lemma include_after_put_suffixed b S K v :
  include b (S ++ lit "/" ++ K) = false →
  include (put S (K ++ lit "[]") v b) (S ++ lit "/" ++ K) = false.
Proof.
  intros H. destruct (decide ("/"%char ∈ S)) as [Hin | Hnot].
  - destruct (find_chr_elem_of _ _ Hin) as [i Hi].
    pose proof (find_chr_lt _ _ _ Hi) as Hlt.
    unfold include in *. rewrite (find_chr_app_l _ _ _ _ Hi) in *.
    rewrite substr_in_0 in *. rewrite take_app_le in * by lia.
    unfold put. rewrite lookup_insert_ne; [done |].
    intros E. apply (f_equal length) in E. rewrite length_take in E. lia.
  - rewrite include_qualified in * by done. rewrite put_lookup.
    rewrite lookup_insert_ne.
    2:{ intros E. apply (f_equal length) in E. rewrite length_app in E. simpl in E. lia. }
    unfold section_of. destruct (b !! S) as [m |]; [done |].
    simpl. by rewrite lookup_empty.
Qed.

(** After a successful [add_array(S, K, E)] with a key without the
    suffix, [value(S, K)] throws [KeyNotFound], for every section, key and
    array. *)
Lemma value_after_add_array S K E x x' :
  ¬ has_sub (lit "[]") K →
  IniParserX.add_array S K E x = Returns tt x' →
  IniParserX.value2 S K x' = Throws KeyNotFound x'.
Proof.
  intros HK. unfold IniParserX.add_array. rewrite get_array_name_plain by done.
  destruct (negb (include _ ((S ++ lit "/" ++ K) ++ lit "[]"))); [| done].
  destruct (include (IniParserX.builder x) (S ++ lit "/" ++ K)) eqn:Hinc; [done |].
  cbn [negb andb]. destruct (last E) as [back |]; [| done].
  intros [= <-]. unfold IniParserX.value2. cbn [IniParserX.builder IniParserX.set_arrays IniParserX.set_builder].
  rewrite (include_after_put_suffixed _ _ _ _ Hinc).
  by destruct (negb (include _ S)).
Qed.

(** The two-argument overload reads the stripped name, for a section
    name without a closing bracket. *)
Lemma size_of_array2_spec S K x :
  "]"%char ∉ S →
  IniParserX.size_of_array2 S K x
  = match IniParserX.arrays x !! array_path S K with
    | Some l => inr (length l)
    | None => inl KeyNotArray
    end.
Proof.
  intros HS. unfold IniParserX.size_of_array2. fold (array_path S K).
  unfold IniParserX.is_array. rewrite array_path_no_suffix by done.
  unfold IniParserX.arrays_at.
  by destruct (IniParserX.arrays x !! array_path S K).
Qed.

Lemma get_array_name_idem k :
  IniParserX.get_array_name (IniParserX.get_array_name k) = IniParserX.get_array_name k.
Proof.
  pose proof (get_array_name_no_suffix k) as H.
  unfold IniParserX.get_array_name at 1. by rewrite H.
Qed.

(** The one-argument overload tests the stripped name and reads the name
    as it was given. *)
Lemma size_of_array_spec key x :
  IniParserX.size_of_array key x
  = if IniParserX.is_array key x then
      match IniParserX.arrays x !! key with
      | Some l => inr (length l)
      | None => inl std_out_of_range
      end
    else inl KeyNotArray.
Proof.
  unfold IniParserX.size_of_array.
  assert (E : IniParserX.is_array (IniParserX.get_array_name key) x
              = IniParserX.is_array key x).
  { unfold IniParserX.is_array. by rewrite get_array_name_idem. }
  rewrite E. unfold IniParserX.arrays_at.
  by destruct (IniParserX.arrays x !! key).
Qed.

(** C8 at two call sequences.  After [add_array("s", "items", {"a"})],
    [remove_key("s", "items[]")] removes the entry and the section and
    leaves the path [s/items] in the array table; and
    [remove_array("s", "items[]")] removes the path and leaves the entry
    [items[]], because it erases [key + "[]"] and not [real_key + "[]"]. *)
Theorem array_index_loses_consistency :
  let x1 := after_call (call_add_array (lit "s") (lit "items") [lit "a"]) IniParserX.empty in
  let x2 := after_call (call_remove_key (lit "s") (lit "items[]")) x1 in
  let x3 := after_call (call_remove_array (lit "s") (lit "items[]")) x1 in
  (reachable x2
   ∧ IniParserX.remove_key (lit "s") (lit "items[]") x1 = Returns tt x2
   ∧ IniParserX.arrays x2 !! lit "s/items" = Some [lit "a"]
   ∧ IniParserX.builder x2 = ∅
   ∧ ¬ arrays_have_entries x2)
  ∧ (reachable x3
     ∧ IniParserX.remove_array (lit "s") (lit "items[]") x1 = Returns tt x3
     ∧ IniParserX.arrays x3 = ∅
     ∧ IniParserX.builder x3 = {[ lit "s" := {[ lit "items[]" := lit "a" ]} ]}
     ∧ ¬ entries_have_arrays x3).
Proof.
  intros x1 x2 x3.
  assert (H1 : reachable x1) by (apply reachable_call, reachable_empty).
  split; split_and!.
  - by apply reachable_call.
  - vm_compute. reflexivity.
  - vm_compute. reflexivity.
  - vm_compute. reflexivity.
  - intros H. destruct (H (lit "s/items")) as (S & K & _ & [v Hv]).
    + vm_compute. eauto.
    + change (IniParserX.builder x2) with (∅ : Builder) in Hv.
      unfold section_of in Hv. by rewrite lookup_empty in Hv.
  - by apply reachable_call.
  - vm_compute. reflexivity.
  - vm_compute. reflexivity.
  - vm_compute. reflexivity.
  - intros H. destruct (H (lit "s") (lit "items")) as [l Hl].
    + vm_compute. eauto.
    + change (IniParserX.arrays x3) with (∅ : gmap str (list str)) in Hl.
      by rewrite lookup_empty in Hl.
Qed.

(** C3 at [add_array("Log", "files", ...)].  [value("Log", "files")]
    throws [KeyNotFound], because the test of [include] comes before the
    test of [is_array]; [operator[]] on the same name throws
    [KeyIsArray]. *)
Theorem value_of_added_array_is_not_found :
  let x := state_of (IniParserX.add_array (lit "Log") (lit "files")
                       [lit "app.log"; lit "error.log"] IniParserX.empty) in
  IniParserX.add_array (lit "Log") (lit "files")
    [lit "app.log"; lit "error.log"] IniParserX.empty = Returns tt x
  ∧ IniParserX.is_array2 (lit "Log") (lit "files") x = true
  ∧ IniParserX.value2 (lit "Log") (lit "files") x = Throws KeyNotFound x
  ∧ IniParserX.value (lit "Log/files") x = Throws KeyNotFound x
  ∧ IniParserX.index (lit "Log/files") x = Throws KeyIsArray x
  ∧ IniParserX.value2 (lit "Log") (lit "files[]") x = Throws KeyIsArray x.
Proof. vm_compute. done. Qed.

(** C4 at the argument [Log/files[]].  The one-argument [size_of_array]
    tests the stripped name and then reads [arrays.at(key)] with the
    suffix still on: [std::out_of_range].  The two-argument overload and
    [value_of_array] read the stripped name. *)
Theorem size_of_suffixed_array_is_out_of_range :
  let x := state_of (IniParserX.add_array (lit "Log") (lit "files")
                       [lit "app.log"; lit "error.log"] IniParserX.empty) in
  IniParserX.arrays x !! lit "Log/files" = Some [lit "app.log"; lit "error.log"]
  ∧ IniParserX.is_array (lit "Log/files[]") x = true
  ∧ IniParserX.size_of_array (lit "Log/files[]") x = inl std_out_of_range
  ∧ IniParserX.size_of_array (lit "Log/files") x = inr 2
  ∧ IniParserX.size_of_array2 (lit "Log") (lit "files[]") x = inr 2
  ∧ IniParserX.size_of_array2 (lit "Log") (lit "files") x = inr 2
  ∧ IniParserX.value_of_array (lit "Log/files[]") 0 x = inr (lit "app.log").
Proof. vm_compute. done. Qed.

(** * Further properties *)

(** ** Looking up *)

Lemma split_at_slash key x :
  find_chr key "/" = Some x →
  key = take x key ++ lit "/" ++ drop (x + 1) key ∧ "/"%char ∉ take x key.
Proof.
  intros H. apply find_chr_Some in H as [H1 H2]. split; [| done].
  rewrite <- (take_drop_middle key x "/"%char H1) at 1.
  by rewrite Nat.add_1_r.
Qed.

Lemma entry_lookup b S K :
  entry b S K = match b !! S with Some m => m !! K | None => None end.
Proof. unfold entry. by destruct (b !! S). Qed.

Lemma include_entry b S K :
  "/"%char ∉ S → include b (S ++ lit "/" ++ K) = bool_decide (is_Some (entry b S K)).
Proof.
  intros H. rewrite include_qualified, entry_lookup by done.
  destruct (b !! S); [done |].
  symmetry. apply bool_decide_eq_false_2. by intros [? ?].
Qed.

(** X1.  [include(key)] looks for a section when the key has no [/], and for
    the entry whose section is the text before the first [/] otherwise. *)
Theorem include_spec (b : Builder) (key : str) :
  include b key = true ↔
    (("/"%char ∉ key) ∧ is_Some (b !! key))
    ∨ (∃ S K, key = S ++ lit "/" ++ K ∧ ("/"%char ∉ S) ∧ is_Some (entry b S K)).
Proof.
  split.
  - intros H. destruct (find_chr key "/") as [x |] eqn:E.
    + right. destruct (split_at_slash _ _ E) as [E1 E2].
      exists (take x key), (drop (x + 1) key). split_and!; [done | done |].
      rewrite E1, include_entry in H by done.
      by apply bool_decide_eq_true in H.
    + left. apply find_chr_None in E. split; [done |].
      rewrite include_plain in H by done. by apply bool_decide_eq_true in H.
  - intros [[H1 H2] | (S & K & -> & H1 & H2)].
    + rewrite include_plain by done. by apply bool_decide_eq_true_2.
    + rewrite include_entry by done. by apply bool_decide_eq_true_2.
Qed.

Lemma include_section_of_entry b S K :
  "/"%char ∉ S → is_Some (entry b S K) → include b S = true.
Proof.
  intros H1 H2. rewrite include_plain by done.
  apply bool_decide_eq_true_2. by eapply entry_section.
Qed.

Lemma subscript_entry S K b v : entry b S K = Some v → subscript S K b = (b, v).
Proof.
  rewrite entry_lookup. destruct (b !! S) as [m |] eqn:E; [| done].
  intros H. by eapply subscript_present.
Qed.

Lemma value2_entry S K b :
  "/"%char ∉ S →
  value2 S K b
  = match entry b S K with
    | Some v => Returns v b
    | None => Throws KeyNotFound b
    end.
Proof.
  intros HS. unfold value2. rewrite include_entry by done.
  destruct (entry b S K) as [v |] eqn:E.
  - rewrite (include_section_of_entry b S K) by (rewrite ?E; eauto). simpl.
    rewrite ?bool_decide_eq_true_2 by eauto. simpl.
    by rewrite (subscript_entry _ _ _ _ E).
  - rewrite bool_decide_eq_false_2 by (by intros [? ?]). simpl.
    by destruct (include b S).
Qed.

(** X2.  The two forms of [value] read the same entry and leave the document
    as it is: the stored value when section [S] has the key [K],
    [KeyNotFound] otherwise, and [KeyNotFound] for a key without [/]. *)
Theorem value_reads (S K : str) (b : Builder) :
  "/"%char ∉ S →
  value (S ++ lit "/" ++ K) b = value2 S K b
  ∧ value2 S K b
    = match entry b S K with
      | Some v => Returns v b
      | None => Throws KeyNotFound b
      end
  ∧ value S b = Throws KeyNotFound b.
Proof.
  intros HS. split_and!.
  - rewrite value2_entry by done. unfold value.
    rewrite find_chr_qualified, include_entry by done.
    rewrite qualified_section, qualified_key.
    destruct (entry b S K) as [v |] eqn:E.
    + rewrite bool_decide_eq_true_2 by eauto. simpl.
      by rewrite (subscript_entry _ _ _ _ E).
    + by rewrite bool_decide_eq_false_2 by (by intros [? ?]).
  - by apply value2_entry.
  - unfold value. apply find_chr_None in HS. by rewrite HS.
Qed.

Lemma value_reads_witness :
  let b : Builder := {[ lit "Config" := {[ lit "Theme" := lit "Dark" ]} ]} in
  value (lit "Config/Theme") b = Returns (lit "Dark") b
  ∧ value2 (lit "Config") (lit "Language") b = Throws KeyNotFound b.
Proof.
  intros b.
  assert (H : "/"%char ∉ lit "Config") by by_evaluation.
  split.
  - destruct (value_reads (lit "Config") (lit "Theme") b H) as (E1 & E2 & _).
    change (lit "Config/Theme") with (lit "Config" ++ lit "/" ++ lit "Theme").
    rewrite E1, E2. reflexivity.
  - destruct (value_reads (lit "Config") (lit "Language") b H) as (_ & E2 & _).
    rewrite E2. reflexivity.
Defined.

(** ** Listing *)

Lemma all_keys_spec S b :
  "/"%char ∉ S →
  all_keys S b
  = match b !! S with
    | Some m => inr (map_to_list m).*1
    | None => inl KeyNotFound
    end.
Proof.
  intros HS. unfold all_keys. rewrite include_plain by done.
  destruct (b !! S) as [m |]; simpl.
  - by rewrite ?bool_decide_eq_true_2 by eauto.
  - by rewrite ?bool_decide_eq_false_2 by (by intros [? ?]).
Qed.

Lemma keys_spec (m : gmap str str) K : K ∈ (map_to_list m).*1 ↔ is_Some (m !! K).
Proof.
  rewrite list_elem_of_fmap. split.
  - intros ([k v] & -> & H). apply elem_of_map_to_list in H. eauto.
  - intros [v H]. exists (K, v). split; [done |]. by apply elem_of_map_to_list.
Qed.

(** X3.  The sections and the keys that [all_sections] and [all_keys] list
    can be read: the lists have no duplicates, [all_keys] throws
    [KeyNotFound] for a section that is not listed, and for a listed one
    it gives the keys of the section, each of which [value] returns the
    stored value for. *)
Theorem listed_entries_can_be_read (S : str) (b : Builder) :
  "/"%char ∉ S →
  NoDup (all_sections b)
  ∧ (S ∉ all_sections b → all_keys S b = inl KeyNotFound)
  ∧ (S ∈ all_sections b →
     ∃ keys, all_keys S b = inr keys
       ∧ NoDup keys
       ∧ (∀ K, K ∈ keys ↔ is_Some (entry b S K))
       ∧ (∀ K, K ∈ keys → ∃ v, entry b S K = Some v ∧ value2 S K b = Returns v b)).
Proof.
  intros HS. split_and!.
  - apply NoDup_fst_map_to_list.
  - rewrite all_sections_spec, all_keys_spec by done.
    destruct (b !! S); [| done]. intros []. eauto.
  - rewrite all_sections_spec, all_keys_spec by done. intros [m Hm].
    rewrite Hm. eexists. split; [done |].
    assert (Hk : ∀ K, K ∈ (map_to_list m).*1 ↔ is_Some (entry b S K)).
    { intros K. rewrite keys_spec, entry_lookup. by rewrite Hm. }
    split_and!; [apply NoDup_fst_map_to_list | done |].
    intros K [v Hv]%Hk. exists v. split; [done |].
    by rewrite value2_entry, Hv by done.
Qed.

Lemma listed_entries_can_be_read_witness :
  let b : Builder := {[ lit "Config" := {[ lit "Theme" := lit "Dark" ]} ]} in
  all_keys (lit "Profile") b = inl KeyNotFound
  ∧ ∃ keys, all_keys (lit "Config") b = inr keys ∧ NoDup keys.
Proof.
  intros b.
  assert (H1 : "/"%char ∉ lit "Config") by by_evaluation.
  assert (H2 : "/"%char ∉ lit "Profile") by by_evaluation.
  split.
  - destruct (listed_entries_can_be_read (lit "Profile") b H2) as (_ & H & _).
    apply H. by_evaluation.
  - destruct (listed_entries_can_be_read (lit "Config") b H1) as (_ & _ & H).
    destruct H as (keys & E & N & _); [by_evaluation |]. eauto.
Defined.

(** ** Adding and removing *)

Lemma entry_erase S K b S' K' :
  entry (erase_if_empty S (erase_key S K b)) S' K'
  = if decide (S' = S ∧ K' = K) then None else entry b S' K'.
Proof.
  unfold erase_if_empty. rewrite section_of_erase_key.
  rewrite !entry_lookup.
  destruct (decide (S' = S)) as [-> | Hne].
  - destruct (decide (delete K (section_of b S) = ∅)) as [E | E].
    + rewrite lookup_delete_eq.
      case_decide as H.
      * done.
      * assert (K' ≠ K) as HK by (by intros ->; apply H).
        assert (section_of b S !! K' = None) as HN.
        { rewrite <- (lookup_delete_ne (section_of b S) K K') by done.
          by rewrite E, lookup_empty. }
        unfold section_of in HN. by destruct (b !! S).
    + rewrite lookup_insert_eq.
      case_decide as H.
      * destruct H as [_ ->]. by rewrite lookup_delete_eq.
      * assert (K' ≠ K) as HK by (by intros ->; apply H).
        rewrite lookup_delete_ne by done.
        unfold section_of. by destruct (b !! S).
  - destruct (decide (S' = S ∧ K' = K)) as [[? _] | _]; [done |].
    destruct (decide (delete K (section_of b S) = ∅)).
    + rewrite lookup_delete_ne by done. unfold erase_key.
      by rewrite lookup_insert_ne by done.
    + rewrite lookup_insert_ne by done. unfold erase_key.
      by rewrite lookup_insert_ne by done.
Qed.

Lemma erase_put_absent S K V b :
  no_empty_section b → entry b S K = None →
  erase_if_empty S (erase_key S K (put S K V b)) = b.
Proof.
  intros Hne HNone.
  apply builder_ext; [by apply no_empty_section_erase, no_empty_section_put | done |].
  intros S' K'. rewrite entry_erase, entry_put.
  case_decide as H; [| done]. destruct H as [-> ->]. done.
Qed.

Lemma add_key_returns S K V b b' :
  "/"%char ∉ S → add_key S K V b = Returns tt b' →
  ¬ has_sub (lit "[]") K ∧ entry b S K = None ∧ b' = put S K V b.
Proof.
  intros HS. unfold add_key.
  destruct (find_sub K (lit "[]")) eqn:EF; [done |].
  apply find_sub_None in EF.
  rewrite include_entry by done.
  destruct (entry b S K) as [v |] eqn:E.
  - rewrite (include_section_of_entry b S K) by (rewrite ?E; eauto).
    rewrite ?bool_decide_eq_true_2 by eauto. done.
  - destruct (include b S); simpl; intros [= <-]; done.
Qed.

Lemma remove_key_entry S K b :
  "/"%char ∉ S →
  remove_key S K b
  = match entry b S K with
    | Some _ => Returns tt (erase_if_empty S (erase_key S K b))
    | None => Throws KeyNotFound b
    end.
Proof.
  intros HS. unfold remove_key. rewrite include_entry by done.
  destruct (entry b S K).
  - by rewrite bool_decide_eq_true_2 by eauto.
  - by rewrite bool_decide_eq_false_2 by (by intros [? ?]).
Qed.

Lemma parser_eq (x y : IniParserX.parser) :
  IniParserX.builder x = IniParserX.builder y →
  IniParserX.arrays x = IniParserX.arrays y →
  IniParserX.connection x = IniParserX.connection y → x = y.
Proof. destruct x, y. simpl. by intros -> -> ->. Qed.

Lemma addX_key_as_base S K V x :
  IniParserX.add_key S K V x
  = match add_key S K V (IniParserX.builder x) with
    | Returns _ b' => Returns tt (IniParserX.set_builder (λ _, b') x)
    | Throws e _ => Throws e x
    end.
Proof.
  unfold IniParserX.add_key, add_key.
  destruct (find_sub K (lit "[]")); [done |].
  destruct (include _ S); simpl; [| done].
  by destruct (include _ _).
Qed.

Lemma removeX_key_as_base S K x :
  IniParserX.remove_key S K x
  = match remove_key S K (IniParserX.builder x) with
    | Returns _ b' => Returns tt (IniParserX.set_builder (λ _, b') x)
    | Throws e _ => Throws e x
    end.
Proof. unfold IniParserX.remove_key, remove_key. by destruct (include _ _). Qed.

Lemma add_key_remove_key_base S K V b b' :
  "/"%char ∉ S → no_empty_section b →
  add_key S K V b = Returns tt b' → remove_key S K b' = Returns tt b.
Proof.
  intros HS Hne (_ & HN & ->)%add_key_returns; [| done].
  rewrite remove_key_entry, entry_put by done.
  rewrite decide_True by done. by rewrite erase_put_absent.
Qed.

(** X4.  Removing the key that [add_key] has just added gives the object
    back, in both classes. *)
Theorem add_key_then_remove_key
    (S K V : str) (b b' : Builder) (x x' : IniParserX.parser) :
  "/"%char ∉ S →
  (no_empty_section b →
   IniParser.add_key S K V b = Returns tt b' →
   IniParser.remove_key S K b' = Returns tt b)
  ∧ (no_empty_section (IniParserX.builder x) →
     IniParserX.add_key S K V x = Returns tt x' →
     IniParserX.remove_key S K x' = Returns tt x).
Proof.
  intros HS. split.
  - by apply add_key_remove_key_base.
  - intros Hne. rewrite addX_key_as_base.
    destruct (add_key S K V (IniParserX.builder x)) as [[] b1 |] eqn:E; [| done].
    intros [= <-]. rewrite removeX_key_as_base. simpl.
    rewrite (add_key_remove_key_base _ _ _ _ _ HS Hne E). by destruct x.
Qed.

Lemma add_key_then_remove_key_witness :
  let b : Builder := {[ lit "Config" := {[ lit "Theme" := lit "Dark" ]} ]} in
  IniParser.remove_key (lit "Config") (lit "Language")
    (put (lit "Config") (lit "Language") (lit "English") b)
  = Returns tt b.
Proof.
  intros b.
  eapply (add_key_then_remove_key (lit "Config") (lit "Language") (lit "English")
            b _ IniParserX.empty IniParserX.empty).
  - by_evaluation.
  - intros S m. unfold b. rewrite lookup_singleton_Some. intros [_ <-].
    apply insert_non_empty.
  - vm_compute. reflexivity.
Defined.

(** X5.  Adding again, with its value, the key that [remove_key] has just
    removed gives the document back. *)
Theorem remove_key_then_add_key (S K V : str) (b : Builder) :
  "/"%char ∉ S →
  ¬ has_sub (lit "[]") K →
  no_empty_section b →
  entry b S K = Some V →
  ∃ b', IniParser.remove_key S K b = Returns tt b'
        ∧ IniParser.add_key S K V b' = Returns tt b.
Proof.
  intros HS HK Hne HV. rewrite remove_key_entry, HV by done.
  eexists. split; [done |].
  set (b' := erase_if_empty S (erase_key S K b)).
  assert (HN : entry b' S K = None).
  { unfold b'. rewrite entry_erase. by rewrite decide_True. }
  unfold add_key. apply find_sub_None in HK. rewrite HK.
  rewrite include_entry, HN by done.
  rewrite bool_decide_eq_false_2 by (by intros [? ?]). simpl.
  assert (E : put S K V b' = b).
  { apply builder_ext; [by apply no_empty_section_put, no_empty_section_erase | done |].
    intros S' K'. rewrite entry_put. unfold b'. rewrite entry_erase.
    case_decide as H; [| done]. by destruct H as [-> ->]. }
  rewrite E. by destruct (include b' S).
Qed.

Lemma remove_key_then_add_key_witness :
  let b : Builder := {[ lit "Config" := {[ lit "Theme" := lit "Dark" ]} ]} in
  ∃ b', IniParser.remove_key (lit "Config") (lit "Theme") b = Returns tt b'
        ∧ IniParser.add_key (lit "Config") (lit "Theme") (lit "Dark") b' = Returns tt b.
Proof.
  intros b. apply remove_key_then_add_key.
  - by_evaluation.
  - apply find_sub_None. vm_compute. reflexivity.
  - intros S m. unfold b. rewrite lookup_singleton_Some. intros [_ <-].
    apply insert_non_empty.
  - vm_compute. reflexivity.
Defined.

(** X6.  [add_key] and [remove_key] leave every other entry of the document
    as it is, whether they return or throw. *)
Theorem other_entries_are_kept (S K V S' K' : str) (b : Builder) :
  (S', K') ≠ (S, K) →
  entry (state_of (IniParser.add_key S K V b)) S' K' = entry b S' K'
  ∧ entry (state_of (IniParser.remove_key S K b)) S' K' = entry b S' K'.
Proof.
  intros Hne. split.
  - unfold add_key. destruct (find_sub K (lit "[]")); [done |].
    destruct (include b S); simpl.
    + destruct (include b _); simpl; [done |].
      rewrite entry_put. case_decide as H'; [by destruct H' as [-> ->] | done].
    + rewrite entry_put. case_decide as H'; [by destruct H' as [-> ->] | done].
  - unfold remove_key. destruct (include b _); simpl; [| done].
    rewrite entry_erase. case_decide as H'; [by destruct H' as [-> ->] | done].
Qed.

Lemma other_entries_are_kept_witness :
  let b : Builder := {[ lit "Config" := {[ lit "Theme" := lit "Dark" ]} ]} in
  entry (state_of (IniParser.remove_key (lit "Config") (lit "Theme")
                     (state_of (IniParser.add_key (lit "Config") (lit "Language")
                                  (lit "English") b))))
    (lit "Config") (lit "Language")
  = Some (lit "English").
Proof.
  intros b.
  destruct (other_entries_are_kept (lit "Config") (lit "Theme") [] (lit "Config") (lit "Language")
              (state_of (IniParser.add_key (lit "Config") (lit "Language") (lit "English") b)))
    as [_ E]; [by_evaluation |].
  rewrite E. vm_compute. reflexivity.
Defined.

(** ** [strip], by itself *)

(** X7.  [strip] throws [std::out_of_range] on a string that is empty or holds
    spaces only; on any other string it returns what is left when the
    spaces at both ends are taken away, tabs and other white space kept,
    and what it returns it returns again when applied to it. *)
Theorem strip_result (s : str) :
  (N.of_nat (length s) < npos)%N →
  (blank s → strip s = inl std_out_of_range)
  ∧ (¬ blank s →
     ∃ a b t, s = replicate a space ++ t ++ replicate b space
              ∧ strip s = inr t
              ∧ t ≠ [] ∧ head t ≠ Some space ∧ last t ≠ Some space
              ∧ strip t = inr t).
Proof.
  intros Hlen. split.
  - intros Hb. by apply strip_blank.
  - intros Hb. destruct (trim_split s Hb) as (a & b & E & H1 & H2 & H3).
    exists a, b, (trim s). split_and!; try done.
    + apply strip_trim; [done |]. unfold npos in Hlen. lia.
    + pose proof (strip_padded (trim s) 0 0 H3 H1 H2) as H.
      cbn [replicate app] in H. rewrite app_nil_r in H. apply H.
      pose proof (trim_length s). unfold npos in Hlen. lia.
Qed.

Lemma strip_result_witness :
  strip (lit "   ") = inl std_out_of_range
  ∧ ∃ a b t, lit "  a b " = replicate a space ++ t ++ replicate b space
             ∧ strip (lit "  a b ") = inr t.
Proof.
  split.
  - apply (strip_result (lit "   ")); [by_evaluation | by_evaluation].
  - destruct (strip_result (lit "  a b ")) as [_ H]; [by_evaluation |].
    destruct H as (a & b & t & E1 & E2 & _); [by_evaluation |].
    eauto.
Defined.

(** ** Header lines *)

Lemma header_name_text buffer st :
  find_chr buffer "[" = Some st →
  (N.of_nat (length buffer) < size_max)%N →
  header_name buffer st = header_text buffer.
Proof.
  intros Hst Hlen. pose proof (find_chr_lt _ _ _ Hst) as Hstlt.
  unfold header_name, header_text.
  rewrite (find_chr_before _ _ _ Hst), (find_chr_after _ _ _ Hst).
  destruct (find_chr buffer "]") as [q |] eqn:Hq; simpl pos_of.
  - pose proof (find_chr_lt _ _ _ Hq) as Hqlt.
    assert (q ≠ st).
    { intros ->. apply find_chr_Some in Hst as [Hst _].
      apply find_chr_Some in Hq as [Hq _]. congruence. }
    destruct (decide (st < q)) as [Hsq | Hsq].
    + rewrite bool_decide_eq_false_2.
      2:{ intros Hin. apply find_chr_Some in Hq as [_ Hq]. apply Hq.
          apply list_elem_of_lookup in Hin as [k Hk].
          apply lookup_take_Some in Hk as [Hk Hlt].
          apply list_elem_of_lookup. exists k. by rewrite lookup_take_lt by lia. }
      rewrite (find_chr_before _ _ (q - (st + 1))) by (apply find_chr_drop; [done | lia]).
      unfold substr_in. f_equal.
      rewrite (sz_sub_small (N.of_nat q) (N.of_nat st)) by (unfold size_max in *; lia).
      rewrite sz_sub_small by (unfold size_max in *; lia). lia.
    + rewrite bool_decide_eq_true_2.
      2:{ apply find_chr_Some in Hq as [Hq _]. apply list_elem_of_lookup.
          exists q. by rewrite lookup_take_lt by lia. }
      unfold substr_in.
      rewrite (sz_sub_wrap (N.of_nat q) (N.of_nat st)) by (unfold size_max in *; lia).
      rewrite sz_sub_small by (unfold size_max in *; lia).
      rewrite take_ge; [done |]. rewrite length_drop. unfold size_max in *. lia.
  - rewrite bool_decide_eq_false_2.
    2:{ intros Hin. apply find_chr_None in Hq. apply Hq.
        by apply (subseteq_take st). }
    rewrite before_no_occurrence.
    2:{ intros Hin. apply find_chr_None in Hq. apply Hq. by apply (subseteq_drop (st + 1)). }
    unfold substr_in.
    rewrite (sz_sub_small npos (N.of_nat st)) by (unfold npos, size_max in *; lia).
    rewrite sz_sub_small by (unfold npos, size_max in *; lia).
    rewrite take_ge; [done |]. rewrite length_drop. unfold npos, size_max in *. lia.
Qed.

Lemma opens_section_spec buffer :
  opens_section buffer = true ↔
  head buffer ≠ Some ";"%char ∧ ("="%char ∉ buffer) ∧ ("["%char ∈ buffer).
Proof.
  unfold opens_section. rewrite !andb_true_iff, !negb_true_iff.
  rewrite !bool_decide_eq_false, bool_decide_eq_true. tauto.
Qed.

Lemma parse_inline_header buffer sec b :
  (N.of_nat (length buffer) < size_max)%N → opens_section buffer = true →
  parse_inline buffer (sec, b) = Returns true (header_text buffer, b).
Proof.
  intros Hlen (Hc & He & Hb)%opens_section_spec.
  destruct (find_chr_elem_of _ _ Hb) as [st Hst].
  unfold parse_inline.
  rewrite decide_False by (by rewrite find_chr_0).
  rewrite (find_chr_not_in _ "=") by done.
  by rewrite Hst, header_name_text.
Qed.

Lemma parseX_inline_header buffer sec x :
  (N.of_nat (length buffer) < size_max)%N → opens_section buffer = true →
  IniParserX.parse_inline buffer (sec, x)
  = Returns false (IniParserX.open_section sec (header_text buffer) x).
Proof.
  intros Hlen (Hc & He & Hb)%opens_section_spec.
  destruct (find_chr_elem_of _ _ Hb) as [st Hst].
  unfold IniParserX.parse_inline.
  rewrite decide_False by (by rewrite find_chr_0).
  rewrite (find_chr_not_in _ "=") by done.
  by rewrite Hst, header_name_text.
Qed.

(** X8.  A line without [=] that is not a comment and has a [[] opens a
    section and stores nothing.  Its name is the text between the first
    [[] and the first []]; when there is no []], or one before the [[],
    the name is all the text after the [[].  In the base class the current
    section becomes that name, and [true] is returned.  The extended
    class returns [false] and leaves the document and the array table as
    they are; when the name begins with a dot, the current section becomes
    the old one followed by the name, and the name without its dot is
    appended to the list of the old section in the table of nested
    sections; when the name has its first dot further on, the current
    section becomes the name, and the text after that dot is appended to
    the list of the text before it; when the name has no dot, the current
    section becomes the name and the object is as it was. *)
Theorem header_line_opens_section
    (buffer sec : str) (b : Builder) (x : IniParserX.parser) :
  (N.of_nat (length buffer) < size_max)%N →
  opens_section buffer = true →
  let name := header_text buffer in
  IniParser.parse_inline buffer (sec, b) = Returns true (name, b)
  ∧ (head name = Some "."%char →
     IniParserX.parse_inline buffer (sec, x)
     = Returns false
         (sec ++ name,
          IniParserX.Parser (IniParserX.builder x) (IniParserX.arrays x)
            (<[sec := default [] (IniParserX.connection x !! sec) ++ [drop 1 name]]>
               (IniParserX.connection x))))
  ∧ (∀ a c, name = a ++ "."%char :: c → a ≠ [] → ("."%char ∉ a) →
     IniParserX.parse_inline buffer (sec, x)
     = Returns false
         (name,
          IniParserX.Parser (IniParserX.builder x) (IniParserX.arrays x)
            (<[a := default [] (IniParserX.connection x !! a) ++ [c]]>
               (IniParserX.connection x))))
  ∧ (("."%char ∉ name) →
     IniParserX.parse_inline buffer (sec, x) = Returns false (name, x)).
Proof.
  intros Hlen Ho name. split_and!.
  - by apply parse_inline_header.
  - intros Hdot. rewrite parseX_inline_header by done. fold name.
    unfold IniParserX.open_section. rewrite decide_True; [done |].
    destruct name as [| h t]; [done |]. simpl in *. congruence.
  - intros a c E Ha Hno. rewrite parseX_inline_header by done. fold name.
    unfold IniParserX.open_section. rewrite decide_False.
    2:{ rewrite E. destruct a as [| h a]; [done |]. simpl. intros ->. apply Hno. left. }
    rewrite E, find_chr_app by done.
    rewrite substr_in_0, take_app_length.
    unfold substr_from. rewrite Nat.add_1_r.
    change (a ++ "."%char :: c) with (a ++ ["."%char] ++ c).
    rewrite app_assoc, drop_app_length'; [done |].
    rewrite length_app. simpl. lia.
  - intros Hno. rewrite parseX_inline_header by done. fold name.
    unfold IniParserX.open_section. rewrite decide_False.
    2:{ destruct name as [| h t]; [done |]. simpl. intros ->. apply Hno. left. }
    rewrite (find_chr_not_in _ ".") by done. by destruct x.
Qed.

Lemma header_line_opens_section_witness :
  IniParser.parse_inline (lit "  [Config] ; settings") (lit "Old", ∅)
  = Returns true (lit "Config", ∅)
  ∧ IniParser.parse_inline (lit "[Config") (lit "Old", ∅) = Returns true (lit "Config", ∅)
  ∧ IniParser.parse_inline (lit "][Config]") (lit "Old", ∅) = Returns true (lit "Config]", ∅)
  ∧ IniParserX.parse_inline (lit "[.Window]") (lit "App", IniParserX.empty)
    = Returns false
        (lit "App.Window", IniParserX.Parser ∅ ∅ {[ lit "App" := [lit "Window"] ]}).
Proof.
  assert (W : ∀ buffer,
            (N.of_nat (length buffer) < size_max)%N → opens_section buffer = true →
            IniParser.parse_inline buffer (lit "Old", ∅)
            = Returns true (header_text buffer, ∅)).
  { intros buffer H1 H2.
    apply (header_line_opens_section buffer (lit "Old") ∅ IniParserX.empty H1 H2). }
  split_and!; [rewrite W by by_evaluation; vm_compute; reflexivity .. |].
  destruct (header_line_opens_section (lit "[.Window]") (lit "App") ∅ IniParserX.empty)
    as (_ & H & _); [by_evaluation | by_evaluation |].
  rewrite H by (vm_compute; reflexivity). vm_compute. reflexivity.
Defined.

(** ** Nested sections *)

(** X9.  In the extended class a header [[.child]] opens the section whose
    name is the current one followed by [.child], and files [child] under
    the current section in the table of nested sections; a header
    [[parent.child]] opens [parent.child] and files [child] under
    [parent]; a header without a dot leaves the table as it is. *)
Theorem nested_section_headers (P a c : str) (x : IniParserX.parser) :
  ("="%char ∉ a) → ("]"%char ∉ a) → ("."%char ∉ a) →
  ("="%char ∉ c) → ("]"%char ∉ c) →
  (N.of_nat (length a + length c + 1) < npos)%N →
  IniParserX.parse_inline (lit "[." ++ c ++ lit "]") (P, x)
  = Returns false
      (P ++ lit "." ++ c,
       IniParserX.set_connection (IniParserX.push_back P c) x)
  ∧ (a ≠ [] →
     IniParserX.parse_inline (lit "[" ++ a ++ lit "." ++ c ++ lit "]") (P, x)
     = Returns false
         (a ++ lit "." ++ c,
          IniParserX.set_connection (IniParserX.push_back a c) x))
  ∧ IniParserX.parse_inline (lit "[" ++ a ++ lit "]") (P, x) = Returns false (a, x).
Proof.
  intros Ha1 Ha2 Ha3 Hc1 Hc2 Hlen. split_and!.
  - change (lit "[." ++ c ++ lit "]") with (lit "[" ++ ("."%char :: c) ++ lit "]").
    rewrite parse_generated_header; [| chars | chars | simpl; lia].
    unfold IniParserX.open_section. simpl nth. by rewrite decide_True.
  - intros Hne.
    replace (lit "[" ++ a ++ lit "." ++ c ++ lit "]")
      with (lit "[" ++ (a ++ "."%char :: c) ++ lit "]")
      by (by rewrite <- !app_assoc).
    rewrite parse_generated_header; [| chars | chars | rewrite length_app; simpl; lia].
    unfold IniParserX.open_section.
    rewrite decide_False.
    2:{ destruct a as [| h a]; [done |]. simpl. intros ->. apply Ha3. left. }
    rewrite find_chr_app by done.
    rewrite substr_in_0, take_app_length.
    unfold substr_from. rewrite Nat.add_1_r.
    change (a ++ "."%char :: c) with (a ++ ["."%char] ++ c) at 2.
    rewrite app_assoc, drop_app_length'; [done |].
    rewrite length_app. simpl. lia.
  - rewrite parse_generated_header; [| done | done | lia].
    unfold IniParserX.open_section.
    rewrite decide_False.
    2:{ destruct a as [| h a]; [done |]. simpl. intros ->. apply Ha3. left. }
    by rewrite (find_chr_not_in _ ".").
Qed.

Lemma nested_section_headers_witness :
  IniParserX.parse_inline (lit "[.Window]") (lit "App", IniParserX.empty)
  = Returns false
      (lit "App.Window",
       IniParserX.Parser ∅ ∅ {[ lit "App" := [lit "Window"] ]})
  ∧ IniParserX.parse_inline (lit "[App.Window]") ([], IniParserX.empty)
    = Returns false
        (lit "App.Window",
         IniParserX.Parser ∅ ∅ {[ lit "App" := [lit "Window"] ]}).
Proof.
  destruct (nested_section_headers (lit "App") (lit "App") (lit "Window") IniParserX.empty)
    as (H1 & _ & _); [by_evaluation .. |].
  destruct (nested_section_headers [] (lit "App") (lit "Window") IniParserX.empty)
    as (_ & H2 & _); [by_evaluation .. |].
  split.
  - exact H1.
  - apply H2. done.
Defined.

(** ** What a load keeps *)

Lemma parse_inline_state buffer sec b :
  ∃ sec', (state_of (parse_inline buffer (sec, b))).1 = sec'
  ∧ ((state_of (parse_inline buffer (sec, b))).2 = b
     ∨ ∃ k v, (state_of (parse_inline buffer (sec, b))).2 = put sec k v b).
Proof.
  eexists. split; [done |]. unfold parse_inline.
  destruct (decide _); [by left |].
  destruct (find_chr buffer "=").
  - destruct (strip _); [by left |].
    destruct (strip (raw_value _ _ _)); [by left |]. right. eauto.
  - destruct (find_chr buffer "["); by left.
Qed.

Lemma push_back_grows (k v : str) (t : gmap str (list str)) (p : str) (l : list str) :
  t !! p = Some l → ∃ more, IniParserX.push_back k v t !! p = Some (l ++ more).
Proof.
  intros H. unfold IniParserX.push_back.
  destruct (decide (p = k)) as [-> | Hne].
  - rewrite lookup_insert_eq, H. simpl. eauto.
  - rewrite lookup_insert_ne by done. exists []. by rewrite app_nil_r.
Qed.

Lemma extends_refl x : extends x x.
Proof. split_and!; [done | |]; intros p l H; exists []; by rewrite app_nil_r. Qed.

Lemma extends_trans x y z : extends x y → extends y z → extends x z.
Proof.
  intros (A1 & A2 & A3) (B1 & B2 & B3). split_and!.
  - eauto.
  - intros p l H. destruct (A2 _ _ H) as [m1 H1]. destruct (B2 _ _ H1) as [m2 H2].
    exists (m1 ++ m2). by rewrite app_assoc.
  - intros p l H. destruct (A3 _ _ H) as [m1 H1]. destruct (B3 _ _ H1) as [m2 H2].
    exists (m1 ++ m2). by rewrite app_assoc.
Qed.

Lemma store_extends sec k v x : extends x (IniParserX.store sec k v x).
Proof.
  split_and!.
  - intros S K. rewrite store_builder. apply entry_put_is_Some.
  - intros p l H. rewrite store_arrays.
    destruct (find_sub k (lit "[]")).
    + by apply push_back_grows.
    + exists []. by rewrite app_nil_r.
  - intros p l H. exists []. rewrite app_nil_r.
    unfold IniParserX.store. by destruct (find_sub k (lit "[]")).
Qed.

Lemma open_section_extends sec tmp x : extends x (IniParserX.open_section sec tmp x).2.
Proof.
  split_and!.
  - by rewrite open_section_builder.
  - rewrite open_section_arrays. intros p l H. exists []. by rewrite app_nil_r.
  - intros p l H. unfold IniParserX.open_section.
    destruct (decide _); simpl.
    + by apply push_back_grows.
    + destruct (find_chr tmp "."); simpl.
      * by apply push_back_grows.
      * exists []. by rewrite app_nil_r.
Qed.

Lemma parseX_inline_extends buffer sec x :
  extends x (state_of (IniParserX.parse_inline buffer (sec, x))).2.
Proof.
  unfold IniParserX.parse_inline.
  destruct (decide _); [apply extends_refl |].
  destruct (find_chr buffer "=").
  - destruct (strip _); [apply extends_refl |].
    destruct (strip (raw_value _ _ _)); [apply extends_refl |].
    apply store_extends.
  - destruct (find_chr buffer "["); [| apply extends_refl].
    apply open_section_extends.
Qed.

Lemma parseX_lines_extends lines sec x :
  extends x (state_of (IniParserX.parse_lines lines (sec, x))).2.
Proof.
  revert sec x. induction lines as [| l lines IH]; intros sec x.
  - apply extends_refl.
  - cbn [IniParserX.parse_lines].
    pose proof (parseX_inline_extends l sec x) as H.
    destruct (IniParserX.parse_inline l (sec, x)) as [r [sec' x'] | e [sec' x']];
      cbn [state_of snd] in *.
    + eapply extends_trans; [exact H | apply (IH sec' x')].
    + done.
Qed.

Lemma parse_lines_keeps_entries lines sec b S K :
  is_Some (entry b S K) →
  is_Some (entry (state_of (parse_lines lines (sec, b))).2 S K).
Proof.
  revert sec b. induction lines as [| l lines IH]; intros sec b H; [done |].
  cbn [parse_lines].
  destruct (parse_inline_state l sec b) as (sec' & _ & Hb).
  destruct (parse_inline l (sec, b)) as [r [s1 b1] | e [s1 b1]]; cbn [state_of snd] in *.
  - apply IH. destruct Hb as [-> | (k & v & ->)]; [done |]. by apply entry_put_is_Some.
  - destruct Hb as [-> | (k & v & ->)]; [done |]. by apply entry_put_is_Some.
Qed.

(** X10.  A load takes nothing away, whether it returns or throws: every entry
    that the document had is still there, with the old or with a new
    value, and in the extended class every list of the array table and of
    the table of nested sections is the old list with what the load
    appended. *)
Theorem load_only_adds
    (file : option str) (sec : str) (b : Builder) (x : IniParserX.parser) :
  (∀ S K, is_Some (entry b S K) →
          is_Some (entry (state_of (IniParser.load_ini_file file (sec, b))).2 S K))
  ∧ extends x (state_of (IniParserX.load_ini_file file (sec, x))).2.
Proof.
  split.
  - intros S K H. destruct file as [text |]; [| done]. simpl.
    pose proof (parse_lines_keeps_entries (getlines text) sec b S K H) as H'.
    by destruct (parse_lines _ _).
  - destruct file as [text |]; [| apply extends_refl]. simpl.
    pose proof (parseX_lines_extends (getlines text) sec x) as H'.
    by destruct (IniParserX.parse_lines _ _).
Qed.

(** ** When a load returns *)

Lemma line_length text l :
  l ∈ getlines text → length l ≤ length text.
Proof.
  intros H. pose proof (getlines_total text) as Ht.
  apply list_elem_of_lookup in H as [i Hi].
  assert (length l ≤ sum_list (length <$> getlines text)); [| lia].
  clear Ht. revert i Hi. induction (getlines text) as [| a ls IH]; intros i Hi; [done |].
  change (sum_list (length <$> a :: ls)) with (length a + sum_list (length <$> ls)).
  destruct i as [| i]; simpl in Hi.
  - injection Hi as ->. lia.
  - specialize (IH _ Hi). lia.
Qed.

Lemma with_stripped_ok {S} buffer (w : S) k :
  (N.of_nat (length buffer) < size_max)%N →
  ¬ blank (key_part buffer) → ¬ blank (value_part buffer) →
  with_stripped buffer w k
  = Returns true (k (trim (key_part buffer)) (trim (value_part buffer))).
Proof.
  intros Hlen H1 H2. unfold with_stripped.
  pose proof (key_part_length buffer). pose proof (value_part_length buffer).
  rewrite !strip_trim by (done || lia). done.
Qed.

Lemma parse_inline_ok buffer w :
  (N.of_nat (length buffer) < size_max)%N → line_ok buffer →
  ∃ r w', parse_inline buffer w = Returns r w'.
Proof.
  intros Hlen Hok. destruct w as [sec b].
  destruct (decide (head buffer = Some ";"%char)) as [Hc | Hc].
  { unfold parse_inline. apply find_chr_0 in Hc. rewrite decide_True by done. eauto. }
  destruct (decide ("="%char ∈ buffer)) as [He | He].
  - destruct Hok as [? | [? | [H1 H2]]]; [done | done |].
    rewrite parse_inline_assignment, with_stripped_ok by done. eauto.
  - unfold parse_inline. rewrite decide_False by (by rewrite find_chr_0).
    rewrite (find_chr_not_in _ "=") by done.
    destruct (find_chr buffer "["); eauto.
Qed.

Lemma parseX_inline_ok buffer w :
  (N.of_nat (length buffer) < size_max)%N → line_ok buffer →
  ∃ r w', IniParserX.parse_inline buffer w = Returns r w'.
Proof.
  intros Hlen Hok. destruct w as [sec x].
  destruct (decide (head buffer = Some ";"%char)) as [Hc | Hc].
  { unfold IniParserX.parse_inline. apply find_chr_0 in Hc. rewrite decide_True by done. eauto. }
  destruct (decide ("="%char ∈ buffer)) as [He | He].
  - destruct Hok as [? | [? | [H1 H2]]]; [done | done |].
    rewrite parseX_inline_assignment, with_stripped_ok by done. eauto.
  - unfold IniParserX.parse_inline. rewrite decide_False by (by rewrite find_chr_0).
    rewrite (find_chr_not_in _ "=") by done.
    destruct (find_chr buffer "["); eauto.
Qed.

Lemma not_line_ok buffer :
  ¬ line_ok buffer →
  head buffer ≠ Some ";"%char ∧ "="%char ∈ buffer
  ∧ (blank (key_part buffer) ∨ blank (value_part buffer)).
Proof.
  intros H. unfold line_ok in H. split_and!.
  - tauto.
  - destruct (decide ("="%char ∈ buffer)); tauto.
  - unfold blank in *.
    destruct (decide (Forall (λ c, c = space) (key_part buffer))); [tauto |].
    destruct (decide (Forall (λ c, c = space) (value_part buffer))); tauto.
Qed.

Lemma parse_inline_not_ok buffer w :
  (N.of_nat (length buffer) < npos)%N → ¬ line_ok buffer →
  parse_inline buffer w = Throws std_out_of_range w.
Proof.
  intros Hlen (Hc & He & Hb)%not_line_ok. destruct w as [sec b].
  rewrite parse_inline_assignment by (done || (unfold npos in Hlen; lia)).
  by apply with_stripped_blank.
Qed.

Lemma parseX_inline_not_ok buffer w :
  (N.of_nat (length buffer) < npos)%N → ¬ line_ok buffer →
  IniParserX.parse_inline buffer w = Throws std_out_of_range w.
Proof.
  intros Hlen (Hc & He & Hb)%not_line_ok. destruct w as [sec b].
  rewrite parseX_inline_assignment by (done || (unfold npos in Hlen; lia)).
  by apply with_stripped_blank.
Qed.

Lemma parse_lines_ok lines w :
  Forall (λ l, (N.of_nat (length l) < size_max)%N) lines → Forall line_ok lines →
  ∃ w', parse_lines lines w = Returns tt w'.
Proof.
  revert w. induction lines as [| l lines IH]; intros w Hlen Hok; [by eexists |].
  cbn [parse_lines].
  apply Forall_cons in Hlen as [Hl Hlen]. apply Forall_cons in Hok as [Ho Hok].
  destruct (parse_inline_ok l w Hl Ho) as (r & w' & ->). by apply IH.
Qed.

Lemma parseX_lines_ok lines w :
  Forall (λ l, (N.of_nat (length l) < size_max)%N) lines → Forall line_ok lines →
  ∃ w', IniParserX.parse_lines lines w = Returns tt w'.
Proof.
  revert w. induction lines as [| l lines IH]; intros w Hlen Hok; [by eexists |].
  cbn [IniParserX.parse_lines].
  apply Forall_cons in Hlen as [Hl Hlen]. apply Forall_cons in Hok as [Ho Hok].
  destruct (parseX_inline_ok l w Hl Ho) as (r & w' & ->). by apply IH.
Qed.

Lemma parse_lines_app l1 l2 w :
  parse_lines (l1 ++ l2) w
  = match parse_lines l1 w with
    | Returns _ w' => parse_lines l2 w'
    | Throws e w' => Throws e w'
    end.
Proof.
  revert w. induction l1 as [| l l1 IH]; intros w; [done |].
  cbn [parse_lines app]. destruct (parse_inline l w); [apply IH | done].
Qed.

Lemma lines_short text :
  (N.of_nat (length text) < npos)%N →
  Forall (λ l, (N.of_nat (length l) < npos)%N) (getlines text).
Proof.
  intros H. apply Forall_forall. intros l Hl%line_length. lia.
Qed.

Lemma short_lines (lines : list str) :
  Forall (λ l, (N.of_nat (length l) < npos)%N) lines →
  Forall (λ l, (N.of_nat (length l) < size_max)%N) lines.
Proof. intros H. eapply Forall_impl; [exact H |]. intros l Hl. unfold npos in Hl. lia. Qed.

(** X11.  A load returns [true] when every line of the file is a comment, has
    no [=], or has more than spaces on both sides of its first [=].  At
    the first line that is none of these it throws [std::out_of_range],
    and the object keeps what the lines before that one have stored.  A
    file that cannot be opened gives [false] and changes nothing. *)
Theorem load_returns_or_stops
    (text : str) (w : str * Builder) (wx : str * IniParserX.parser) :
  (N.of_nat (length text) < npos)%N →
  (Forall line_ok (getlines text) →
   (∃ w', IniParser.load_ini_file (Some text) w = Returns true w')
   ∧ (∃ wx', IniParserX.load_ini_file (Some text) wx = Returns true wx'))
  ∧ (∀ pre bad rest,
       getlines text = pre ++ bad :: rest → Forall line_ok pre → ¬ line_ok bad →
       (∃ w', IniParser.parse_lines pre w = Returns tt w'
              ∧ IniParser.load_ini_file (Some text) w = Throws std_out_of_range w')
       ∧ (∃ wx', IniParserX.parse_lines pre wx = Returns tt wx'
                 ∧ IniParserX.load_ini_file (Some text) wx = Throws std_out_of_range wx'))
  ∧ IniParser.load_ini_file None w = Returns false w
  ∧ IniParserX.load_ini_file None wx = Returns false wx.
Proof.
  intros Hlen. pose proof (lines_short text Hlen) as Hshort.
  split_and!; [| | done | done].
  - intros Hok. split.
    + destruct (parse_lines_ok (getlines text) w (short_lines _ Hshort) Hok) as [w' E].
      exists w'. simpl. by rewrite E.
    + destruct (parseX_lines_ok (getlines text) wx (short_lines _ Hshort) Hok) as [w' E].
      exists w'. simpl. by rewrite E.
  - intros pre bad rest E Hok Hbad. rewrite E in Hshort.
    apply Forall_app in Hshort as [Hpre Hrest].
    apply Forall_cons in Hrest as [Hb _]. split.
    + destruct (parse_lines_ok pre w (short_lines _ Hpre) Hok) as [w' E'].
      exists w'. split; [done |]. simpl. rewrite E, parse_lines_app, E'. simpl.
      by rewrite parse_inline_not_ok.
    + destruct (parseX_lines_ok pre wx (short_lines _ Hpre) Hok) as [w' E'].
      exists w'. split; [done |]. simpl. rewrite E, parseX_lines_app, E'. simpl.
      by rewrite parseX_inline_not_ok.
Qed.

Lemma load_returns_or_stops_witness :
  let text := lit "[A]" ++ [newline] ++ lit "x = 1" ++ [newline] ++ lit "y =" ++ [newline]
              ++ lit "z = 3" ++ [newline] in
  IniParser.load_ini_file (Some text) ([], ∅)
  = Throws std_out_of_range (lit "A", {[ lit "A" := {[ lit "x" := lit "1" ]} ]})
  ∧ ∃ w', IniParser.load_ini_file (Some (lit "; note" ++ [newline] ++ lit "x = 1")) ([], ∅)
          = Returns true w'.
Proof.
  intros text. split.
  - destruct (load_returns_or_stops text ([], ∅) ([], IniParserX.empty)) as (_ & H & _);
      [by_evaluation |].
    destruct (H [lit "[A]"; lit "x = 1"] (lit "y =") [lit "z = 3"]) as [(w' & E1 & E2) _].
    + vm_compute. reflexivity.
    + apply (bool_decide_unpack _). vm_compute. exact I.
    + apply (bool_decide_unpack _). vm_compute. exact I.
    + rewrite E2. f_equal. vm_compute in E1. by injection E1 as <-.
  - destruct (load_returns_or_stops (lit "; note" ++ [newline] ++ lit "x = 1")
                ([], ∅) ([], IniParserX.empty)) as (H & _); [by_evaluation |].
    destruct H as [H _]; [| exact H].
    apply (bool_decide_unpack _). vm_compute. exact I.
Defined.

(** ** The two classes on one file *)

Lemma plain_line_agrees l sec x :
  opens_section l = false →
  match IniParser.parse_inline l (sec, IniParserX.builder x),
        IniParserX.parse_inline l (sec, x) with
  | Returns _ w, Returns _ wx => w.1 = wx.1 ∧ w.2 = IniParserX.builder wx.2
  | Throws e w, Throws e' wx => e = e' ∧ w.1 = wx.1 ∧ w.2 = IniParserX.builder wx.2
  | _, _ => False
  end.
Proof.
  intros Ho.
  - unfold parse_inline, IniParserX.parse_inline.
    destruct (decide _); [done |].
    destruct (find_chr l "=") as [p |] eqn:Ep.
    + destruct (strip _); [done |].
      destruct (strip (raw_value _ _ _)); [done |]. cbn [fst snd].
      by rewrite store_builder.
    + destruct (find_chr l "[") as [st |] eqn:Est; [| done].
      exfalso. rewrite <- not_true_iff_false in Ho. apply Ho.
      apply opens_section_spec. split_and!.
      * by rewrite <- find_chr_0.
      * by apply find_chr_None.
      * apply find_chr_Some in Est as [Est _]. by eapply list_elem_of_lookup_2.
Qed.

Lemma line_agrees l sec x :
  (N.of_nat (length l) < size_max)%N →
  (opens_section l = true → head (header_text l) ≠ Some "."%char) →
  match IniParser.parse_inline l (sec, IniParserX.builder x),
        IniParserX.parse_inline l (sec, x) with
  | Returns _ w, Returns _ wx => w.1 = wx.1 ∧ w.2 = IniParserX.builder wx.2
  | Throws e w, Throws e' wx => e = e' ∧ w.1 = wx.1 ∧ w.2 = IniParserX.builder wx.2
  | _, _ => False
  end.
Proof.
  intros Hlen Hdot.
  destruct (opens_section l) eqn:Ho.
  - rewrite parse_inline_header, parseX_inline_header by done. simpl.
    rewrite open_section_plain by auto. by rewrite open_section_builder.
  - by apply plain_line_agrees.
Qed.

Lemma lines_agree lines sec x :
  Forall (λ l, (N.of_nat (length l) < size_max)%N) lines →
  no_relative_header lines →
  same_outcome (IniParser.parse_lines lines (sec, IniParserX.builder x))
               (IniParserX.parse_lines lines (sec, x)).
Proof.
  revert sec x. induction lines as [| l lines IH]; intros sec x Hlen Hdot; [done |].
  apply Forall_cons in Hlen as [Hl Hlen]. apply Forall_cons in Hdot as [Hd Hdot].
  cbn [parse_lines IniParserX.parse_lines].
  pose proof (line_agrees l sec x Hl Hd) as H.
  destruct (parse_inline l (sec, IniParserX.builder x)) as [r [s b] | e [s b]],
           (IniParserX.parse_inline l (sec, x)) as [r' [s' x'] | e' [s' x']];
    simpl in H; try done.
  destruct H as [-> ->]. by apply IH.
Qed.

(** X12.  On a file whose headers name no section with a leading dot, the base
    class and the extended class load the same document: both return, or
    both throw at the same line, and the section they stop in and the
    entries they have stored are the same. *)
Theorem both_classes_load_the_same
    (text sec : str) (x : IniParserX.parser) :
  (N.of_nat (length text) < npos)%N →
  no_relative_header (getlines text) →
  same_outcome (IniParser.load_ini_file (Some text) (sec, IniParserX.builder x))
               (IniParserX.load_ini_file (Some text) (sec, x)).
Proof.
  intros Hlen Hdot.
  pose proof (lines_agree (getlines text) sec x
                (short_lines _ (lines_short text Hlen)) Hdot) as H.
  simpl. destruct (parse_lines _ _), (IniParserX.parse_lines _ _); simpl in *; try done.
  by destruct H as (_ & ? & ?).
Qed.

Lemma both_classes_load_the_same_witness :
  let text := lit "[App.Window]" ++ [newline] ++ lit "items[] = a" ++ [newline]
              ++ lit "width = 80 ; columns" ++ [newline] in
  same_outcome (IniParser.load_ini_file (Some text) ([], ∅))
               (IniParserX.load_ini_file (Some text) ([], IniParserX.empty)).
Proof.
  intros text. apply (both_classes_load_the_same text [] IniParserX.empty).
  - by_evaluation.
  - apply (bool_decide_unpack _). vm_compute. exact I.
Defined.

(** ** What the base class writes, read back *)

Lemma base_parse_generated_assignment S k e b :
  key_ok k → head k ≠ Some ";"%char → value_ok k e →
  ∃ r, IniParser.parse_inline (k ++ lit " = " ++ e) (S, b) = Returns r (S, put S k e b).
Proof.
  intros Hk Hc He.
  pose proof (plain_line_agrees (k ++ lit " = " ++ e) S (IniParserX.Parser b ∅ ∅)) as H.
  rewrite (parse_generated_assignment S k e _ Hk Hc He) in H.
  cbn [IniParserX.builder] in H.
  destruct (parse_inline (k ++ lit " = " ++ e) (S, b)) as [r [s1 b1] | e' w].
  - exists r. destruct H as [H1 H2].
    + unfold opens_section. rewrite (bool_decide_eq_true_2 ("="%char ∈ _)).
      * by rewrite andb_false_r.
      * rewrite !elem_of_app. right. left. by_evaluation.
    + cbn [fst snd] in H1, H2. subst. by rewrite store_builder.
  - exfalso. apply H.
    unfold opens_section. rewrite (bool_decide_eq_true_2 ("="%char ∈ _)).
    + by rewrite andb_false_r.
    + rewrite !elem_of_app. right. left. by_evaluation.
Qed.

Lemma base_parse_generated_header S sec b :
  "="%char ∉ S → "]"%char ∉ S → (N.of_nat (length S) < npos)%N →
  IniParser.parse_inline (lit "[" ++ S ++ lit "]") (sec, b) = Returns true (S, b).
Proof.
  intros Heq Hbr Hlen.
  change (lit "[" ++ S ++ lit "]") with ("["%char :: S ++ ["]"%char]).
  unfold parse_inline.
  rewrite decide_False by (rewrite find_chr_0; done).
  rewrite (find_chr_not_in _ "=") by chars.
  rewrite find_chr_cons, decide_True by done.
  unfold header_name.
  assert (Hf : find_chr ("["%char :: S ++ ["]"%char]) "]" = Some (length S + 1)).
  { change ("["%char :: S ++ ["]"%char]) with (("["%char :: S) ++ "]"%char :: []).
    rewrite find_chr_app; [simpl; f_equal; lia | chars]. }
  rewrite Hf. simpl pos_of.
  rewrite (sz_sub_small _ (N.of_nat 0)) by (unfold npos in Hlen; lia).
  rewrite sz_sub_small by (unfold npos in Hlen; lia).
  unfold substr_in. simpl drop. rewrite drop_0.
  replace (N.to_nat _) with (length S).
  2:{ simpl length. rewrite length_app. simpl. lia. }
  by rewrite take_app_length.
Qed.

Lemma base_parse_entries S kvs b :
  Forall (λ kv : str * str, key_ok kv.1 ∧ head kv.1 ≠ Some ";"%char ∧ value_ok kv.1 kv.2) kvs →
  IniParser.parse_lines (map (λ kv, kv.1 ++ lit " = " ++ kv.2) kvs) (S, b)
  = Returns tt (S, foldl (λ b kv, put S kv.1 kv.2 b) b kvs).
Proof.
  intros H. revert b. induction H as [| kv kvs (Hk & Hc & Hv) _ IH]; intros b; [done |].
  cbn [map parse_lines foldl].
  destruct (base_parse_generated_assignment S kv.1 kv.2 b Hk Hc Hv) as [r ->].
  apply IH.
Qed.

Lemma base_parse_document doc s0 b :
  Forall (λ skv : str * list (str * str),
            (section_ok skv.1 ∧ ("]"%char ∉ skv.1))
            ∧ Forall (λ kv : str * str,
                        key_ok kv.1 ∧ head kv.1 ≠ Some ";"%char ∧ value_ok kv.1 kv.2)
                     skv.2) doc →
  ∃ s', IniParser.parse_lines (base_document_lines doc) (s0, b)
        = Returns tt (s', foldl (λ b skv, put skv.1 skv.2.1 skv.2.2 b) b (entries_of doc)).
Proof.
  intros H. rewrite foldl_entries_of. revert s0 b.
  induction H as [| [sec kvs] doc [[(He & Hn & Hlen) Hbr] Hkvs] _ IH]; intros s0 b.
  - by exists s0.
  - unfold base_document_lines. cbn [map concat]. fold (base_document_lines doc).
    cbn [fst snd] in *. rewrite parse_lines_app.
    unfold base_section_lines. cbn [fst snd parse_lines].
    rewrite base_parse_generated_header by done.
    rewrite parse_lines_app, base_parse_entries by done.
    cbn [parse_lines]. change (parse_inline [] ?w) with (Returns (S:=str * Builder) false w).
    cbn [foldl fst snd]. apply IH.
Qed.

Lemma base_save_text doc :
  IniParser.save_in_order doc = text_of_lines (base_document_lines doc).
Proof.
  induction doc as [| [sec kvs] doc IH]; [done |].
  unfold save_in_order, base_document_lines in *. cbn [map concat].
  rewrite text_of_lines_app, <- IH. f_equal.
  unfold save_section, base_section_lines. cbn [fst snd].
  rewrite text_of_lines_cons, text_of_lines_app.
  rewrite (text_of_lines_cons [] []).
  change (text_of_lines []) with (@nil ascii).
  unfold text_of_lines at 1. rewrite map_map.
  assert (E : map (λ kv : str * str, kv.1 ++ lit " = " ++ kv.2 ++ [newline]) kvs
              = map (λ x : str * str, (x.1 ++ lit " = " ++ x.2) ++ [newline]) kvs).
  { apply map_ext. intros kv. by rewrite <- !app_assoc. }
  rewrite E. rewrite <- !app_assoc. done.
Qed.

Lemma writable_listing b doc :
  writable b → enumerates doc b →
  Forall (λ skv : str * list (str * str),
            (section_ok skv.1 ∧ ("]"%char ∉ skv.1))
            ∧ Forall (λ kv : str * str,
                        key_ok kv.1 ∧ head kv.1 ≠ Some ";"%char ∧ value_ok kv.1 kv.2)
                     skv.2) doc.
Proof.
  intros Hw Hen. apply Forall_forall. intros [sec kvs] Hin. cbn [fst snd].
  assert (Hsec : is_Some (b !! sec)).
  { apply (enumerates_sections _ _ _ Hen). apply list_elem_of_fmap. by exists (sec, kvs). }
  destruct Hsec as [m Hm]. destruct (Hw _ _ Hm) as (_ & Hs & Hbr & Hkv).
  split; [done |].
  apply Forall_forall. intros [k v] Hin'. cbn [fst snd].
  apply (Hkv k v).
  assert (E : entry b sec k = Some v).
  { apply (enumerates_entry _ _ _ _ _ Hen).
    unfold entries_of. apply list_elem_of_bind. exists (sec, kvs). split; [| done].
    apply list_elem_of_fmap. by exists (k, v). }
  unfold entry in E. by rewrite Hm in E.
Qed.

Lemma writable_no_empty b : writable b → no_empty_section b.
Proof. intros Hw S m Hm. by destruct (Hw _ _ Hm) as (? & _). Qed.

Lemma base_lines_no_newline doc :
  Forall (λ skv : str * list (str * str),
            (section_ok skv.1 ∧ ("]"%char ∉ skv.1))
            ∧ Forall (λ kv : str * str,
                        key_ok kv.1 ∧ head kv.1 ≠ Some ";"%char ∧ value_ok kv.1 kv.2)
                     skv.2) doc →
  Forall (λ l, newline ∉ l) (base_document_lines doc).
Proof.
  intros H. unfold base_document_lines. apply Forall_concat, Forall_fmap.
  eapply Forall_impl; [exact H |]. intros [sec kvs] [[(He & Hn & Hlen) Hbr] Hkvs].
  cbn [fst snd] in *. unfold base_section_lines. cbn [fst snd].
  apply Forall_cons. split.
  { cbn [fst snd]. change (lit "[" ++ sec ++ lit "]") with ("["%char :: sec ++ ["]"%char]).
    rewrite not_elem_of_cons, not_elem_of_app, not_elem_of_cons.
    split_and!; [done | done | done | apply not_elem_of_nil]. }
  apply Forall_app. split; [| constructor; [apply not_elem_of_nil | constructor]].
  apply Forall_fmap. eapply Forall_impl; [exact Hkvs |].
  intros [k v] ([Hk _] & _ & [Hv _]). cbn [fst snd] in *.
  apply stripped_no_newline in Hk, Hv. simpl.
  rewrite not_elem_of_app, !not_elem_of_cons. done.
Qed.

Lemma replayed_builder b doc :
  no_empty_section b → enumerates doc b →
  foldl (λ b skv, put skv.1 skv.2.1 skv.2.2 b) ∅ (entries_of doc) = b.
Proof.
  intros Hne Hen.
  pose proof (enumerates_NoDup _ _ Hen) as Hnd.
  assert (Hfun : ∀ sec k v v',
            (sec, (k, v)) ∈ entries_of doc → (sec, (k, v')) ∈ entries_of doc → v = v').
  { intros sec k v v' H1 H2. apply (enumerates_entry _ _ _ _ _ Hen) in H1, H2. congruence. }
  pose proof (replay_builder IniParserX.empty (entries_of doc) (∅, ∅)) as Hb.
  cbn [fst] in Hb. rewrite <- Hb.
  apply builder_ext.
  - apply replay_no_empty, no_empty_section_empty.
  - done.
  - intros sec k.
    destruct (replay_entries IniParserX.empty (entries_of doc) Hnd Hfun (∅, ∅) sec k)
      as [Ha Hc].
    destruct (entry b sec k) as [v |] eqn:E.
    + apply Ha. by apply (enumerates_entry _ _ _ _ _ Hen).
    + rewrite Hc.
      * unfold entry. simpl. by rewrite lookup_empty.
      * intros v Hin. apply (enumerates_entry _ _ _ _ _ Hen) in Hin. congruence.
Qed.

(** X13.  What the base class saves, a new object of the base class loads
    back: for a document without empty sections whose section names, keys
    and values are such as a file can carry, whatever the order in which
    the hash maps are listed and whatever the static section is when the
    load begins, the loaded document is the saved one. *)
Theorem base_round_trip
    (b : Builder) (doc : list (str * list (str * str))) (sec1 : str) :
  writable b →
  enumerates doc b →
  ∃ sec',
    IniParser.load_ini_file (Some (IniParser.save_in_order doc)) (sec1, ∅)
    = Returns true (sec', b).
Proof.
  intros Hw Hen. pose proof (writable_listing b doc Hw Hen) as Hdoc.
  rewrite base_save_text. cbn [load_ini_file].
  rewrite getlines_text_of_lines by (by apply base_lines_no_newline).
  destruct (base_parse_document doc sec1 ∅ Hdoc) as [s' ->].
  exists s'. by rewrite (replayed_builder b doc (writable_no_empty b Hw) Hen).
Qed.

Lemma base_round_trip_witness :
  let b : Builder :=
    {[ lit "Profile" := {[ lit "Name" := lit "John"; lit "Age" := lit "25" ]};
       lit ".Config" := {[ lit "items[]" := lit "a b" ]} ]} in
  ∃ sec', IniParser.load_ini_file (Some (IniParser.save_ini_file b)) (lit "Old", ∅)
          = Returns true (sec', b).
Proof.
  intros b. apply base_round_trip; [| apply enumerate_enumerates].
  apply (bool_decide_unpack _). vm_compute. exact I.
Defined.

(** ** What the extended class writes *)

Lemma save_entry_registered x sec kv :
  "]"%char ∉ sec →
  IniParserX.save_entry sec kv x
  = if decide (array_key kv.1 → is_Some (IniParserX.arrays x !! array_path sec kv.1))
    then inr (text_of_lines (entry_lines x sec kv))
    else inl KeyNotArray.
Proof.
  intros Hs. unfold IniParserX.save_entry, entry_lines, elements_of, array_key.
  destruct (find_sub kv.1 (lit "[]")) as [p |] eqn:F.
  - rewrite size_of_array2_spec by done.
    destruct (IniParserX.arrays x !! array_path sec kv.1) as [l |] eqn:Hl.
    + rewrite decide_True by eauto. cbn [IniParserX.bind_exn default].
      pose proof (save_elements_text sec kv.1 x l 0 Hs Hl) as H.
      rewrite Nat.sub_0_r, drop_0 in H. exact H.
    + rewrite decide_False; [done |]. intros H. destruct H as [? ?]; [eauto | done].
  - rewrite decide_True by (by intros [? ?]).
    cbn [map]. rewrite (text_of_lines_cons (kv.1 ++ lit " = " ++ kv.2) []).
    change (text_of_lines []) with (@nil ascii). by rewrite <- !app_assoc.
Qed.

Lemma save_entries_registered x sec kvs :
  "]"%char ∉ sec →
  IniParserX.save_entries sec kvs x
  = if decide (Forall (λ kv : str * str,
                         array_key kv.1 →
                         is_Some (IniParserX.arrays x !! array_path sec kv.1)) kvs)
    then inr (text_of_lines (concat (map (entry_lines x sec) kvs)))
    else inl KeyNotArray.
Proof.
  intros Hs. induction kvs as [| kv kvs IH].
  - by rewrite decide_True by constructor.
  - cbn [IniParserX.save_entries]. rewrite save_entry_registered, IH by done.
    destruct (decide (array_key kv.1 → _)) as [H1 | H1]; cbn [IniParserX.bind_exn].
    + destruct (decide (Forall _ kvs)) as [H2 | H2]; cbn [IniParserX.bind_exn].
      * rewrite decide_True by (by constructor).
        cbn [map concat]. by rewrite text_of_lines_app.
      * rewrite decide_False; [done |]. by intros [_ ?]%Forall_cons.
    + rewrite decide_False; [done |]. by intros [? _]%Forall_cons.
Qed.

Lemma save_in_order_registered x doc :
  Forall (λ skv : str * list (str * str), "]"%char ∉ skv.1) doc →
  IniParserX.save_in_order doc x
  = if decide (registered x doc)
    then inr (text_of_lines (document_lines x doc))
    else inl KeyNotArray.
Proof.
  unfold registered.
  induction 1 as [| [sec kvs] doc Hs Hdoc IH].
  - by rewrite decide_True by constructor.
  - cbn [IniParserX.save_in_order fst snd] in *.
    rewrite save_entries_registered, IH by done.
    destruct (decide (Forall _ kvs)) as [H1 | H1]; cbn [IniParserX.bind_exn].
    + destruct (decide (Forall _ doc)) as [H2 | H2]; cbn [IniParserX.bind_exn].
      * rewrite decide_True by (by constructor).
        unfold document_lines. cbn [map concat]. rewrite text_of_lines_app.
        fold (document_lines x doc). unfold section_lines. cbn [fst snd].
        rewrite text_of_lines_cons, text_of_lines_app.
        rewrite (text_of_lines_cons [] []).
        change (text_of_lines []) with (@nil ascii). f_equal.
        rewrite <- !app_assoc. cbn [app]. by rewrite <- !app_assoc.
      * rewrite decide_False; [done |]. by intros [_ ?]%Forall_cons.
    + rewrite decide_False; [done |]. by intros [? _]%Forall_cons.
Qed.

(** X14.  The extended class writes a header line for each section, a line
    for each entry without the array suffix, a line for each element of
    the array of an entry with the suffix, and an empty line after each
    section.  When an entry with the suffix has no array in the table, as
    after [operator[]] has created it, [save_ini_file] throws
    [KeyNotArray] instead. *)
Theorem save_needs_registered_arrays
    (x : IniParserX.parser) (doc : list (str * list (str * str))) :
  Forall (λ skv : str * list (str * str), "]"%char ∉ skv.1) doc →
  (registered x doc →
   IniParserX.save_in_order doc x = inr (text_of_lines (document_lines x doc)))
  ∧ (¬ registered x doc → IniParserX.save_in_order doc x = inl KeyNotArray).
Proof.
  intros Hs. rewrite save_in_order_registered by done.
  split; intros H; [by rewrite decide_True | by rewrite decide_False].
Qed.

Lemma save_needs_registered_arrays_witness :
  let x0 := IniParserX.Parser {[ lit "s" := {[ lit "a" := lit "1" ]} ]} ∅ ∅ in
  let x := state_of (IniParserX.index (lit "s/k[]") x0) in
  IniParserX.index (lit "s/k[]") x0 = Returns [] x
  ∧ IniParserX.save_ini_file x = inl KeyNotArray
  ∧ IniParserX.save_ini_file x0
    = inr (lit "[s]" ++ [newline] ++ lit "a = 1" ++ [newline] ++ [newline]).
Proof.
  intros x0 x. split_and!.
  - vm_compute. reflexivity.
  - apply (save_needs_registered_arrays x (enumerate (IniParserX.builder x))).
    + apply (bool_decide_unpack _). vm_compute. exact I.
    + apply (bool_decide_unpack _). vm_compute. exact I.
  - destruct (save_needs_registered_arrays x0 (enumerate (IniParserX.builder x0))) as [H _].
    + apply (bool_decide_unpack _). vm_compute. exact I.
    + unfold IniParserX.save_ini_file. rewrite H.
      * vm_compute. reflexivity.
      * apply (bool_decide_unpack _). vm_compute. exact I.
Defined.

(** ** Reading arrays *)

Lemma find_sub_in_path sec name :
  "]"%char ∉ sec →
  find_sub (sec ++ "/"%char :: name) (lit "[]")
  = (λ p, length sec + 1 + p) <$> find_sub name (lit "[]").
Proof.
  intros Hs. induction sec as [| c sec IH].
  - cbn [app find_sub length].
    change (starts_with (lit "[]") ("/"%char :: name)) with false.
    destruct (find_sub name (lit "[]")); [| done]. simpl. f_equal.
  - apply not_elem_of_cons in Hs as [Hc Hs].
    change ((c :: sec) ++ "/"%char :: name) with (c :: (sec ++ "/"%char :: name)).
    cbn [find_sub].
    destruct (starts_with (lit "[]") (c :: sec ++ "/"%char :: name)) eqn:E.
    + apply starts_with_suffix in E. destruct sec as [| d sec]; simpl in E; [done |].
      injection E as ->. exfalso. apply Hs. left.
    + rewrite IH by done. destruct (find_sub name (lit "[]")); [| done]. simpl. f_equal.
Qed.

Lemma get_array_name_path sec name :
  "]"%char ∉ sec →
  IniParserX.get_array_name (sec ++ lit "/" ++ name) = array_path sec name.
Proof.
  intros Hs. unfold array_path, IniParserX.get_array_name.
  change (lit "/" ++ ?t) with ("/"%char :: t).
  rewrite find_sub_in_path by done.
  destruct (find_sub name (lit "[]")) as [p |]; [| done]. simpl.
  rewrite !substr_in_0.
  replace (length sec + 1 + p) with (length sec + S p) by lia.
  by rewrite take_app_add.
Qed.

Lemma is_array_qualified sec name x :
  "]"%char ∉ sec →
  IniParserX.is_array (sec ++ lit "/" ++ name) x = IniParserX.is_array2 sec name x.
Proof.
  intros Hs. unfold IniParserX.is_array, IniParserX.is_array2.
  by rewrite get_array_name_path.
Qed.

Lemma value_of_array2_spec S K i x :
  "]"%char ∉ S →
  IniParserX.value_of_array2 S K i x
  = match IniParserX.arrays x !! array_path S K with
    | Some l => match l !! i with
                | Some v => inr v
                | None => inl std_out_of_range
                end
    | None => inl KeyNotArray
    end.
Proof.
  intros HS. unfold IniParserX.value_of_array2. fold (array_path S K).
  unfold IniParserX.is_array. rewrite array_path_no_suffix by done.
  unfold IniParserX.arrays_at, IniParserX.vector_at.
  by destruct (IniParserX.arrays x !! array_path S K).
Qed.

(** X15.  [value_of_array] gives the element at the index of the array that is
    filed under the name without its suffix.  It throws [KeyNotArray] when
    there is no such array and [std::out_of_range] when the index is not
    below the size.  [is_array] tells which of the two it is. *)
Theorem value_of_array_spec (S K key : str) (i : nat) (x : IniParserX.parser) :
  "]"%char ∉ S →
  IniParserX.value_of_array2 S K i x
  = match IniParserX.arrays x !! (S ++ lit "/" ++ IniParserX.get_array_name K) with
    | Some l => match l !! i with
                | Some v => inr v
                | None => inl std_out_of_range
                end
    | None => inl KeyNotArray
    end
  ∧ IniParserX.value_of_array key i x
    = match IniParserX.arrays x !! IniParserX.get_array_name key with
      | Some l => match l !! i with
                  | Some v => inr v
                  | None => inl std_out_of_range
                  end
      | None => inl KeyNotArray
      end
  ∧ IniParserX.is_array2 S K x
    = bool_decide (is_Some (IniParserX.arrays x !! (S ++ lit "/" ++ IniParserX.get_array_name K)))
  ∧ IniParserX.is_array (S ++ lit "/" ++ K) x = IniParserX.is_array2 S K x.
Proof.
  intros HS. split_and!.
  - by apply value_of_array2_spec.
  - unfold IniParserX.value_of_array, IniParserX.is_array.
    rewrite get_array_name_idem.
    unfold IniParserX.arrays_at, IniParserX.vector_at.
    by destruct (IniParserX.arrays x !! IniParserX.get_array_name key).
  - done.
  - by apply is_array_qualified.
Qed.

Lemma value_of_array_spec_witness :
  let x := IniParserX.Parser {[ lit "Log" := {[ lit "files[]" := lit "b" ]} ]}
             {[ lit "Log/files" := [lit "a"; lit "b"] ]} ∅ in
  IniParserX.value_of_array2 (lit "Log") (lit "files[]") 1 x = inr (lit "b")
  ∧ IniParserX.value_of_array2 (lit "Log") (lit "files") 2 x = inl std_out_of_range
  ∧ IniParserX.value_of_array2 (lit "Log") (lit "names") 0 x = inl KeyNotArray.
Proof.
  intros x.
  assert (H : "]"%char ∉ lit "Log") by by_evaluation.
  split_and!.
  - destruct (value_of_array_spec (lit "Log") (lit "files[]") [] 1 x H) as [E _].
    rewrite E. vm_compute. reflexivity.
  - destruct (value_of_array_spec (lit "Log") (lit "files") [] 2 x H) as [E _].
    rewrite E. vm_compute. reflexivity.
  - destruct (value_of_array_spec (lit "Log") (lit "names") [] 0 x H) as [E _].
    rewrite E. vm_compute. reflexivity.
Defined.

(** ** Adding and removing arrays *)

(** X16.  [add_array] throws [KeyAlreadyExist] when the section has an entry
    under the name of the array, with or without the suffix.  Otherwise it
    takes the last element of the array, which an empty array does not
    have, stores it under the key followed by the suffix, and files the
    array under the name without suffix. *)
Theorem add_array_contract (S K : str) (E : list str) (x : IniParserX.parser) :
  "/"%char ∉ S →
  let name := IniParserX.get_array_name K in
  IniParserX.add_array S K E x
  = if bool_decide (is_Some (entry (IniParserX.builder x) S (name ++ lit "[]"))
                    ∨ is_Some (entry (IniParserX.builder x) S name))
    then Throws KeyAlreadyExist x
    else match last E with
         | Some back =>
             Returns tt
               (IniParserX.Parser
                  (<[S := <[K ++ lit "[]" := back]> (default ∅ (IniParserX.builder x !! S))]>
                     (IniParserX.builder x))
                  (<[S ++ lit "/" ++ name := E]> (IniParserX.arrays x))
                  (IniParserX.connection x))
         | None => Throws undefined_behaviour x
         end.
Proof.
  intros HS name. unfold IniParserX.add_array. fold name.
  rewrite <- !app_assoc. rewrite !include_entry by done.
  set (P := is_Some (entry _ S (name ++ lit "[]"))).
  set (Q := is_Some (entry _ S name)).
  destruct (decide P) as [HP | HP].
  - rewrite (bool_decide_eq_true_2 P) by done. cbn [negb andb].
    by rewrite bool_decide_eq_true_2 by (by left).
  - rewrite (bool_decide_eq_false_2 P) by done. cbn [negb andb].
    destruct (decide Q) as [HQ | HQ].
    + rewrite (bool_decide_eq_true_2 Q) by done. cbn [negb].
      by rewrite bool_decide_eq_true_2 by (by right).
    + rewrite (bool_decide_eq_false_2 Q) by done. cbn [negb].
      rewrite bool_decide_eq_false_2 by tauto.
      by destruct (last E).
Qed.

Lemma add_array_contract_witness :
  let x := state_of (IniParserX.add_array (lit "Hobby") (lit "items")
                       [lit "Running"; lit "Football"] IniParserX.empty) in
  x = IniParserX.Parser {[ lit "Hobby" := {[ lit "items[]" := lit "Football" ]} ]}
        {[ lit "Hobby/items" := [lit "Running"; lit "Football"] ]} ∅
  ∧ IniParserX.add_array (lit "Hobby") (lit "items") [lit "Chess"] x
    = Throws KeyAlreadyExist x.
Proof.
  intros x.
  assert (H : "/"%char ∉ lit "Hobby") by by_evaluation.
  split.
  - unfold x.
    rewrite (add_array_contract (lit "Hobby") (lit "items") _ IniParserX.empty H).
    vm_compute. reflexivity.
  - rewrite (add_array_contract (lit "Hobby") (lit "items") _ x H).
    vm_compute. reflexivity.
Defined.

Lemma add_array_returns S K E x x' :
  IniParserX.add_array S K E x = Returns tt x' →
  ∃ back, last E = Some back
  ∧ x' = IniParserX.Parser (put S (K ++ lit "[]") back (IniParserX.builder x))
           (<[array_path S K := E]> (IniParserX.arrays x))
           (IniParserX.connection x).
Proof.
  unfold IniParserX.add_array. fold (array_path S K).
  destruct (_ && _); [| done].
  destruct (last E) as [back |]; [| done].
  intros [= <-]. by exists back.
Qed.

(** X17.  After [add_array] has returned, the array can be read back under the
    key with or without the suffix: its size, each of its elements, and
    [std::out_of_range] beyond them; the entry that stands for it in the
    document holds its last element. *)
Theorem add_array_reads_back
    (S K : str) (E : list str) (x x' : IniParserX.parser) :
  "]"%char ∉ S →
  IniParserX.add_array S K E x = Returns tt x' →
  IniParserX.is_array2 S K x' = true
  ∧ IniParserX.size_of_array2 S K x' = inr (length E)
  ∧ (∀ i, IniParserX.value_of_array2 S K i x'
          = match E !! i with
            | Some v => inr v
            | None => inl std_out_of_range
            end)
  ∧ E ≠ []
  ∧ entry (IniParserX.builder x') S (K ++ lit "[]") = last E.
Proof.
  intros HS (back & Hb & ->)%add_array_returns.
  split_and!.
  - unfold IniParserX.is_array2. fold (array_path S K). cbn [IniParserX.arrays].
    rewrite lookup_insert_eq. by apply bool_decide_eq_true_2.
  - rewrite size_of_array2_spec by done. cbn [IniParserX.arrays].
    by rewrite lookup_insert_eq.
  - intros i. rewrite value_of_array2_spec by done. cbn [IniParserX.arrays].
    by rewrite lookup_insert_eq.
  - by intros ->.
  - cbn [IniParserX.builder]. rewrite entry_put, decide_True by done. by rewrite Hb.
Qed.

Lemma add_array_reads_back_witness :
  let x := state_of (IniParserX.add_array (lit "Hobby") (lit "items")
                       [lit "Running"; lit "Football"] IniParserX.empty) in
  IniParserX.size_of_array2 (lit "Hobby") (lit "items") x = inr 2
  ∧ IniParserX.value_of_array2 (lit "Hobby") (lit "items") 0 x = inr (lit "Running").
Proof.
  intros x.
  destruct (add_array_reads_back (lit "Hobby") (lit "items")
              [lit "Running"; lit "Football"] IniParserX.empty x)
    as (_ & H1 & H2 & _); [by_evaluation | vm_compute; reflexivity |].
  split; [exact H1 | exact (H2 0)].
Defined.

Lemma entry_erase_same S K b : entry (erase_if_empty S (erase_key S K b)) S K = None.
Proof. rewrite entry_erase. by rewrite decide_True. Qed.

(** X18.  [remove_array] undoes [add_array]: when the array table has nothing
    under the name, removing the array that [add_array] has just added
    gives the object back. *)
Theorem add_array_then_remove_array
    (S K : str) (E : list str) (x x' : IniParserX.parser) :
  no_empty_section (IniParserX.builder x) →
  IniParserX.arrays x !! (S ++ lit "/" ++ IniParserX.get_array_name K) = None →
  entry (IniParserX.builder x) S (K ++ lit "[]") = None →
  IniParserX.add_array S K E x = Returns tt x' →
  IniParserX.remove_array S K x' = Returns tt x.
Proof.
  intros Hne Harr Hent (back & Hb & ->)%add_array_returns.
  unfold IniParserX.remove_array, IniParserX.is_array2. fold (array_path S K).
  cbn [IniParserX.arrays]. rewrite lookup_insert_eq.
  rewrite bool_decide_eq_true_2 by eauto. f_equal.
  apply parser_eq; cbn [IniParserX.builder IniParserX.arrays IniParserX.connection
                        IniParserX.set_builder IniParserX.set_arrays].
  - by apply erase_put_absent.
  - by rewrite delete_insert_eq, delete_id.
  - done.
Qed.

Lemma add_array_then_remove_array_witness :
  let x := IniParserX.Parser {[ lit "Hobby" := {[ lit "count" := lit "2" ]} ]} ∅ ∅ in
  IniParserX.remove_array (lit "Hobby") (lit "items")
    (state_of (IniParserX.add_array (lit "Hobby") (lit "items")
                 [lit "Running"; lit "Football"] x))
  = Returns tt x.
Proof.
  intros x.
  apply (add_array_then_remove_array (lit "Hobby") (lit "items")
           [lit "Running"; lit "Football"] x).
  - intros S m. unfold x. cbn [IniParserX.builder]. rewrite lookup_singleton_Some. intros [_ <-].
    apply insert_non_empty.
  - vm_compute. reflexivity.
  - vm_compute. reflexivity.
  - vm_compute. reflexivity.
Defined.

(** ** Scalars and arrays in the extended class *)

Lemma valueX2_entry S K x :
  "/"%char ∉ S → "]"%char ∉ S →
  IniParserX.value2 S K x
  = match entry (IniParserX.builder x) S K with
    | Some v => if IniParserX.is_array2 S K x then Throws KeyIsArray x else Returns v x
    | None => Throws KeyNotFound x
    end.
Proof.
  intros HS HB. unfold IniParserX.value2.
  rewrite include_entry, is_array_qualified by done.
  destruct (entry (IniParserX.builder x) S K) as [v |] eqn:E.
  - rewrite (include_section_of_entry _ S K) by (rewrite ?E; eauto).
    rewrite bool_decide_eq_true_2 by eauto. cbn [negb].
    destruct (IniParserX.is_array2 S K x); [done |].
    rewrite (subscript_entry _ _ _ _ E). by destruct x.
  - rewrite bool_decide_eq_false_2 by (by intros [? ?]). cbn [negb].
    by destruct (negb (include _ S)).
Qed.

(** X19.  In the extended class the two forms of [value] throw [KeyNotFound]
    when the section has no such key, throw [KeyIsArray] when the key
    names an array of the table, and return the stored value otherwise;
    they leave the object as it is. *)
Theorem extended_value_reads (S K : str) (x : IniParserX.parser) :
  "/"%char ∉ S →
  "]"%char ∉ S →
  IniParserX.value2 S K x
  = match entry (IniParserX.builder x) S K with
    | Some v => if IniParserX.is_array2 S K x then Throws KeyIsArray x else Returns v x
    | None => Throws KeyNotFound x
    end
  ∧ IniParserX.value (S ++ lit "/" ++ K) x = IniParserX.value2 S K x.
Proof.
  intros HS HB. split; [by apply valueX2_entry |].
  rewrite valueX2_entry by done. unfold IniParserX.value.
  rewrite find_chr_qualified, include_entry, is_array_qualified by done.
  rewrite qualified_section, qualified_key.
  destruct (entry (IniParserX.builder x) S K) as [v |] eqn:E.
  - rewrite bool_decide_eq_true_2 by eauto. cbn [negb].
    destruct (IniParserX.is_array2 S K x); [done |].
    rewrite (subscript_entry _ _ _ _ E). by destruct x.
  - by rewrite bool_decide_eq_false_2 by (by intros [? ?]).
Qed.

Lemma extended_value_reads_witness :
  let x := IniParserX.Parser
             {[ lit "Log" := {[ lit "files[]" := lit "b"; lit "level" := lit "info" ]} ]}
             {[ lit "Log/files" := [lit "a"; lit "b"] ]} ∅ in
  IniParserX.value2 (lit "Log") (lit "files[]") x = Throws KeyIsArray x
  ∧ IniParserX.value2 (lit "Log") (lit "level") x = Returns (lit "info") x
  ∧ IniParserX.value2 (lit "Log") (lit "files") x = Throws KeyNotFound x.
Proof.
  intros x.
  assert (H1 : "/"%char ∉ lit "Log") by by_evaluation.
  assert (H2 : "]"%char ∉ lit "Log") by by_evaluation.
  split_and!.
  - destruct (extended_value_reads (lit "Log") (lit "files[]") x H1 H2) as [E _].
    rewrite E. vm_compute. reflexivity.
  - destruct (extended_value_reads (lit "Log") (lit "level") x H1 H2) as [E _].
    rewrite E. vm_compute. reflexivity.
  - destruct (extended_value_reads (lit "Log") (lit "files") x H1 H2) as [E _].
    rewrite E. vm_compute. reflexivity.
Defined.

(** X20.  Every listed entry of the extended class can be read in the way the
    demonstration program does: when [is_array] holds of the section and
    the key, [size_of_array] returns and [value_of_array] returns for each
    index below the size; otherwise [value] returns the stored value. *)
Theorem listed_entries_can_be_read_extended
    (S K v : str) (x : IniParserX.parser) :
  "/"%char ∉ S →
  "]"%char ∉ S →
  entry (IniParserX.builder x) S K = Some v →
  S ∈ all_sections (IniParserX.builder x)
  ∧ (∃ keys, all_keys S (IniParserX.builder x) = inr keys ∧ K ∈ keys)
  ∧ if IniParserX.is_array2 S K x then
      ∃ n, IniParserX.size_of_array2 S K x = inr n
           ∧ ∀ i, i < n → ∃ e, IniParserX.value_of_array2 S K i x = inr e
    else IniParserX.value2 S K x = Returns v x.
Proof.
  intros HS HB HE. split_and!.
  - apply all_sections_spec. eapply entry_section. by rewrite HE.
  - rewrite all_keys_spec by done. rewrite entry_lookup in HE.
    destruct (IniParserX.builder x !! S) as [m |]; [| done].
    eexists. split; [done |]. apply keys_spec. eauto.
  - destruct (IniParserX.is_array2 S K x) eqn:Ha.
    + unfold IniParserX.is_array2 in Ha. fold (array_path S K) in Ha.
      apply bool_decide_eq_true in Ha as [l Hl].
      exists (length l). rewrite size_of_array2_spec, Hl by done.
      split; [done |]. intros i Hi. rewrite value_of_array2_spec, Hl by done.
      destruct (lookup_lt_is_Some_2 l i Hi) as [e ->]. eauto.
    + by rewrite valueX2_entry, HE, Ha by done.
Qed.

Lemma listed_entries_can_be_read_extended_witness :
  let x := IniParserX.Parser
             {[ lit "Log" := {[ lit "files[]" := lit "b"; lit "level" := lit "info" ]} ]}
             {[ lit "Log/files" := [lit "a"; lit "b"] ]} ∅ in
  IniParserX.value2 (lit "Log") (lit "level") x = Returns (lit "info") x
  ∧ ∃ n, IniParserX.size_of_array2 (lit "Log") (lit "files[]") x = inr n.
Proof.
  intros x.
  assert (H1 : "/"%char ∉ lit "Log") by by_evaluation.
  assert (H2 : "]"%char ∉ lit "Log") by by_evaluation.
  split.
  - destruct (listed_entries_can_be_read_extended (lit "Log") (lit "level") (lit "info") x H1 H2)
      as (_ & _ & H); [vm_compute; reflexivity |].
    exact H.
  - destruct (listed_entries_can_be_read_extended (lit "Log") (lit "files[]") (lit "b") x H1 H2)
      as (_ & _ & H); [vm_compute; reflexivity |].
    destruct H as (n & E & _). by exists n.
Defined.

(** ** What a load leaves *)

(** X21.  After a load into a new object of the extended class no section is
    empty; every key and every value is non-empty, on one line and without
    a space at either end, and no key has an [=]; every key with the array
    suffix has its array in the table; and every array of the table
    belongs to an entry with the suffix, whose value is the last element
    of the array. *)
Theorem load_leaves_consistent_tables
    (text sec0 sec : str) (x : IniParserX.parser) :
  (N.of_nat (length sec0 + length text) < npos)%N →
  "="%char ∉ sec0 →
  newline ∉ sec0 →
  IniParserX.load_ini_file (Some text) (sec0, IniParserX.empty) = Returns true (sec, x) →
  parsed x.
Proof.
  intros Hlen He Hn. cbn [IniParserX.load_ini_file].
  destruct (IniParserX.parse_lines (getlines text) (sec0, IniParserX.empty))
    as [[] [s' x'] | e w] eqn:E; [| done].
  intros [= <- <-].
  eapply (parse_lines_parsed (getlines text) sec0 IniParserX.empty s' x').
  - apply parsed_empty.
  - done.
  - done.
  - apply getlines_no_newline.
  - pose proof (getlines_total text). lia.
  - done.
Qed.

Lemma load_leaves_consistent_tables_witness :
  let text := lit "[Log]" ++ [newline] ++ lit "files[] = a" ++ [newline]
              ++ lit "files[] = b" ++ [newline] in
  parsed (state_of (IniParserX.load_ini_file (Some text) ([], IniParserX.empty))).2.
Proof.
  intros text.
  apply (load_leaves_consistent_tables text [] (lit "Log")).
  - by_evaluation.
  - apply not_elem_of_nil.
  - apply not_elem_of_nil.
  - vm_compute. reflexivity.
Defined.

(** ** Lines that store nothing *)

(** X22.  A line whose first character is [;], and a line that has neither an
    [=] nor a [[], the empty line among them, leave the static section and
    the object as they are; [parse_inline] returns [false]. *)
Theorem comments_and_plain_lines_are_ignored
    (buffer : str) (w : str * Builder) (wx : str * IniParserX.parser) :
  head buffer = Some ";"%char ∨ (("="%char ∉ buffer) ∧ ("["%char ∉ buffer)) →
  IniParser.parse_inline buffer w = Returns false w
  ∧ IniParserX.parse_inline buffer wx = Returns false wx.
Proof.
  intros H. destruct w as [sec b], wx as [secx x].
  unfold parse_inline, IniParserX.parse_inline.
  destruct H as [H | [H1 H2]].
  - apply find_chr_0 in H. by rewrite !decide_True by done.
  - destruct (decide _); [done |].
    by rewrite (find_chr_not_in _ "="), (find_chr_not_in _ "[") by done.
Qed.

Lemma comments_and_plain_lines_are_ignored_witness :
  IniParser.parse_inline (lit ";[A] x = 1") (lit "Old", ∅) = Returns false (lit "Old", ∅)
  ∧ IniParserX.parse_inline [] (lit "Old", IniParserX.empty)
    = Returns false (lit "Old", IniParserX.empty).
Proof.
  split.
  - apply (comments_and_plain_lines_are_ignored _ _ ([], IniParserX.empty)).
    left. reflexivity.
  - apply (comments_and_plain_lines_are_ignored _ ([], ∅)).
    right. split; apply not_elem_of_nil.
Defined.

(** ** Array lines *)

(** X23.  In the extended class an assignment line stores its entry as in the
    base class; when the key has the array suffix, the value is also
    appended to the array that is filed under the section and the text of
    the key before the suffix. *)
Theorem assignment_line_in_extended_class
    (buffer sec : str) (x : IniParserX.parser) :
  (N.of_nat (length buffer) < size_max)%N →
  head buffer ≠ Some ";"%char →
  "="%char ∈ buffer →
  ¬ blank (key_part buffer) →
  ¬ blank (value_part buffer) →
  let k := trim (key_part buffer) in
  let v := trim (value_part buffer) in
  IniParserX.parse_inline buffer (sec, x)
  = Returns true
      (sec,
       IniParserX.Parser
         (<[sec := <[k := v]> (default ∅ (IniParserX.builder x !! sec))]>
            (IniParserX.builder x))
         (match find_sub k (lit "[]") with
          | Some p =>
              <[sec ++ lit "/" ++ take p k :=
                  default [] (IniParserX.arrays x !! (sec ++ lit "/" ++ take p k)) ++ [v]]>
                (IniParserX.arrays x)
          | None => IniParserX.arrays x
          end)
         (IniParserX.connection x)).
Proof.
  intros Hlen Hc He Hk Hv k v.
  rewrite parseX_inline_assignment, with_stripped_ok by done.
  fold k v. do 2 f_equal. unfold IniParserX.store.
  destruct (find_sub k (lit "[]")) as [p |]; [| done].
  by rewrite substr_in_0.
Qed.

Lemma assignment_line_in_extended_class_witness :
  IniParserX.parse_inline (lit "  files[] = b.log ; second")
    (lit "Log", IniParserX.Parser {[ lit "Log" := {[ lit "files[]" := lit "a.log" ]} ]}
                  {[ lit "Log/files" := [lit "a.log"] ]} ∅)
  = Returns true
      (lit "Log", IniParserX.Parser {[ lit "Log" := {[ lit "files[]" := lit "b.log" ]} ]}
                    {[ lit "Log/files" := [lit "a.log"; lit "b.log"] ]} ∅).
Proof.
  rewrite assignment_line_in_extended_class; [| by_evaluation ..].
  vm_compute. reflexivity.
Defined.

(** X24.  The lines [key[] = e] of an array, one after the other, append their
    values to the array in the order of the lines, and leave the last of
    them as the value of the entry [key[]].  The key and the elements are
    such as a line gives back: the key is not empty, has no space at
    either end, no [=], no newline and no [;] in front, and has the array
    suffix; every element is not empty, has no space at either end and no
    newline, has no [;] unless the key has one, and is with the key
    shorter than [npos]; and there is at least one element. *)
Theorem array_lines_accumulate
    (sec k : str) (es : list str) (x : IniParserX.parser) :
  key_ok k →
  head k ≠ Some ";"%char →
  array_key k →
  Forall (value_ok k) es →
  es ≠ [] →
  ∃ x',
    IniParserX.parse_lines (map (λ e, k ++ lit " = " ++ e) es) (sec, x)
    = Returns tt (sec, x')
    ∧ IniParserX.arrays x' !! (sec ++ lit "/" ++ IniParserX.get_array_name k)
      = Some (default [] (IniParserX.arrays x !! (sec ++ lit "/" ++ IniParserX.get_array_name k))
              ++ es)
    ∧ entry (IniParserX.builder x') sec k = last es.
Proof.
  intros Hk Hc [p Hp] Hes Hne.
  rewrite parse_elements by done. eexists. split; [done |].
  pose proof (tables_store_elements sec k es x Hne) as T.
  rewrite Hp in T. unfold tables in T. injection T as Tb Ta.
  fold (array_path sec k). rewrite Tb, Ta. split.
  - by rewrite lookup_insert_eq.
  - rewrite entry_put, decide_True by done.
    destruct (last es) eqn:E; [done |]. apply last_None in E. done.
Qed.

Lemma array_lines_accumulate_witness :
  ∃ x',
    IniParserX.parse_lines [lit "files[] = a.log"; lit "files[] = b.log"]
      (lit "Log", IniParserX.empty)
    = Returns tt (lit "Log", x')
    ∧ IniParserX.arrays x' !! lit "Log/files" = Some [lit "a.log"; lit "b.log"]
    ∧ entry (IniParserX.builder x') (lit "Log") (lit "files[]") = Some (lit "b.log").
Proof.
  apply (array_lines_accumulate (lit "Log") (lit "files[]")
           [lit "a.log"; lit "b.log"] IniParserX.empty).
  - by_evaluation.
  - by_evaluation.
  - by_evaluation.
  - by_evaluation.
  - done.
Defined.

(** ** Removing an array *)

(** X25.  [remove_array] throws [KeyNotArray] and changes nothing when the
    table has no array under the name.  Otherwise it returns; the array
    and the entry [key[]] are gone, every other entry and every other
    array is as before, and no section is left empty. *)
Theorem remove_array_contract (S K : str) (x : IniParserX.parser) :
  (IniParserX.is_array2 S K x = false →
   IniParserX.remove_array S K x = Throws KeyNotArray x)
  ∧ (IniParserX.is_array2 S K x = true →
     ∃ x', IniParserX.remove_array S K x = Returns tt x'
       ∧ IniParserX.is_array2 S K x' = false
       ∧ entry (IniParserX.builder x') S (K ++ lit "[]") = None
       ∧ (∀ S' K', (S', K') ≠ (S, K ++ lit "[]") →
            entry (IniParserX.builder x') S' K' = entry (IniParserX.builder x) S' K')
       ∧ (∀ p, p ≠ S ++ lit "/" ++ IniParserX.get_array_name K →
            IniParserX.arrays x' !! p = IniParserX.arrays x !! p)
       ∧ (no_empty_section (IniParserX.builder x) →
          no_empty_section (IniParserX.builder x'))).
Proof.
  unfold IniParserX.remove_array. split; intros ->; [done |].
  eexists. split; [done |].
  unfold IniParserX.is_array2, IniParserX.set_builder, IniParserX.set_arrays.
  cbn [IniParserX.builder IniParserX.arrays].
  split_and!.
  - rewrite lookup_delete_eq. apply bool_decide_eq_false_2. by intros [? ?].
  - apply entry_erase_same.
  - intros S' K' Hne. rewrite entry_erase.
    case_decide as H; [by destruct H as [-> ->] | done].
  - intros p Hp. by rewrite lookup_delete_ne.
  - apply no_empty_section_erase.
Qed.

(** ** The static section, from one load to the next *)

(** C6, as the static variable behaves.  A load starts in the section in
    which the previous load of the class ended, whichever objects the two
    loads fill.  In a file shorter than [npos], an assignment line that has
    a key part and a value part with more than spaces, no [;] before its
    [=], and before it only lines that open no section and that
    [parse_inline] takes, is stored under that section: the entry is in
    the object when the second load ends, whatever follows the line, and
    when the line is the last of the file the load returns [true] in that
    same section with the trimmed value under the trimmed key. *)
Theorem section_carries_over
    (file1 : option str) (w0 : str * Builder)
    (b2 : Builder) (text2 : str) (pre rest : list str) (buffer : str) :
  let first := IniParser.load_ini_file file1 w0 in
  let sec := (state_of first).1 in
  let second := IniParser.load_ini_file (Some text2) (sec, b2) in
  let k := trim (key_part buffer) in
  let v := trim (text_before ";" (text_after "=" buffer)) in
  (N.of_nat (length text2) < npos)%N →
  getlines text2 = pre ++ buffer :: rest →
  Forall (λ l, opens_section l = false ∧ line_ok l) pre →
  head buffer ≠ Some ";"%char →
  "="%char ∈ buffer →
  ";"%char ∉ key_part buffer →
  ¬ blank (key_part buffer) →
  ¬ blank (text_before ";" (text_after "=" buffer)) →
  is_Some (entry (state_of second).2 sec k)
  ∧ (rest = [] →
     ∃ b', second = Returns true (sec, b') ∧ entry b' sec k = Some v).
Proof.
  intros first sec second k v Hlen Hlines Hpre Hc He Hs Hkb Hvb.
  assert (Ev : value_part buffer = text_before ";" (text_after "=" buffer)).
  { unfold value_part. by rewrite bool_decide_eq_false_2. }
  pose proof (short_lines _ (lines_short text2 Hlen)) as Hshort.
  rewrite Hlines in Hshort. apply Forall_app in Hshort as [Hspre Hsrest].
  apply Forall_cons in Hsrest as [Hsb _].
  assert (Hno : Forall (λ l, opens_section l = false) pre).
  { eapply Forall_impl; [exact Hpre |]. by intros l [? _]. }
  assert (Hok : Forall line_ok pre).
  { eapply Forall_impl; [exact Hpre |]. by intros l [_ ?]. }
  destruct (parse_lines_ok pre (sec, b2) Hspre Hok) as [[sec1 b1] Hrun].
  pose proof (parse_lines_keeps_section _ _ _ _ Hno Hrun) as Hsec.
  cbn [fst] in Hsec. subst sec1.
  assert (Hline : parse_inline buffer (sec, b1) = Returns true (sec, put sec k v b1)).
  { rewrite parse_inline_assignment by done.
    rewrite with_stripped_ok; [| done | done | by rewrite Ev].
    unfold k, v. by rewrite Ev. }
  assert (Hsecond : second
            = match parse_lines rest (sec, put sec k v b1) with
              | Returns _ w' => Returns true w'
              | Throws e w' => Throws e w'
              end).
  { unfold second. cbn [load_ini_file].
    rewrite Hlines, parse_lines_app, Hrun. cbn [parse_lines]. by rewrite Hline. }
  split.
  - rewrite Hsecond.
    pose proof (parse_lines_keeps_entries rest sec (put sec k v b1) sec k) as H.
    destruct (parse_lines rest (sec, put sec k v b1)); cbn [state_of] in *;
      apply H; rewrite entry_put, decide_True by done; eauto.
  - intros ->. exists (put sec k v b1). rewrite Hsecond. split; [done |].
    by rewrite entry_put, decide_True by done.
Qed.

Lemma section_carries_over_witness :
  let first := IniParser.load_ini_file
                 (Some (lit "[A]" ++ [newline] ++ lit "x = 1" ++ [newline])) ([], ∅) in
  let text2 := lit "; settings" ++ [newline] ++ lit "k = v ; new" ++ [newline] in
  (state_of first).1 = lit "A"
  ∧ ∃ b', IniParser.load_ini_file (Some text2) ((state_of first).1, ∅)
          = Returns true (lit "A", b')
          ∧ entry b' (lit "A") (lit "k") = Some (lit "v").
Proof.
  intros first text2. split; [vm_compute; reflexivity |].
  destruct (section_carries_over
              (Some (lit "[A]" ++ [newline] ++ lit "x = 1" ++ [newline])) ([], ∅)
              ∅ text2 [lit "; settings"] [] (lit "k = v ; new"))
    as [_ H].
  - by_evaluation.
  - vm_compute. reflexivity.
  - apply (bool_decide_unpack _). vm_compute. exact I.
  - vm_compute. discriminate.
  - by_evaluation.
  - by_evaluation.
  - by_evaluation.
  - by_evaluation.
  - destruct (H eq_refl) as (b' & E1 & E2). exists b'. split.
    + fold first in E1. rewrite E1. f_equal.
    + assert (Es : (state_of first).1 = lit "A") by (vm_compute; reflexivity).
      fold first in E2. rewrite Es in E2. exact E2.
Defined.
